(** * Poset: a shallow embedding of the consensus engine

    The development follows the Go sources of the [poset] package: the
    event type with its accessors, the memoised graph predicates
    ([ancestor], [selfAncestor], [see], [stronglySee]), the Lamport
    timestamp and round computations, and the consensus passes
    ([InsertEvent], [DivideRounds], [DecideFame], [DecideRoundReceived],
    [ProcessDecidedRounds], [ProcessSigPool], [Reset]), with the frames
    ([GetFrame], [GetAnchorBlockWithFrame]) and the pipeline that runs
    the passes in order ([RunConsensus]).

    Conventions.
    - [int64] values are integers of [Z]; every addition or subtraction the
      source performs on them is followed by [wrap64].
    - A Go function returning [(v, error)] returns a [res]; a method of
      [*Poset] is a state transformer returning an [outcome], which also
      records a run-time panic and the exhaustion of the recursion budget.
    - Go maps are [gmap]s; where the source ranges over a map the model
      ranges over [map_to_list], one of the orders Go may pick.
    - The LRU caches are lists, most recently used entry first. *)

From Stdlib Require Import ZArith Lia Ascii String List.
From stdpp Require Import base option list gmap strings fin_maps sorting.

Local Open Scope string_scope.
Local Open Scope Z_scope.

Set Default Proof Using "Type".

(** ** Machine integers *)

Definition MaxInt64 : Z := 9223372036854775807.
Definition MinInt64 : Z := -9223372036854775808.
Definition MinInt32 : Z := -2147483648.

(** Two's complement wrap-around of a 64-bit signed integer. *)
Definition wrap64 (z : Z) : Z := (z + 2 ^ 63) mod 2 ^ 64 - 2 ^ 63.

Definition in_int64 (z : Z) : Prop := MinInt64 <= z <= MaxInt64.

(** [float64(z)] for an integer [z]: the nearest double, ties to even.  A
    double has 53 significant bits, so integers below [2^53] in magnitude
    are exact.  The result is again an integer. *)
Definition roundHalfEven (z q : Z) : Z :=
  let d := z / q in
  let r := z mod q in
  if 2 * r <? q then d
  else if q <? 2 * r then d + 1
  else if Z.even d then d else d + 1.

Definition float64 (z : Z) : Z :=
  let a := Z.abs z in
  if a <? 2 ^ 53 then z
  else
    let e := Z.log2 a - 52 in
    Z.sgn z * (roundHalfEven a (2 ^ e) * 2 ^ e).

(** [math.Mod(x, y) > 0] on integral doubles.  [math.Mod] is exact, takes
    the sign of [x], and is NaN for [y = 0]; a comparison with NaN is
    false. *)
Definition mathModPositive (x y : Z) : bool :=
  if y =? 0 then false else 0 <? Z.rem x y.

(** ** Bytes and hexadecimal *)

Definition hexDigitUpper (n : N) : ascii :=
  ascii_of_N (if (n <? 10)%N then 48 + n else 55 + n)%N.

(** [fmt.Sprintf("%X", bytes)] *)
Fixpoint hexUpper (bs : list Byte.byte) : string :=
  match bs with
  | [] => EmptyString
  | b :: rest =>
      let n := Byte.to_N b in
      String (hexDigitUpper (n / 16)) (String (hexDigitUpper (n mod 16)) (hexUpper rest))
  end.

Definition sprintf0xX (bs : list Byte.byte) : string := String.append "0x" (hexUpper bs).

Definition fromHexChar (c : ascii) : option N :=
  let n := N_of_ascii c in
  if ((48 <=? n) && (n <=? 57))%N then Some (n - 48)%N
  else if ((97 <=? n) && (n <=? 102))%N then Some (n - 87)%N
  else if ((65 <=? n) && (n <=? 70))%N then Some (n - 55)%N
  else None.

Definition byteOfN (n : N) : Byte.byte :=
  match Byte.of_N n with Some b => b | None => Byte.x00 end.

(** [hex.DecodeString]: the bytes decoded before the first malformed pair,
    and whether the whole string was well formed. *)
Fixpoint hexDecodeString (s : string) : list Byte.byte * bool :=
  match s with
  | EmptyString => ([], true)
  | String _ EmptyString => ([], false)
  | String a (String b rest) =>
      match fromHexChar a, fromHexChar b with
      | Some hi, Some lo =>
          let '(bs, ok) := hexDecodeString rest in
          (byteOfN (hi * 16 + lo) :: bs, ok)
      | _, _ => ([], false)
      end
  end.

(** [s[2:]]; [None] is the slice-bounds panic for strings shorter than 2. *)
Definition dropPrefix2 (s : string) : option string :=
  match s with
  | String _ (String _ rest) => Some rest
  | _ => None
  end.

(** [middleBit]: [false] exactly when the decoded hash is not empty and its
    middle byte is zero. *)
Definition middleBit (ehex : string) : option bool :=
  match dropPrefix2 ehex with
  | None => None
  | Some body =>
      let hash := fst (hexDecodeString body) in
      match hash !! (length hash / 2)%nat with
      | Some b => Some (negb (Byte.eqb b Byte.x00))
      | None => Some true
      end
  end.

(** ** Errors and outcomes *)

Inductive error : Type :=
  | KeyNotFound
  | Errorf (msg : string)
  | Wrapped (prefix : string) (cause : error).

Inductive res (A : Type) : Type :=
  | ROk (a : A)
  | RErr (e : error).
Arguments ROk {A} a.
Arguments RErr {A} e.

Inductive outcome (A : Type) : Type :=
  | Ok (a : A)
  | Err (e : error)
  | Panic
  | NoFuel.
Arguments Ok {A} a.
Arguments Err {A} e.
Arguments Panic {A}.
Arguments NoFuel {A}.

Definition isOk {A} (o : outcome A) : bool :=
  match o with Ok _ => true | _ => false end.

(** ** The LRU cache ([hashicorp/golang-lru])

    Entries are kept most recently used first.  [Get] promotes the entry it
    finds; [Add] updates and promotes an existing key, otherwise inserts at
    the front and evicts the oldest entry when the capacity is exceeded. *)

Section LRU.
Context {K V : Type} `{EqDecision K}.

Record lru : Type := mkLru { lru_size : nat; lru_items : list (K * V) }.

Definition lru_new (size : nat) : lru := mkLru size [].

Fixpoint assoc (k : K) (l : list (K * V)) : option V :=
  match l with
  | [] => None
  | (k', v) :: rest => if decide (k = k') then Some v else assoc k rest
  end.

Fixpoint remove_key (k : K) (l : list (K * V)) : list (K * V) :=
  match l with
  | [] => []
  | (k', v) :: rest =>
      if decide (k = k') then remove_key k rest else (k', v) :: remove_key k rest
  end.

Definition lru_peek (c : lru) (k : K) : option V := assoc k (lru_items c).

Definition lru_get (c : lru) (k : K) : option V * lru :=
  match assoc k (lru_items c) with
  | Some v => (Some v, mkLru (lru_size c) ((k, v) :: remove_key k (lru_items c)))
  | None => (None, c)
  end.

Definition lru_add (c : lru) (k : K) (v : V) : lru :=
  mkLru (lru_size c) (take (lru_size c) ((k, v) :: remove_key k (lru_items c))).

End LRU.

Arguments lru K V : clear implicits.

(** ** Data model *)

Inductive TransactionType : Type := PEER_ADD | PEER_REMOVE.

Record Peer : Type := mkPeer {
  peer_ID : Z;
  peer_NetAddr : string;
  peer_PubKeyHex : string }.

Record InternalTransaction : Type := mkInternalTransaction {
  itx_Type : TransactionType;
  itx_Peer : Peer }.

Record BlockSignature : Type := mkBlockSignature {
  bs_Validator : list Byte.byte;
  bs_Index : Z;
  bs_Signature : string }.

(** A Go slice of payloads may be [nil] ([None]) or allocated, possibly
    empty ([Some []]); [IsLoaded] tells them apart. *)
Record EventBody : Type := mkEventBody {
  body_Transactions : option (list (list Byte.byte));
  body_InternalTransactions : list InternalTransaction;
  body_Parents : list string;
  body_Creator : list Byte.byte;
  body_Index : Z;
  body_BlockSignatures : list BlockSignature;
  body_selfParentIndex : Z;
  body_otherParentCreatorID : Z;
  body_otherParentIndex : Z;
  body_creatorID : Z }.

Record Event : Type := mkEvent {
  ev_Body : EventBody;
  ev_Signature : string;
  ev_topologicalIndex : Z;
  ev_round : option Z;
  ev_lamportTimestamp : option Z;
  ev_roundReceived : option Z;
  ev_creator : string;
  ev_hash : list Byte.byte;
  ev_hex : string;
  ev_FlagTable : list Byte.byte;
  ev_WitnessProof : list string }.

Record RootEvent : Type := mkRootEvent {
  re_Hash : string;
  re_CreatorID : Z;
  re_Index : Z;
  re_LamportTimestamp : Z;
  re_Round : Z }.

Record Root : Type := mkRoot {
  root_NextRound : Z;
  root_SelfParent : RootEvent;
  root_Others : gmap string RootEvent }.

Record Frame : Type := mkFrame {
  frame_Round : Z;
  frame_Roots : list Root;
  frame_Events : list Event }.

Record pendingRound : Type := mkPendingRound {
  pr_Index : Z;
  pr_Decided : bool }.

(** Modelled from the spec: the [Block] type (its declaration is not among
    the sources).  Index, round received, frame hash, the transactions in
    consensus order, and the signatures accumulated so far, keyed by the
    validator's hexadecimal public key. *)
Record Block : Type := mkBlock {
  blk_Index : Z;
  blk_RoundReceived : Z;
  blk_FrameHash : list Byte.byte;
  blk_Transactions : list (list Byte.byte);
  blk_Signatures : gmap string string }.

(** Modelled from the spec: the [RoundInfo] type (its declaration is not
    among the sources).  A round is the set of its events, each flagged as
    witness or not and carrying a fame in {Undefined, True, False}, plus
    the list of consensus events; [queued] records that the round is
    already in the pending-rounds queue. *)
Inductive Trilean : Type := Undefined | Famous | NotFamous.

Record RoundEvent : Type := mkRoundEvent {
  rev_Witness : bool;
  rev_Famous : Trilean }.

Record RoundInfo : Type := mkRoundInfo {
  ri_Events : gmap string RoundEvent;
  ri_ConsensusEvents : list string;
  ri_queued : bool }.

#[global] Instance Trilean_eq_dec : EqDecision Trilean.
Proof. solve_decision. Defined.

(** Modelled from the spec: the [Peers] registry (its declaration is not
    among the sources): the participants by identifier and by public key,
    and the same participants as a slice sorted by identifier. *)
Record Peers : Type := mkPeers {
  peers_ById : gmap Z Peer;
  peers_ByPubKey : gmap string Peer;
  peers_Sorted : list Peer }.

Definition Peers_Len (ps : Peers) : Z := Z.of_nat (size (peers_ByPubKey ps)).
Definition ToPeerSlice (ps : Peers) : list Peer := peers_Sorted ps.
Definition ToPubKeySlice (ps : Peers) : list string := peer_PubKeyHex <$> peers_Sorted ps.

(** *** Methods of [RoundInfo] (modelled from the spec, see above) *)

Definition isWitnessEntry (kv : string * RoundEvent) : bool := rev_Witness (snd kv).

Definition Witnesses (r : RoundInfo) : list string :=
  fst <$> filter (fun kv => isWitnessEntry kv = true) (map_to_list (ri_Events r)).

Definition FamousWitnesses (r : RoundInfo) : list string :=
  fst <$> filter (fun kv => isWitnessEntry kv = true ∧ rev_Famous (snd kv) = Famous)
                 (map_to_list (ri_Events r)).

Definition IsDecided (r : RoundInfo) (x : string) : bool :=
  match ri_Events r !! x with
  | Some e => rev_Witness e && negb (bool_decide (rev_Famous e = Undefined))
  | None => false
  end.

Definition WitnessesDecided (r : RoundInfo) : bool :=
  forallb (fun kv => negb (rev_Witness (snd kv) && bool_decide (rev_Famous (snd kv) = Undefined)))
          (map_to_list (ri_Events r)).

Definition SetFame (r : RoundInfo) (x : string) (f : bool) : RoundInfo :=
  let e := default (mkRoundEvent true Undefined) (ri_Events r !! x) in
  let e' := mkRoundEvent (rev_Witness e) (if f then Famous else NotFamous) in
  mkRoundInfo (<[x := e']> (ri_Events r)) (ri_ConsensusEvents r) (ri_queued r).

Definition SetConsensusEvent (r : RoundInfo) (x : string) : RoundInfo :=
  mkRoundInfo (ri_Events r) (ri_ConsensusEvents r ++ [x]) (ri_queued r).

Definition ConsensusEvents (r : RoundInfo) : list string := ri_ConsensusEvents r.

(** ** External collaborators

    The cryptographic and encoding libraries are outside the package; the
    engine is parametric in them. *)
Class Lib : Type := {
  PublicKey : Type;
  ToECDSAPub : list Byte.byte -> PublicKey;
  SHA256 : list Byte.byte -> list Byte.byte;
  (** [crypto.DecodeSignature]: the pair (R, S) of [*big.Int], either of
      which may be [nil], and the error *)
  DecodeSignature : string -> (option Z * option Z) * option error;
  (** [crypto.Verify]; [None] is a run-time panic (a [nil] component) *)
  cryptoVerify : PublicKey -> list Byte.byte -> option Z -> option Z -> option bool;
  (** [EventBody.Marshal] *)
  marshalBody : EventBody -> res (list Byte.byte);
  (** [json.Unmarshal] into a [map[string]int64]; the map comes with the
      error, as in Go *)
  unmarshalFlagTable : list Byte.byte -> gmap string Z * option error;
  (** [Block.Verify] *)
  blockVerify : Block -> BlockSignature -> res bool;
  (** the hash of a frame, as used by [NewBlockFromFrame] *)
  frameHash : Frame -> res (list Byte.byte) }.

(** The abstract [Store] the engine is built on.  A writing operation
    returns the store it leaves behind together with its error, if any. *)
Class Store (S : Type) : Type := {
  CacheSize : S -> Z;
  GetEvent : S -> string -> res Event;
  SetEvent : S -> Event -> S * option error;
  RootsBySelfParent : S -> gmap string Root * option error;
  GetRoot : S -> string -> res Root;
  LastEventFrom : S -> string -> (string * bool) * option error;
  LastConsensusEventFrom : S -> string -> res (string * bool);
  GetRound : S -> Z -> res RoundInfo;
  SetRound : S -> Z -> RoundInfo -> S * option error;
  RoundWitnesses : S -> Z -> list string;
  LastRound : S -> Z;
  GetBlock : S -> Z -> res Block;
  SetBlock : S -> Block -> S * option error;
  LastBlockIndex : S -> Z;
  StoreGetFrame : S -> Z -> res Frame;
  SetFrame : S -> Frame -> S * option error;
  AddConsensusEvent : S -> Event -> S * option error;
  StoreReset : S -> gmap string Root -> S * option error }.

(** ** Methods of [Event] *)

Section EventMethods.
Context `{Lib}.

Definition Creator (e : Event) : string :=
  if decide (ev_creator e = "") then sprintf0xX (body_Creator (ev_Body e))
  else ev_creator e.

Definition SelfParent (e : Event) : string :=
  match body_Parents (ev_Body e) with
  | sp :: _ => sp
  | [] => ""
  end.

(** [OtherParent(n)] of the event sources; the engine reads the first. *)
Definition OtherParentN (e : Event) (n : Z) : string :=
  if (0 <=? n) && (n <? Z.of_nat (length (body_Parents (ev_Body e))) - 1)
  then default "" (drop 1 (body_Parents (ev_Body e)) !! Z.to_nat n)
  else "".

Definition OtherParent (e : Event) : string := OtherParentN e 0.

Definition Transactions (e : Event) : list (list Byte.byte) :=
  default [] (body_Transactions (ev_Body e)).

Definition Index (e : Event) : Z := body_Index (ev_Body e).

Definition BlockSignatures (e : Event) : list BlockSignature :=
  body_BlockSignatures (ev_Body e).

Definition CreatorID (e : Event) : Z := body_creatorID (ev_Body e).

(** True if the event contains a payload or is the initial event of its
    creator. *)
Definition IsLoaded (e : Event) : bool :=
  if body_Index (ev_Body e) =? 0 then true
  else
    match body_Transactions (ev_Body e) with
    | None => false
    | Some txs =>
        (0 <? Z.of_nat (length txs))
        || (0 <? Z.of_nat (length (body_InternalTransactions (ev_Body e))))
    end.

Definition BodyHash (b : EventBody) : res (list Byte.byte) :=
  match marshalBody b with
  | RErr e => RErr e
  | ROk bytes => ROk (SHA256 bytes)
  end.

(** [Verify] returns Go's pair [(ok, err)]; [None] is a run-time panic
    inside the signature check. *)
Definition Verify (e : Event) : option (bool * option error) :=
  let pubKey := ToECDSAPub (body_Creator (ev_Body e)) in
  match BodyHash (ev_Body e) with
  | RErr err => Some (false, Some err)
  | ROk signBytes =>
      match DecodeSignature (ev_Signature e) with
      | (_, Some err) => Some (false, Some err)
      | ((r, s), None) =>
          match cryptoVerify pubKey signBytes r s with
          | Some ok => Some (ok, None)
          | None => None
          end
      end
  end.

Definition Hash (e : Event) : res (list Byte.byte) :=
  if decide (length (ev_hash e) = 0%nat) then BodyHash (ev_Body e)
  else ROk (ev_hash e).

Definition Hex (e : Event) : string :=
  if decide (ev_hex e = "") then
    sprintf0xX (match Hash e with ROk h => h | RErr _ => [] end)
  else ev_hex e.

Definition GetFlagTable (e : Event) : gmap string Z * option error :=
  unmarshalFlagTable (ev_FlagTable e).

Definition SetRoundReceived (e : Event) (rr : Z) : Event :=
  mkEvent (ev_Body e) (ev_Signature e) (ev_topologicalIndex e) (ev_round e)
          (ev_lamportTimestamp e) (Some rr) (ev_creator e) (ev_hash e) (ev_hex e)
          (ev_FlagTable e) (ev_WitnessProof e).

Definition SetTopologicalIndex (e : Event) (i : Z) : Event :=
  mkEvent (ev_Body e) (ev_Signature e) i (ev_round e)
          (ev_lamportTimestamp e) (ev_roundReceived e) (ev_creator e) (ev_hash e)
          (ev_hex e) (ev_FlagTable e) (ev_WitnessProof e).

Definition SetWireInfo (e : Event) (selfParentIndex otherParentCreatorID
                                    otherParentIndex creatorID : Z) : Event :=
  let b := ev_Body e in
  let b' := mkEventBody (body_Transactions b) (body_InternalTransactions b)
              (body_Parents b) (body_Creator b) (body_Index b)
              (body_BlockSignatures b)
              selfParentIndex otherParentCreatorID otherParentIndex creatorID in
  mkEvent b' (ev_Signature e) (ev_topologicalIndex e) (ev_round e)
          (ev_lamportTimestamp e) (ev_roundReceived e) (ev_creator e) (ev_hash e)
          (ev_hex e) (ev_FlagTable e) (ev_WitnessProof e).

(** [ByLamportTimestamp.Less]; [None] is the panic of [Cmp] on a [nil]
    big integer. *)
Definition lamportLess (a b : Event) : option bool :=
  let it := default (-1) (ev_lamportTimestamp a) in
  let jt := default (-1) (ev_lamportTimestamp b) in
  if negb (it =? jt) then Some (it <? jt)
  else
    match fst (fst (DecodeSignature (ev_Signature a))),
          fst (fst (DecodeSignature (ev_Signature b))) with
    | Some wsi, Some wsj => Some (wsi <? wsj)
    | _, _ => None
    end.
End EventMethods.

(** ** State transformers with errors

    A method with a pointer receiver reads and writes the receiver's
    fields and returns a value or an error.  [Err] is a Go [error] value
    returned to the caller, [Panic] a run-time panic, [NoFuel] a recursion
    deeper than the budget granted to the model. *)

Section StateTransformers.
Context {St : Type}.

Definition ST (A : Type) : Type := St -> outcome A * St.

Definition ret {A} (a : A) : ST A := fun s => (Ok a, s).
Definition fail {A} (e : error) : ST A := fun s => (Err e, s).
Definition panic {A} : ST A := fun s => (Panic, s).
Definition nofuel {A} : ST A := fun s => (NoFuel, s).

Definition bind {A B} (m : ST A) (k : A -> ST B) : ST B :=
  fun s =>
    match m s with
    | (Ok a, s') => k a s'
    | (Err e, s') => (Err e, s')
    | (Panic, s') => (Panic, s')
    | (NoFuel, s') => (NoFuel, s')
    end.

(** [v, err := m(); if err != nil { ... }]: the error becomes a value. *)
Definition catch {A} (m : ST A) : ST (res A) :=
  fun s =>
    match m s with
    | (Ok a, s') => (Ok (ROk a), s')
    | (Err e, s') => (Ok (RErr e), s')
    | (Panic, s') => (Panic, s')
    | (NoFuel, s') => (NoFuel, s')
    end.

Definition liftRes {A} (r : res A) : ST A :=
  match r with ROk a => ret a | RErr e => fail e end.

Definition liftOpt {A} (o : option A) : ST A :=
  match o with Some a => ret a | None => panic end.

Definition gets {A} (f : St -> A) : ST A := fun s => (Ok (f s), s).
Definition modify (f : St -> St) : ST unit := fun s => (Ok tt, f s).
End StateTransformers.

Arguments ST St A : clear implicits.

Notation "x <- m ;; k" := (bind m (fun x => k))
  (at level 100, m at next level, right associativity).

(** ** The memoisation caches of the engine *)

Abbreviation Key := (string * string)%type.

Record Caches : Type := mkCaches {
  ancestorCache : lru Key bool;
  selfAncestorCache : lru Key bool;
  stronglySeeCache : lru Key bool;
  roundCache : lru string Z;
  timestampCache : lru string Z }.

Definition G : Type -> Type := ST Caches.

Definition set_ancestorCache (v : lru Key bool) (c : Caches) : Caches :=
  mkCaches v (selfAncestorCache c) (stronglySeeCache c) (roundCache c) (timestampCache c).
Definition set_selfAncestorCache (v : lru Key bool) (c : Caches) : Caches :=
  mkCaches (ancestorCache c) v (stronglySeeCache c) (roundCache c) (timestampCache c).
Definition set_stronglySeeCache (v : lru Key bool) (c : Caches) : Caches :=
  mkCaches (ancestorCache c) (selfAncestorCache c) v (roundCache c) (timestampCache c).
Definition set_roundCache (v : lru string Z) (c : Caches) : Caches :=
  mkCaches (ancestorCache c) (selfAncestorCache c) (stronglySeeCache c) v (timestampCache c).
Definition set_timestampCache (v : lru string Z) (c : Caches) : Caches :=
  mkCaches (ancestorCache c) (selfAncestorCache c) (stronglySeeCache c) (roundCache c) v.

(** [cache.Get] and [cache.Add] on one of the five caches, selected by its
    projection and its setter. *)
Definition cacheGet {K V} `{EqDecision K}
    (proj : Caches -> lru K V) (upd : lru K V -> Caches -> Caches) (k : K) : G (option V) :=
  fun c => let '(v, l) := lru_get (proj c) k in (Ok v, upd l c).

Definition cacheAdd {K V} `{EqDecision K}
    (proj : Caches -> lru K V) (upd : lru K V -> Caches -> Caches) (k : K) (v : V) : G unit :=
  fun c => (Ok tt, upd (lru_add (proj c) k v) c).

(** ** Graph predicates, Lamport timestamps and rounds *)

Section Graph.
Context `{Lib} {S : Type} `{Store S}.
(** The fields of the engine the predicates read but never write. *)
Variable st : S.
Variable participants : Peers.
Variable superMajority : Z.
(** The depth granted to each recursive computation. *)
Variable budget : nat.

(** [participants.ById[id].PubKeyHex]: dereferencing a missing peer
    panics. *)
Definition peerPubKeyById (id : Z) : G string :=
  match peers_ById participants !! id with
  | Some p => ret (peer_PubKeyHex p)
  | None => panic
  end.

(** *** Lamport timestamps *)

Definition lamportTimestamp2 (lamportTimestamp : string -> G Z) (x : string) : G Z :=
  let rootsBySelfParent := fst (RootsBySelfParent st) in
  match rootsBySelfParent !! x with
  | Some r => ret (re_LamportTimestamp (root_SelfParent r))
  | None =>
      ex <- liftRes (GetEvent st x) ;;
      root <- liftRes (GetRoot st (Creator ex)) ;;
      plt <- (if decide (SelfParent ex = re_Hash (root_SelfParent root))
              then ret (re_LamportTimestamp (root_SelfParent root))
              else lamportTimestamp (SelfParent ex)) ;;
      if decide (OtherParent ex = "") then ret (wrap64 (plt + 1))
      else
        opLT <- match GetEvent st (OtherParent ex) with
                | ROk _ => lamportTimestamp (OtherParent ex)
                | RErr _ =>
                    match root_Others root !! x with
                    | Some other =>
                        if decide (re_Hash other = OtherParent ex)
                        then ret (re_LamportTimestamp other)
                        else ret MinInt64
                    | None => ret MinInt64
                    end
                end ;;
        ret (wrap64 ((if plt <? opLT then opLT else plt) + 1))
  end.

(** The depth [n] bounds the nesting of the calls: a call that would nest
    deeper than [n] does not return ([NoFuel]). *)
Fixpoint lamportTimestampN (n : nat) (x : string) : G Z :=
  c <- cacheGet timestampCache set_timestampCache x ;;
  match c with
  | Some t => ret t
  | None =>
      r <- lamportTimestamp2
             (match n with
              | O => fun _ => nofuel
              | Datatypes.S n' => lamportTimestampN n'
              end) x ;;
      _ <- cacheAdd timestampCache set_timestampCache x r ;;
      ret r
  end.

Definition lamportTimestamp : string -> G Z := lamportTimestampN budget.

(** lamport(y) - lamport(x) *)
Definition lamportTimestampDiff (x y : string) : G Z :=
  xlt <- lamportTimestamp x ;;
  ylt <- lamportTimestamp y ;;
  ret (wrap64 (ylt - xlt)).

(** *** ancestor *)

(** [for _, root := range roots { if other, ok := root.Others[y]; ok
    { return other.Hash == x } }] *)
Fixpoint firstOther (roots : list (string * Root)) (y : string) : option RootEvent :=
  match roots with
  | [] => None
  | (_, root) :: rest =>
      match root_Others root !! y with
      | Some other => Some other
      | None => firstOther rest y
      end
  end.

Definition ancestor2 (ancestor : string -> string -> G bool) (x y : string) : G bool :=
  if decide (x = y) then ret true
  else
    match GetEvent st x with
    | RErr _ =>
        match RootsBySelfParent st with
        | (_, Some err2) => fail err2
        | (roots, None) =>
            match firstOther (map_to_list roots) y with
            | Some other => ret (bool_decide (re_Hash other = x))
            | None => ret false
            end
        end
    | ROk ex =>
        lamportDiff <- lamportTimestampDiff x y ;;
        if 0 <? lamportDiff then ret false
        else
          let walk : G bool :=
            res <- ancestor (SelfParent ex) y ;;
            if (res : bool) then ret true else ancestor (OtherParent ex) y in
          match GetEvent st y with
          | RErr _ =>
              match RootsBySelfParent st with
              | (_, Some err2) => fail err2
              | (roots, None) =>
                  match roots !! y with
                  | Some root =>
                      yCreator <- peerPubKeyById (re_CreatorID (root_SelfParent root)) ;;
                      if decide (Creator ex = yCreator)
                      then ret (re_Index (root_SelfParent root) <=? Index ex)
                      else walk
                  | None => ret false
                  end
              end
          | ROk ey =>
              if decide (Creator ex = Creator ey)
              then ret (Index ey <=? Index ex)
              else walk
          end
    end.

(** true if y is an ancestor of x *)
Fixpoint ancestorN (n : nat) (x y : string) : G bool :=
  c <- cacheGet ancestorCache set_ancestorCache (x, y) ;;
  match c with
  | Some b => ret b
  | None =>
      if decide (String.length x = 0%nat ∨ String.length y = 0%nat) then ret false
      else
        a <- ancestor2
               (match n with
                | O => fun _ _ => nofuel
                | Datatypes.S n' => ancestorN n'
                end) x y ;;
        _ <- cacheAdd ancestorCache set_ancestorCache (x, y) a ;;
        ret a
  end.

Definition ancestor : string -> string -> G bool := ancestorN budget.

(** *** selfAncestor *)

Definition selfAncestor2 (x y : string) : G bool :=
  if decide (x = y) then ret true
  else
    match GetEvent st x with
    | RErr err =>
        match RootsBySelfParent st with
        | (_, Some err') => fail err'
        | (roots, None) =>
            match roots !! x with
            | Some root =>
                if decide (re_Hash (root_SelfParent root) = y) then ret true
                else ret false
            | None => ret false
            end
        end
    | ROk ex =>
        match GetEvent st y with
        | RErr _ =>
            match RootsBySelfParent st with
            | (_, Some err2) => fail err2
            | (roots, None) =>
                match roots !! y with
                | Some root =>
                    yCreator <- peerPubKeyById (re_CreatorID (root_SelfParent root)) ;;
                    if decide (Creator ex = yCreator)
                    then ret (re_Index (root_SelfParent root) <=? Index ex)
                    else ret false
                | None => ret false
                end
            end
        | ROk ey =>
            if decide (Creator ex = Creator ey)
            then ret (Index ey <=? Index ex)
            else ret false
        end
    end.

(** true if y is a self-ancestor of x *)
Definition selfAncestor (x y : string) : G bool :=
  c <- cacheGet selfAncestorCache set_selfAncestorCache (x, y) ;;
  match c with
  | Some b => ret b
  | None =>
      if decide (String.length x = 0%nat ∨ String.length y = 0%nat) then ret false
      else
        a <- selfAncestor2 x y ;;
        _ <- cacheAdd selfAncestorCache set_selfAncestorCache (x, y) a ;;
        ret a
  end.

(** true if x sees y *)
Definition see (x y : string) : G bool := ancestor x y.

(** *** stronglySee *)

(** participants in x's ancestry that see y.  The Go function fills the
    map it is handed and returns an error or [nil]; the model returns the
    map together with that error. *)
Fixpoint MapSentinelsN (n : nat) (x y : string) (sentinels : gmap string bool)
    : G (gmap string bool * option error) :=
  if decide (x = "") then ret (sentinels, None)
  else
    r <- catch (see x y) ;;
    match r with
    | RErr err => ret (sentinels, Some err)
    | ROk false => ret (sentinels, None)
    | ROk true =>
        match GetEvent st x with
        | RErr err =>
            match RootsBySelfParent st with
            | (_, Some err2) => ret (sentinels, Some err2)
            | (roots, None) =>
                match roots !! x with
                | Some root =>
                    creator <- peerPubKeyById (re_CreatorID (root_SelfParent root)) ;;
                    ret (<[creator := true]> sentinels, None)
                | None => ret (sentinels, Some err)
                end
            end
        | ROk ex =>
            let sentinels := <[Creator ex := true]> sentinels in
            if decide (x = y) then ret (sentinels, None)
            else
              match n with
              | O => nofuel
              | Datatypes.S n' =>
                  r1 <- MapSentinelsN n' (OtherParent ex) y sentinels ;;
                  match r1 with
                  | (sentinels, Some err) => ret (sentinels, Some err)
                  | (sentinels, None) => MapSentinelsN n' (SelfParent ex) y sentinels
                  end
              end
        end
    end.

Definition MapSentinels : string -> string -> gmap string bool
                          -> G (gmap string bool * option error) :=
  MapSentinelsN budget.

Definition stronglySee2 (x y : string) : G bool :=
  r <- MapSentinels x y ∅ ;;
  match r with
  | (_, Some err) => fail err
  | (sentinels, None) => ret (superMajority <=? Z.of_nat (size sentinels))
  end.

(** true if x strongly sees y *)
Definition stronglySee (x y : string) : G bool :=
  if decide (String.length x = 0%nat ∨ String.length y = 0%nat) then ret false
  else
    c <- cacheGet stronglySeeCache set_stronglySeeCache (x, y) ;;
    match c with
    | Some b => ret b
    | None =>
        ss <- stronglySee2 x y ;;
        _ <- cacheAdd stronglySeeCache set_stronglySeeCache (x, y) ss ;;
        ret ss
    end.

(** *** round *)

(** [Root.Others[ex.Hex()]] holds the other-parent of [ex]. *)
Definition otherInRoot (root : Root) (ex : Event) : bool :=
  match root_Others root !! Hex ex with
  | Some other => bool_decide (re_Hash other = OtherParent ex)
  | None => false
  end.

(** The two nested loops over the flag table and the witnesses of the
    other-parent's round: [found], and how many witnesses named in the
    flag table the event sees. *)
Fixpoint countSeenWitnesses (ex : Event) (k : string) (ws : list string)
    (acc : bool * Z) : G (bool * Z) :=
  match ws with
  | [] => ret acc
  | w :: rest =>
      if decide (w = k ∧ w ≠ Hex ex) then
        s <- see (Hex ex) w ;;
        countSeenWitnesses ex k rest
          (if (s : bool) then (true, wrap64 (snd acc + 1)) else acc)
      else countSeenWitnesses ex k rest acc
  end.

Fixpoint countSeenFlagged (ex : Event) (ks : list string) (ws : list string)
    (acc : bool * Z) : G (bool * Z) :=
  match ks with
  | [] => ret acc
  | k :: rest =>
      acc' <- countSeenWitnesses ex k ws acc ;;
      countSeenFlagged ex rest ws acc'
  end.

(** The closure [isSee] of [round2]: an error of [see] counts as "does
    not see". *)
Fixpoint isSee (ex : Event) (root : string) (ws : list string) : G bool :=
  match ws with
  | [] => ret false
  | w :: rest =>
      if decide (w = root ∧ w ≠ Hex ex) then
        r <- catch (see (Hex ex) w) ;;
        match r with
        | RErr _ => ret false
        | ROk true => ret true
        | ROk false => isSee ex root rest
        end
      else isSee ex root rest
  end.

Fixpoint countIsSee (ex : Event) (roots : list string) (ws : list string) (count : Z) : G Z :=
  match roots with
  | [] => ret count
  | root :: rest =>
      b <- isSee ex root ws ;;
      countIsSee ex rest ws (if (b : bool) then count + 1 else count)
  end.

Definition round2 (round : string -> G Z) (x : string) : G Z :=
  let rootsBySelfParent := fst (RootsBySelfParent st) in
  match rootsBySelfParent !! x with
  | Some r => ret (re_Round (root_SelfParent r))
  | None =>
      ex <- liftRes (GetEvent st x) ;;
      root <- liftRes (GetRoot st (Creator ex)) ;;
      if bool_decide (SelfParent ex = re_Hash (root_SelfParent root))
         && (bool_decide (OtherParent ex = "") || otherInRoot root ex)
      then ret (root_NextRound root)
      else
        spRound <- round (SelfParent ex) ;;
        (* the tail shared by every path that reaches the witness-proof
           and flag-table checks *)
        let finish (parentRound : Z) : G Z :=
          let ws := RoundWitnesses st parentRound in
          viaProof <-
            (if superMajority <=? Z.of_nat (length (ev_WitnessProof ex)) then
               count <- countIsSee ex (ev_WitnessProof ex) ws 0 ;;
               ret (superMajority <=? count)
             else ret false) ;;
          if (viaProof : bool) then ret (wrap64 (parentRound + 1))
          else
            let ft := fst (GetFlagTable ex) in
            viaTable <-
              (if superMajority <=? Z.of_nat (size ft) then
                 count <- countIsSee ex (fst <$> map_to_list ft) ws 0 ;;
                 ret (superMajority <=? count)
               else ret false) ;;
            if (viaTable : bool) then ret (wrap64 (parentRound + 1))
            else ret parentRound in
        if decide (OtherParent ex = "") then finish spRound
        else
          opRound <- (if otherInRoot root ex then ret (root_NextRound root)
                      else round (OtherParent ex)) ;;
          if spRound <? opRound then
            let ws := RoundWitnesses st opRound in
            let ft := fst (GetFlagTable ex) in
            seen <- countSeenFlagged ex (fst <$> map_to_list ft) ws (false, 0) ;;
            if superMajority <=? snd seen then ret (wrap64 (opRound + 1))
            else if fst seen then ret opRound
            else finish opRound
          else finish spRound
  end.

Fixpoint roundN (n : nat) (x : string) : G Z :=
  c <- cacheGet roundCache set_roundCache x ;;
  match c with
  | Some r => ret r
  | None =>
      r <- round2
             (match n with
              | O => fun _ => nofuel
              | Datatypes.S n' => roundN n'
              end) x ;;
      _ <- cacheAdd roundCache set_roundCache x r ;;
      ret r
  end.

Definition round : string -> G Z := roundN budget.
End Graph.

(** ** The engine state

  The fields of the Go [Poset] struct.  [core] holds the head and the
  identifier the [Core] interface answers with; [commitCh] is [None] for
  a [nil] channel and otherwise the blocks sent so far; the five caches
  are grouped in [caches]. *)

Section Engine.
Context `{Lib} {S : Type} `{Store S}.

Record Poset : Type := mkPoset {
  participants : Peers;
  store : S;
  core : option (string * string);
  superMajority : Z;
  trustCount : Z;
  commitCh : option (list Block);
  undeterminedEvents : list string;
  pendingRounds : list pendingRound;
  lastConsensusRound : option Z;
  firstConsensusRound : option Z;
  anchorBlock : option Z;
  sigPool : list BlockSignature;
  consensusTransactions : Z;
  pendingLoadedEvents : Z;
  topologicalIndex : Z;
  caches : Caches }.

Definition set_store (v : S) (p : Poset) : Poset :=
  mkPoset (participants p) v (core p) (superMajority p) (trustCount p) (commitCh p) (undeterminedEvents p) (pendingRounds p) (lastConsensusRound p) (firstConsensusRound p) (anchorBlock p) (sigPool p) (consensusTransactions p) (pendingLoadedEvents p) (topologicalIndex p) (caches p).

Definition set_commitCh (v : option (list Block)) (p : Poset) : Poset :=
  mkPoset (participants p) (store p) (core p) (superMajority p) (trustCount p) v (undeterminedEvents p) (pendingRounds p) (lastConsensusRound p) (firstConsensusRound p) (anchorBlock p) (sigPool p) (consensusTransactions p) (pendingLoadedEvents p) (topologicalIndex p) (caches p).

Definition set_undeterminedEvents (v : list string) (p : Poset) : Poset :=
  mkPoset (participants p) (store p) (core p) (superMajority p) (trustCount p) (commitCh p) v (pendingRounds p) (lastConsensusRound p) (firstConsensusRound p) (anchorBlock p) (sigPool p) (consensusTransactions p) (pendingLoadedEvents p) (topologicalIndex p) (caches p).

Definition set_pendingRounds (v : list pendingRound) (p : Poset) : Poset :=
  mkPoset (participants p) (store p) (core p) (superMajority p) (trustCount p) (commitCh p) (undeterminedEvents p) v (lastConsensusRound p) (firstConsensusRound p) (anchorBlock p) (sigPool p) (consensusTransactions p) (pendingLoadedEvents p) (topologicalIndex p) (caches p).

Definition set_lastConsensusRound (v : option Z) (p : Poset) : Poset :=
  mkPoset (participants p) (store p) (core p) (superMajority p) (trustCount p) (commitCh p) (undeterminedEvents p) (pendingRounds p) v (firstConsensusRound p) (anchorBlock p) (sigPool p) (consensusTransactions p) (pendingLoadedEvents p) (topologicalIndex p) (caches p).

Definition set_firstConsensusRound (v : option Z) (p : Poset) : Poset :=
  mkPoset (participants p) (store p) (core p) (superMajority p) (trustCount p) (commitCh p) (undeterminedEvents p) (pendingRounds p) (lastConsensusRound p) v (anchorBlock p) (sigPool p) (consensusTransactions p) (pendingLoadedEvents p) (topologicalIndex p) (caches p).

Definition set_anchorBlock (v : option Z) (p : Poset) : Poset :=
  mkPoset (participants p) (store p) (core p) (superMajority p) (trustCount p) (commitCh p) (undeterminedEvents p) (pendingRounds p) (lastConsensusRound p) (firstConsensusRound p) v (sigPool p) (consensusTransactions p) (pendingLoadedEvents p) (topologicalIndex p) (caches p).

Definition set_sigPool (v : list BlockSignature) (p : Poset) : Poset :=
  mkPoset (participants p) (store p) (core p) (superMajority p) (trustCount p) (commitCh p) (undeterminedEvents p) (pendingRounds p) (lastConsensusRound p) (firstConsensusRound p) (anchorBlock p) v (consensusTransactions p) (pendingLoadedEvents p) (topologicalIndex p) (caches p).

Definition set_consensusTransactions (v : Z) (p : Poset) : Poset :=
  mkPoset (participants p) (store p) (core p) (superMajority p) (trustCount p) (commitCh p) (undeterminedEvents p) (pendingRounds p) (lastConsensusRound p) (firstConsensusRound p) (anchorBlock p) (sigPool p) v (pendingLoadedEvents p) (topologicalIndex p) (caches p).

Definition set_pendingLoadedEvents (v : Z) (p : Poset) : Poset :=
  mkPoset (participants p) (store p) (core p) (superMajority p) (trustCount p) (commitCh p) (undeterminedEvents p) (pendingRounds p) (lastConsensusRound p) (firstConsensusRound p) (anchorBlock p) (sigPool p) (consensusTransactions p) v (topologicalIndex p) (caches p).

Definition set_topologicalIndex (v : Z) (p : Poset) : Poset :=
  mkPoset (participants p) (store p) (core p) (superMajority p) (trustCount p) (commitCh p) (undeterminedEvents p) (pendingRounds p) (lastConsensusRound p) (firstConsensusRound p) (anchorBlock p) (sigPool p) (consensusTransactions p) (pendingLoadedEvents p) v (caches p).

Definition set_caches (v : Caches) (p : Poset) : Poset :=
  mkPoset (participants p) (store p) (core p) (superMajority p) (trustCount p) (commitCh p) (undeterminedEvents p) (pendingRounds p) (lastConsensusRound p) (firstConsensusRound p) (anchorBlock p) (sigPool p) (consensusTransactions p) (pendingLoadedEvents p) (topologicalIndex p) v.

Definition set_superMajority (v : Z) (p : Poset) : Poset :=
  mkPoset (participants p) (store p) (core p) v (trustCount p) (commitCh p) (undeterminedEvents p) (pendingRounds p) (lastConsensusRound p) (firstConsensusRound p) (anchorBlock p) (sigPool p) (consensusTransactions p) (pendingLoadedEvents p) (topologicalIndex p) (caches p).

Definition set_trustCount (v : Z) (p : Poset) : Poset :=
  mkPoset (participants p) (store p) (core p) (superMajority p) v (commitCh p) (undeterminedEvents p) (pendingRounds p) (lastConsensusRound p) (firstConsensusRound p) (anchorBlock p) (sigPool p) (consensusTransactions p) (pendingLoadedEvents p) (topologicalIndex p) (caches p).

Definition M : Type -> Type := ST Poset.

(** The depth granted to the recursive graph computations and to the
    counting loops of the consensus passes. *)
Variable budget : nat.

(** A graph computation run on the caches of the engine; it reads the
    store, the participants and the super-majority of the current state. *)
Definition callG {A} (g : Poset -> G A) : M A :=
  fun p => let '(r, c) := g p (caches p) in (r, set_caches c p).

Definition isKeyNotFound (e : error) : bool :=
  match e with KeyNotFound => true | _ => false end.

(** *** Accessors *)

Definition addUndeterminedEvents (event : string) : M unit :=
  modify (fun p => set_undeterminedEvents (undeterminedEvents p ++ [event]) p).

Definition setUndeterminedEvents (events : list string) : M unit :=
  modify (set_undeterminedEvents events).

Definition addPendingRounds (rs : list pendingRound) : M unit :=
  modify (fun p => set_pendingRounds (pendingRounds p ++ rs) p).

Definition clearPendingRounds : M unit := modify (set_pendingRounds []).

Definition clearLastConsensusRound : M unit := modify (set_lastConsensusRound None).

Definition setLastConsensusRound (i : Z) : M unit :=
  modify (fun p =>
    let p' := set_lastConsensusRound (Some i) p in
    match firstConsensusRound p' with
    | None => set_firstConsensusRound (Some i) p'
    | Some _ => p'
    end).

Definition clearFirstConsensusRound : M unit := modify (set_firstConsensusRound None).

Definition SetAnchorBlock (val : Z) : M unit := modify (set_anchorBlock (Some val)).

Definition clearAnchorBlock : M unit := modify (set_anchorBlock None).

Definition SetSigPool (pool : list BlockSignature) : M unit := modify (set_sigPool pool).

Definition AddToSigPool (sig : list BlockSignature) : M unit :=
  modify (fun p => set_sigPool (sigPool p ++ sig) p).

(** [consensusTransactions] is a [uint64]. *)
Definition AddConsensusTransactions (add : Z) : M unit :=
  modify (fun p => set_consensusTransactions ((consensusTransactions p + add) mod 2 ^ 64) p).

Definition increasePendingLoadedEvents : M unit :=
  modify (fun p => set_pendingLoadedEvents (wrap64 (pendingLoadedEvents p + 1)) p).

Definition decreasePendingLoadedEvents : M unit :=
  modify (fun p => set_pendingLoadedEvents (wrap64 (pendingLoadedEvents p - 1)) p).

Definition clearPendingLoadedEvents : M unit := modify (set_pendingLoadedEvents 0).

Definition increaseTopologicalIndex : M unit :=
  modify (fun p => set_topologicalIndex (wrap64 (topologicalIndex p + 1)) p).

Definition clearTopologicalIndex : M unit := modify (set_topologicalIndex 0).

(** A writing store operation: the store is replaced, the error returned. *)
Definition storeWrite (w : S -> S * option error) : M (option error) :=
  fun p => let '(s', e) := w (store p) in (Ok e, set_store s' p).

(** *** NewPoset *)

(** [lru.New] fails on a capacity that is not positive. *)
Definition newCache {K V : Type} (size : Z) : option (lru K V) :=
  if size <=? 0 then None else Some (mkLru (Z.to_nat size) []).

(** The participant count is the length of an in-memory map, so doubling
    it stays within [int]; the division is Go's, on a natural number.
    [trustCount] is [math.Ceil] of a quotient of small integers.  A cache
    that cannot be built is fatal ([None]). *)
Definition NewPoset (ps : Peers) (s : S) (ch : option (list Block)) : option Poset :=
  let superMajority := 2 * Peers_Len ps / 3 + 1 in
  let trustCount := (Peers_Len ps + 2) / 3 in
  let cacheSize := CacheSize s in
  match newCache cacheSize, newCache cacheSize, newCache cacheSize,
        newCache cacheSize, newCache cacheSize with
  | Some ac, Some sac, Some ssc, Some rc, Some tc =>
      Some (mkPoset ps s None superMajority trustCount ch [] [] None None None
                    [] 0 0 0 (mkCaches ac sac ssc rc tc))
  | _, _, _, _, _ => None
  end.

(** *** InsertEvent *)

(** Check the SelfParent is the Creator's last known Event *)
Definition checkSelfParent (event : Event) : M unit :=
  p <- gets id ;;
  match LastEventFrom (store p) (Creator event) with
  | (_, Some err) => fail err
  | ((creatorLastKnown, _), None) =>
      if decide (SelfParent event = creatorLastKnown) then ret tt
      else fail (Errorf "self-parent not last known event by creator")
  end.

(** Check if we know the OtherParent *)
Definition checkOtherParent (event : Event) : M unit :=
  p <- gets id ;;
  if decide (OtherParent event = "") then ret tt
  else
    match GetEvent (store p) (OtherParent event) with
    | ROk _ => ret tt
    | RErr _ =>
        root <- liftRes (GetRoot (store p) (Creator event)) ;;
        if otherInRoot root event then ret tt
        else fail (Errorf "other-parent not known")
    end.

(** [participants.ByPubKey[key].ID]: a missing participant panics. *)
Definition peerIdByPubKey {St} (ps : Peers) (key : string) : ST St Z :=
  match peers_ByPubKey ps !! key with
  | Some peer => ret (peer_ID peer)
  | None => panic
  end.

Definition setWireInfo (event : Event) : M Event :=
  p <- gets id ;;
  selfParentIndex <-
    (let '((lf, isRoot), _) := LastEventFrom (store p) (Creator event) in
     if (isRoot : bool) && bool_decide (lf = SelfParent event) then
       root <- liftRes (GetRoot (store p) (Creator event)) ;;
       ret (re_Index (root_SelfParent root))
     else
       selfParent <- liftRes (GetEvent (store p) (SelfParent event)) ;;
       ret (Index selfParent)) ;;
  other <-
    (if decide (OtherParent event = "") then ret (-1, -1)
     else
       root <- liftRes (GetRoot (store p) (Creator event)) ;;
       match root_Others root !! Hex event with
       | Some o =>
           if decide (re_Hash o = OtherParent event)
           then ret (re_CreatorID o, re_Index o)
           else
             otherParent <- liftRes (GetEvent (store p) (OtherParent event)) ;;
             cid <- peerIdByPubKey (participants p) (Creator otherParent) ;;
             ret (cid, Index otherParent)
       | None =>
           otherParent <- liftRes (GetEvent (store p) (OtherParent event)) ;;
           cid <- peerIdByPubKey (participants p) (Creator otherParent) ;;
           ret (cid, Index otherParent)
       end) ;;
  creatorID <- peerIdByPubKey (participants p) (Creator event) ;;
  ret (SetWireInfo event selfParentIndex (fst other) (snd other) creatorID).

(** [fmt.Errorf(prefix + "%s", err)] around a failing step. *)
Definition wrapErr {A} (prefix : string) (m : M A) : M A :=
  r <- catch m ;;
  match r with
  | ROk a => ret a
  | RErr err => fail (Wrapped prefix err)
  end.

(** InsertEvent attempts to insert an Event in the DAG. It verifies the
    signature, checks the ancestors are known, and prevents the
    introduction of forks. *)
Definition InsertEvent (event : Event) (setWire : bool) : M unit :=
  match Verify event with
  | None => panic
  | Some (false, Some err) => fail err
  | Some (false, None) => fail (Errorf "invalid Event signature")
  | Some (true, _) =>
      _ <- wrapErr "CheckSelfParent: " (checkSelfParent event) ;;
      _ <- wrapErr "CheckOtherParent: " (checkOtherParent event) ;;
      ti <- gets topologicalIndex ;;
      let event := SetTopologicalIndex event ti in
      _ <- increaseTopologicalIndex ;;
      event <- (if setWire then wrapErr "SetWireInfo: " (setWireInfo event)
                else ret event) ;;
      e <- storeWrite (fun s => SetEvent s event) ;;
      match e with
      | Some err => fail (Wrapped "SetEvent: " err)
      | None =>
          _ <- addUndeterminedEvents (Hex event) ;;
          _ <- (if IsLoaded event then increasePendingLoadedEvents else ret tt) ;;
          AddToSigPool (BlockSignatures event)
      end
  end.

(** *** DecideFame *)

(** The vote map [votes[x][y]] of [DecideFame]; a missing entry reads as
    [false]. *)
Definition getVote (votes : gmap (string * string) bool) (x y : string) : bool :=
  default false (votes !! (x, y)).

Definition setVote (votes : gmap (string * string) bool) (x y : string) (vote : bool)
    : gmap (string * string) bool :=
  <[(x, y) := vote]> votes.

Definition seeM (x y : string) : M bool :=
  callG (fun p => see (store p) (participants p) budget x y).

Definition stronglySeeM (x y : string) : M bool :=
  callG (fun p => stronglySee (store p) (participants p) (superMajority p) budget x y).

(** The witnesses of the previous round that [y] strongly sees. *)
Fixpoint stronglySeen (y : string) (ws : list string) : M (list string) :=
  match ws with
  | [] => ret []
  | w :: rest =>
      ss <- stronglySeeM y w ;;
      tl <- stronglySeen y rest ;;
      ret (if (ss : bool) then w :: tl else tl)
  end.

Fixpoint countVotes (votes : gmap (string * string) bool) (x : string)
    (ssWitnesses : list string) (yays nays : Z) : Z * Z :=
  match ssWitnesses with
  | [] => (yays, nays)
  | w :: rest =>
      if getVote votes w x then countVotes votes x rest (yays + 1) nays
      else countVotes votes x rest yays (nays + 1)
  end.

(** The decision taken by witness [y] on [x] at round difference
    [diff >= 2], from the tally of the witnesses it strongly sees.  The
    result is the vote map, the round and whether the vote loop is left;
    [None] is the panic of [middleBit] on a hash shorter than two
    characters. *)
Definition castVote (n superMajority diff : Z) (y x : string) (yays nays : Z)
    (votes : gmap (string * string) bool) (roundInfo : RoundInfo)
    : option (gmap (string * string) bool * RoundInfo * bool) :=
  let v := nays <=? yays in
  let t := if nays <=? yays then yays else nays in
  if mathModPositive (float64 diff) (float64 n) then
    (* normal round *)
    if superMajority <=? t
    then Some (setVote votes y x v, SetFame roundInfo x v, true)
    else Some (setVote votes y x v, roundInfo, false)
  else
    (* coin round *)
    if superMajority <=? t
    then Some (setVote votes y x v, roundInfo, false)
    else
      match middleBit y with
      | Some coin => Some (setVote votes y x coin, roundInfo, false)
      | None => None
      end.

(** [for _, y := range p.store.RoundWitnesses(j)] *)
Fixpoint voteWitnesses (roundIndex j : Z) (x : string) (ys : list string)
    (votes : gmap (string * string) bool) (roundInfo : RoundInfo)
    : M (gmap (string * string) bool * RoundInfo * bool) :=
  match ys with
  | [] => ret (votes, roundInfo, false)
  | y :: rest =>
      let diff := wrap64 (j - roundIndex) in
      if diff =? 1 then
        ycx <- seeM y x ;;
        voteWitnesses roundIndex j x rest (setVote votes y x ycx) roundInfo
      else
        p <- gets id ;;
        ssWitnesses <- stronglySeen y (RoundWitnesses (store p) (wrap64 (j - 1))) ;;
        let '(yays, nays) := countVotes votes x ssWitnesses 0 0 in
        r <- liftOpt (castVote (Peers_Len (participants p)) (superMajority p)
                               diff y x yays nays votes roundInfo) ;;
        let '(votes', roundInfo', leave) := r in
        if (leave : bool) then ret (votes', roundInfo', true)
        else voteWitnesses roundIndex j x rest votes' roundInfo'
  end.

(** [VoteLoop: for j := roundIndex + 1; j <= p.store.LastRound(); j++] *)
Fixpoint voteLoop (n : nat) (roundIndex j : Z) (x : string)
    (votes : gmap (string * string) bool) (roundInfo : RoundInfo)
    : M (gmap (string * string) bool * RoundInfo) :=
  p <- gets id ;;
  if j <=? LastRound (store p) then
    r <- voteWitnesses roundIndex j x (RoundWitnesses (store p) j) votes roundInfo ;;
    let '(votes', roundInfo', leave) := r in
    if (leave : bool) then ret (votes', roundInfo')
    else
      match n with
      | O => nofuel
      | Datatypes.S n' => voteLoop n' roundIndex (wrap64 (j + 1)) x votes' roundInfo'
      end
  else ret (votes, roundInfo).

(** [for _, x := range roundInfo.Witnesses()] *)
Fixpoint voteOnWitnesses (roundIndex : Z) (xs : list string)
    (votes : gmap (string * string) bool) (roundInfo : RoundInfo)
    : M (gmap (string * string) bool * RoundInfo) :=
  match xs with
  | [] => ret (votes, roundInfo)
  | x :: rest =>
      if IsDecided roundInfo x then voteOnWitnesses roundIndex rest votes roundInfo
      else
        r <- voteLoop budget roundIndex (wrap64 (roundIndex + 1)) x votes roundInfo ;;
        voteOnWitnesses roundIndex rest (fst r) (snd r)
  end.

(** [for pos, r := range p.getPendingRounds()] *)
Fixpoint decideFameRounds (rs : list pendingRound) (pos : Z)
    (votes : gmap (string * string) bool) (decidedRounds : gmap Z Z) : M (gmap Z Z) :=
  match rs with
  | [] => ret decidedRounds
  | r :: rest =>
      let roundIndex := pr_Index r in
      p <- gets id ;;
      roundInfo <- liftRes (GetRound (store p) roundIndex) ;;
      vr <- voteOnWitnesses roundIndex (Witnesses roundInfo) votes roundInfo ;;
      let '(votes', roundInfo') := vr in
      e <- storeWrite (fun s => SetRound s roundIndex roundInfo') ;;
      match e with
      | Some err => fail err
      | None =>
          decideFameRounds rest (pos + 1) votes'
            (if WitnessesDecided roundInfo' then <[roundIndex := pos]> decidedRounds
             else decidedRounds)
      end
  end.

Definition updatePendingRounds (decidedRounds : gmap Z Z) : M unit :=
  modify (fun p =>
    set_pendingRounds
      ((fun ur => match decidedRounds !! pr_Index ur with
                  | Some _ => mkPendingRound (pr_Index ur) true
                  | None => ur
                  end) <$> pendingRounds p) p).

(** DecideFame decides if witnesses are famous *)
Definition DecideFame : M unit :=
  p <- gets id ;;
  decidedRounds <- decideFameRounds (pendingRounds p) 0 ∅ ∅ ;;
  updatePendingRounds decidedRounds.

(** *** DecideRoundReceived *)

Inductive received : Type :=
  | NotReceived
  | Assigned (i : Z)
  | DeemedReceived.

(** The famous witnesses that see [x], in the order of [fws]. *)
Fixpoint seenBy (x : string) (fws : list string) : M (list string) :=
  match fws with
  | [] => ret []
  | w :: rest =>
      s <- seeM w x ;;
      tl <- seenBy x rest ;;
      ret (if (s : bool) then w :: tl else tl)
  end.

(** [for i := r + 1; i <= p.store.LastRound(); i++], from the current [i]. *)
Fixpoint receiveScan (n : nat) (x : string) (r i : Z) : M received :=
  p <- gets id ;;
  if i <=? LastRound (store p) then
    match GetRound (store p) i with
    | RErr err =>
        (* Can happen after a Reset/FastSync *)
        match lastConsensusRound p with
        | Some lcr => if r <? lcr then ret DeemedReceived else fail err
        | None => fail err
        end
    | ROk tr =>
        (* one round with undecided witnesses: break out of the loop *)
        if negb (WitnessesDecided tr) then ret NotReceived
        else
          let fws := FamousWitnesses tr in
          (* set of famous witnesses that see x *)
          s <- seenBy x fws ;;
          if bool_decide (length s = length fws) && bool_decide (0 < length s)%nat
          then
            ex <- liftRes (GetEvent (store p) x) ;;
            e1 <- storeWrite (fun st => SetEvent st (SetRoundReceived ex i)) ;;
            match e1 with
            | Some err => fail err
            | None =>
                e2 <- storeWrite (fun st => SetRound st i (SetConsensusEvent tr x)) ;;
                match e2 with
                | Some err => fail err
                | None => ret (Assigned i)
                end
            end
          else
            match n with
            | O => nofuel
            | Datatypes.S n' => receiveScan n' x r (wrap64 (i + 1))
            end
    end
  else ret NotReceived.

Definition roundM (x : string) : M Z :=
  callG (fun p => round (store p) (participants p) (superMajority p) budget x).

(** [for _, x := range undeterminedEvents]: the events still undetermined,
    in queue order. *)
Fixpoint decideReceivedLoop (xs : list string) (newUndeterminedEvents : list string)
    : M (list string) :=
  match xs with
  | [] => ret newUndeterminedEvents
  | x :: rest =>
      r <- roundM x ;;
      res <- receiveScan budget x r (wrap64 (r + 1)) ;;
      decideReceivedLoop rest
        (match res with
         | NotReceived => newUndeterminedEvents ++ [x]
         | _ => newUndeterminedEvents
         end)
  end.

(** DecideRoundReceived assigns a RoundReceived to undetermined events when
    they reach consensus *)
Definition DecideRoundReceived : M unit :=
  p <- gets id ;;
  newUndeterminedEvents <- decideReceivedLoop (undeterminedEvents p) [] ;;
  setUndeterminedEvents newUndeterminedEvents.

(** *** Frames *)

Definition lamportTimestampM (x : string) : M Z :=
  callG (fun p => lamportTimestamp (store p) budget x).

Definition createSelfParentRootEvent (ev : Event) : M RootEvent :=
  let sp := SelfParent ev in
  spLT <- lamportTimestampM sp ;;
  spRound <- roundM sp ;;
  p <- gets id ;;
  cid <- peerIdByPubKey (participants p) (Creator ev) ;;
  ret (mkRootEvent sp cid (wrap64 (Index ev - 1)) spLT spRound).

Definition createOtherParentRootEvent (ev : Event) : M RootEvent :=
  let op := OtherParent ev in
  p <- gets id ;;
  (* it might still be in the Root *)
  root <- liftRes (GetRoot (store p) (Creator ev)) ;;
  let compute : M RootEvent :=
    otherParent <- liftRes (GetEvent (store p) op) ;;
    opLT <- lamportTimestampM op ;;
    opRound <- roundM op ;;
    cid <- peerIdByPubKey (participants p) (Creator otherParent) ;;
    ret (mkRootEvent op cid (Index otherParent) opLT opRound) in
  match root_Others root !! Hex ev with
  | Some other => if decide (re_Hash other = op) then ret other else compute
  | None => compute
  end.

Definition createRoot (ev : Event) : M Root :=
  evRound <- roundM (Hex ev) ;;
  selfParentRootEvent <- createSelfParentRootEvent ev ;;
  if decide (OtherParent ev = "") then
    ret (mkRoot evRound selfParentRootEvent ∅)
  else
    opre <- createOtherParentRootEvent ev ;;
    ret (mkRoot evRound selfParentRootEvent {[ Hex ev := opre ]}).

(** [sort.Stable(ByLamportTimestamp(events))], as the insertion sort the
    library runs on short slices: each event moves left past the events it
    is [Less] than.  The prefix is kept reversed. *)
Fixpoint insertSorted (e : Event) (revPrefix : list Event) : option (list Event) :=
  match revPrefix with
  | [] => Some [e]
  | h :: t =>
      match lamportLess e h with
      | None => None
      | Some true => cons h <$> insertSorted e t
      | Some false => Some (e :: h :: t)
      end
  end.

Fixpoint sortRev (events : list Event) (revPrefix : list Event) : option (list Event) :=
  match events with
  | [] => Some revPrefix
  | e :: rest =>
      match insertSorted e revPrefix with
      | Some rp => sortRev rest rp
      | None => None
      end
  end.

Definition sortByLamportTimestamp (events : list Event) : option (list Event) :=
  reverse <$> sortRev events [].

Fixpoint getEvents (hashes : list string) : M (list Event) :=
  match hashes with
  | [] => ret []
  | eh :: rest =>
      p <- gets id ;;
      e <- liftRes (GetEvent (store p) eh) ;;
      tl <- getEvents rest ;;
      ret (e :: tl)
  end.

(** Each time we run into the first Event of a participant, we create a
    Root for it. *)
Fixpoint rootsOfEvents (events : list Event) (roots : gmap string Root)
    : M (gmap string Root) :=
  match events with
  | [] => ret roots
  | ev :: rest =>
      match roots !! Creator ev with
      | Some _ => rootsOfEvents rest roots
      | None =>
          root <- createRoot ev ;;
          rootsOfEvents rest (<[Creator ev := root]> roots)
      end
  end.

(** The value of a [Root] variable never assigned ([GetRoot]'s error is
    dropped); its self-parent pointer is [nil] in Go. *)
Definition zeroRoot : Root := mkRoot 0 (mkRootEvent "" 0 0 0 0) ∅.

(** Every participant needs a Root in the Frame. *)
Fixpoint rootsOfPeers (peers : list string) (roots : gmap string Root)
    : M (gmap string Root) :=
  match peers with
  | [] => ret roots
  | peer :: rest =>
      match roots !! peer with
      | Some _ => rootsOfPeers rest roots
      | None =>
          p <- gets id ;;
          last <- liftRes (LastConsensusEventFrom (store p) peer) ;;
          let '(lastConsensusEventHash, isRoot) := last in
          root <-
            (if (isRoot : bool) then
               ret (match GetRoot (store p) peer with ROk r => r | RErr _ => zeroRoot end)
             else
               lastConsensusEvent <- liftRes (GetEvent (store p) lastConsensusEventHash) ;;
               createRoot lastConsensusEvent) ;;
          rootsOfPeers rest (<[peer := root]> roots)
      end
  end.

(** Record in the creator's Root the other-parents that are outside of the
    Frame. *)
Fixpoint othersOutsideFrame (events : list Event) (treated : gmap string bool)
    (roots : gmap string Root) : M (gmap string Root) :=
  match events with
  | [] => ret roots
  | ev :: rest =>
      let treated := <[Hex ev := true]> treated in
      if decide (OtherParent ev = "") then othersOutsideFrame rest treated roots
      else
        match treated !! OtherParent ev with
        | Some true => othersOutsideFrame rest treated roots
        | _ =>
            root <- liftOpt (roots !! Creator ev) ;;
            if decide (SelfParent ev = re_Hash (root_SelfParent root))
            then othersOutsideFrame rest treated roots
            else
              other <- createOtherParentRootEvent ev ;;
              let root' := mkRoot (root_NextRound root) (root_SelfParent root)
                                  (<[Hex ev := other]> (root_Others root)) in
              othersOutsideFrame rest treated (<[Creator ev := root']> roots)
        end
  end.

(** GetFrame computes the Frame corresponding to a RoundReceived. *)
Definition GetFrame (roundReceived : Z) : M Frame :=
  p <- gets id ;;
  let compute : M Frame :=
    round <- liftRes (GetRound (store p) roundReceived) ;;
    events <- getEvents (ConsensusEvents round) ;;
    events <- liftOpt (sortByLamportTimestamp events) ;;
    roots <- rootsOfEvents events ∅ ;;
    roots <- rootsOfPeers (ToPubKeySlice (participants p)) roots ;;
    roots <- othersOutsideFrame events ∅ roots ;;
    let orderedRoots :=
      (fun peer => default zeroRoot (roots !! peer_PubKeyHex peer))
        <$> ToPeerSlice (participants p) in
    let res := mkFrame roundReceived orderedRoots events in
    e <- storeWrite (fun s => SetFrame s res) ;;
    match e with
    | Some err => fail err
    | None => ret res
    end in
  (* Try to get it from the Store first *)
  match StoreGetFrame (store p) roundReceived with
  | ROk frame => ret frame
  | RErr err => if isKeyNotFound err then compute else fail err
  end.

(** Modelled from the spec: [NewBlockFromFrame] (its declaration is not
    among the sources): the block of a frame carries the frame's round
    received, the frame hash and the transactions of the frame's events in
    order, and no signature yet. *)
Definition NewBlockFromFrame (blockIndex : Z) (frame : Frame) : res Block :=
  match frameHash frame with
  | RErr err => RErr err
  | ROk h =>
      ROk (mkBlock blockIndex (frame_Round frame) h
                   (concat (Transactions <$> frame_Events frame)) ∅)
  end.

(** *** ProcessDecidedRounds *)

(** [for _, e := range frame.Events] *)
Fixpoint commitFrameEvents (events : list Event) : M unit :=
  match events with
  | [] => ret tt
  | ev :: rest =>
      e <- storeWrite (fun s => AddConsensusEvent s ev) ;;
      match e with
      | Some err => fail err
      | None =>
          _ <- AddConsensusTransactions (Z.of_nat (length (Transactions ev))) ;;
          _ <- (if IsLoaded ev then decreasePendingLoadedEvents else ret tt) ;;
          commitFrameEvents rest
      end
  end.

Definition sendBlock (block : Block) : M unit :=
  modify (fun p =>
    match commitCh p with
    | Some sent => set_commitCh (Some (sent ++ [block])%list) p
    | None => p
    end).

(** How one turn of the loop over the pending rounds ends. *)
Inductive roundStep : Type :=
  | StopLoop         (* [break]: the round is not decided *)
  | SkipRound        (* [continue]: the round is the last consensus round *)
  | RoundProcessed.  (* the end of the body: [processedIndex++] *)

Definition processDecidedRound (r : pendingRound) : M roundStep :=
  if negb (pr_Decided r) then ret StopLoop
  else
    p <- gets id ;;
    if bool_decide (lastConsensusRound p = Some (pr_Index r)) then ret SkipRound
    else
      frame <- wrapErr "getting Frame: " (GetFrame (pr_Index r)) ;;
      p <- gets id ;;
      _ <- liftRes (GetRound (store p) (pr_Index r)) ;;
      _ <- (if (0 <? Z.of_nat (length (frame_Events frame))) then
              _ <- commitFrameEvents (frame_Events frame) ;;
              p <- gets id ;;
              let lastBlockIndex := LastBlockIndex (store p) in
              block <- liftRes (NewBlockFromFrame (wrap64 (lastBlockIndex + 1)) frame) ;;
              if 0 <? Z.of_nat (length (blk_Transactions block)) then
                e <- storeWrite (fun s => SetBlock s block) ;;
                match e with
                | Some err => fail err
                | None => sendBlock block
                end
              else ret tt
            else ret tt) ;;
      p <- gets id ;;
      _ <- (match lastConsensusRound p with
            | None => setLastConsensusRound (pr_Index r)
            | Some lcr =>
                if lcr <? pr_Index r then setLastConsensusRound (pr_Index r) else ret tt
            end) ;;
      ret RoundProcessed.

(** The loop, with the counter [processedIndex] of the deferred function
    as it stands when the loop is left, normally or not. *)
Fixpoint processRounds (rs : list pendingRound) (processedIndex : nat) (p : Poset)
    : outcome unit * nat * Poset :=
  match rs with
  | [] => (Ok tt, processedIndex, p)
  | r :: rest =>
      match processDecidedRound r p with
      | (Ok StopLoop, p') => (Ok tt, processedIndex, p')
      | (Ok SkipRound, p') => processRounds rest processedIndex p'
      | (Ok RoundProcessed, p') => processRounds rest (Datatypes.S processedIndex) p'
      | (Err e, p') => (Err e, processedIndex, p')
      | (Panic, p') => (Panic, processedIndex, p')
      | (NoFuel, p') => (NoFuel, processedIndex, p')
      end
  end.

(** ProcessDecidedRounds takes Rounds whose witnesses are decided, computes
    the corresponding Frames, maps them into Blocks, and commits the Blocks
    via the commit channel *)
Definition ProcessDecidedRounds : M unit :=
  fun p =>
    let '(o, processedIndex, p') := processRounds (pendingRounds p) 0 p in
    (* Defer removing processed Rounds from the pending rounds Queue *)
    (o, set_pendingRounds (drop processedIndex (pendingRounds p')) p').

(** *** ProcessSigPool *)

(** Remove processed Signatures from signatures pool *)
Definition removeProcessedSignatures (processedSignatures : gmap Z bool) : M unit :=
  modify (fun p =>
    set_sigPool
      (filter (fun bs => processedSignatures !! bs_Index bs = None) (sigPool p)) p).

(** Modelled from the spec: [Block.SetSignature] (its declaration is not
    among the sources) files the signature under its validator's
    hexadecimal key. *)
Definition SetSignature (block : Block) (bs : BlockSignature) : Block :=
  mkBlock (blk_Index block) (blk_RoundReceived block) (blk_FrameHash block)
          (blk_Transactions block)
          (<[sprintf0xX (bs_Validator bs) := bs_Signature bs]> (blk_Signatures block)).

(** What the loop of [ProcessSigPool] does with one signature. *)
Inductive sigStep : Type :=
  | UnknownValidator
  | BelowAnchor
  | BlockNotFound
  | VerifyFailed (err : error)
  | InvalidSignature
  | Attached.

Definition processSignature (bs : BlockSignature) : M sigStep :=
  p <- gets id ;;
  (* check if validator belongs to list of participants *)
  let validatorHex := sprintf0xX (bs_Validator bs) in
  match peers_ByPubKey (participants p) !! validatorHex with
  | None => ret UnknownValidator
  | Some _ =>
      (* only check if bs is greater than anchor block, otherwise simply remove *)
      if match anchorBlock p with
         | None => true
         | Some a => a <? bs_Index bs
         end
      then
        match GetBlock (store p) (bs_Index bs) with
        | RErr _ => ret BlockNotFound
        | ROk block =>
            match blockVerify block bs with
            | RErr err => ret (VerifyFailed err)
            | ROk false => ret InvalidSignature
            | ROk true =>
                let block := SetSignature block bs in
                _ <- storeWrite (fun s => SetBlock s block) ;;
                p <- gets id ;;
                _ <- (if (trustCount p <? Z.of_nat (size (blk_Signatures block)))
                         && match anchorBlock p with
                            | None => true
                            | Some a => a <? blk_Index block
                            end
                      then SetAnchorBlock (blk_Index block)
                      else ret tt) ;;
                ret Attached
            end
        end
      else ret BelowAnchor
  end.

(** [for i, bs := range sigPool]: the map of processed positions and the
    error the loop returns with, if any. *)
Fixpoint processSigLoop (pool : list BlockSignature) (i : Z)
    (processedSignatures : gmap Z bool) : M (gmap Z bool * option error) :=
  match pool with
  | [] => ret (processedSignatures, None)
  | bs :: rest =>
      step <- processSignature bs ;;
      match step with
      | UnknownValidator | BlockNotFound | InvalidSignature =>
          processSigLoop rest (i + 1) processedSignatures
      | VerifyFailed err => ret (processedSignatures, Some err)
      | BelowAnchor | Attached =>
          processSigLoop rest (i + 1) (<[i := true]> processedSignatures)
      end
  end.

(** ProcessSigPool runs through the SignaturePool and tries to map a
    Signature to a known Block. If a Signature is found to be valid for a
    known Block, it is appended to the block and removed from the
    SignaturePool *)
Definition ProcessSigPool : M unit :=
  p <- gets id ;;
  r <- processSigLoop (sigPool p) 0 ∅ ;;
  _ <- removeProcessedSignatures (fst r) ;;
  match snd r with
  | Some err => fail err
  | None => ret tt
  end.

(** *** Reset *)

(** [for id, root := range frame.Roots { p := participants[id]; ... }] *)
Fixpoint rootMapOf (roots : list Root) (peers : list Peer) (id : nat)
    (rootMap : gmap string Root) : option (gmap string Root) :=
  match roots with
  | [] => Some rootMap
  | root :: rest =>
      match peers !! id with
      | None => None
      | Some peer => rootMapOf rest peers (Datatypes.S id) (<[peer_PubKeyHex peer := root]> rootMap)
      end
  end.

Fixpoint insertFrameEvents (events : list Event) : M unit :=
  match events with
  | [] => ret tt
  | ev :: rest =>
      _ <- InsertEvent ev false ;;
      insertFrameEvents rest
  end.

(** Reset clears the Poset and resets it from a new base. *)
Definition Reset (block : Block) (frame : Frame) : M unit :=
  (* Clear all state *)
  _ <- clearLastConsensusRound ;;
  _ <- clearFirstConsensusRound ;;
  _ <- clearAnchorBlock ;;
  _ <- setUndeterminedEvents [] ;;
  _ <- clearPendingRounds ;;
  _ <- clearPendingLoadedEvents ;;
  _ <- clearTopologicalIndex ;;
  p <- gets id ;;
  let cacheSize := CacheSize (store p) in
  ancestorCache <- liftOpt (newCache cacheSize) ;;
  selfAncestorCache <- liftOpt (newCache cacheSize) ;;
  stronglySeeCache <- liftOpt (newCache cacheSize) ;;
  roundCache <- liftOpt (newCache cacheSize) ;;
  _ <- modify (fun p =>
         set_caches (set_roundCache roundCache
                    (set_stronglySeeCache stronglySeeCache
                    (set_selfAncestorCache selfAncestorCache
                    (set_ancestorCache ancestorCache (caches p))))) p) ;;
  (* Initialize new Roots *)
  rootMap <- liftOpt (rootMapOf (frame_Roots frame) (ToPeerSlice (participants p)) 0 ∅) ;;
  e <- storeWrite (fun s => StoreReset s rootMap) ;;
  match e with
  | Some err => fail err
  | None =>
      (* Insert Block *)
      e <- storeWrite (fun s => SetBlock s block) ;;
      match e with
      | Some err => fail err
      | None =>
          _ <- setLastConsensusRound (blk_RoundReceived block) ;;
          (* Insert Frame Events *)
          insertFrameEvents (frame_Events frame)
      end
  end.

End Engine.

Arguments Poset : clear implicits.
Arguments M : clear implicits.


(** ** An in-memory store and a toy signature scheme

    Concrete instances of the two interfaces, used to run the engine on
    explicit inputs. *)

(** Modelled from the spec: the Store (its implementations are not among
    the sources), after section 4.1: events by hash, the last event of
    each creator, roots by participant and re-indexed by self-parent hash,
    rounds, blocks, frames and the consensus events.  [KeyNotFound] is the
    error of every failed lookup. *)
Record MemStore : Type := mkMemStore {
  ms_cacheSize : Z;
  ms_events : gmap string Event;
  ms_lastFrom : gmap string string;
  ms_roots : gmap string Root;
  ms_rounds : gmap Z RoundInfo;
  ms_lastRound : Z;
  ms_blocks : gmap Z Block;
  ms_lastBlock : Z;
  ms_frames : gmap Z Frame;
  ms_consensus : list string;
  ms_lastConsensusFrom : gmap string string }.

Definition lookupOr {K V} `{Countable K} (m : gmap K V) (k : K) : res V :=
  match m !! k with Some v => ROk v | None => RErr KeyNotFound end.

Section MemStoreOps.
Context `{Lib}.

Definition ms_SetEvent (s : MemStore) (e : Event) : MemStore * option error :=
  (mkMemStore (ms_cacheSize s) (<[Hex e := e]> (ms_events s))
     (<[Creator e := Hex e]> (ms_lastFrom s)) (ms_roots s) (ms_rounds s) (ms_lastRound s)
     (ms_blocks s) (ms_lastBlock s) (ms_frames s) (ms_consensus s)
     (ms_lastConsensusFrom s), None).

Definition ms_RootsBySelfParent (s : MemStore) : gmap string Root * option error :=
  (list_to_map ((fun kv => (re_Hash (root_SelfParent (snd kv)), snd kv))
                  <$> map_to_list (ms_roots s)), None).

Definition ms_lastOf (last : gmap string string) (s : MemStore) (pk : string)
    : res (string * bool) :=
  match last !! pk with
  | Some h => ROk (h, false)
  | None =>
      match ms_roots s !! pk with
      | Some r => ROk (re_Hash (root_SelfParent r), true)
      | None => RErr KeyNotFound
      end
  end.

Definition ms_LastEventFrom (s : MemStore) (pk : string) : (string * bool) * option error :=
  match ms_lastOf (ms_lastFrom s) s pk with
  | ROk r => (r, None)
  | RErr e => (("", false), Some e)
  end.

Definition ms_SetRound (s : MemStore) (r : Z) (ri : RoundInfo) : MemStore * option error :=
  (mkMemStore (ms_cacheSize s) (ms_events s) (ms_lastFrom s) (ms_roots s)
     (<[r := ri]> (ms_rounds s)) (Z.max r (ms_lastRound s))
     (ms_blocks s) (ms_lastBlock s) (ms_frames s) (ms_consensus s)
     (ms_lastConsensusFrom s), None).

Definition ms_RoundWitnesses (s : MemStore) (r : Z) : list string :=
  match ms_rounds s !! r with Some ri => Witnesses ri | None => [] end.

Definition ms_SetBlock (s : MemStore) (b : Block) : MemStore * option error :=
  (mkMemStore (ms_cacheSize s) (ms_events s) (ms_lastFrom s) (ms_roots s)
     (ms_rounds s) (ms_lastRound s)
     (<[blk_Index b := b]> (ms_blocks s)) (Z.max (blk_Index b) (ms_lastBlock s))
     (ms_frames s) (ms_consensus s) (ms_lastConsensusFrom s), None).

Definition ms_SetFrame (s : MemStore) (f : Frame) : MemStore * option error :=
  (mkMemStore (ms_cacheSize s) (ms_events s) (ms_lastFrom s) (ms_roots s)
     (ms_rounds s) (ms_lastRound s) (ms_blocks s) (ms_lastBlock s)
     (<[frame_Round f := f]> (ms_frames s)) (ms_consensus s)
     (ms_lastConsensusFrom s), None).

Definition ms_AddConsensusEvent (s : MemStore) (e : Event) : MemStore * option error :=
  (mkMemStore (ms_cacheSize s) (ms_events s) (ms_lastFrom s) (ms_roots s)
     (ms_rounds s) (ms_lastRound s) (ms_blocks s) (ms_lastBlock s)
     (ms_frames s) (ms_consensus s ++ [Hex e])%list
     (<[Creator e := Hex e]> (ms_lastConsensusFrom s)), None).

Definition ms_Reset (s : MemStore) (roots : gmap string Root) : MemStore * option error :=
  (mkMemStore (ms_cacheSize s) ∅ ∅ roots ∅ (-1) ∅ (-1) ∅ [] ∅, None).

#[global] Instance MemStore_Store : Store MemStore := {
  CacheSize := ms_cacheSize;
  GetEvent s x := lookupOr (ms_events s) x;
  SetEvent := ms_SetEvent;
  RootsBySelfParent := ms_RootsBySelfParent;
  GetRoot s pk := lookupOr (ms_roots s) pk;
  LastEventFrom := ms_LastEventFrom;
  LastConsensusEventFrom s pk := ms_lastOf (ms_lastConsensusFrom s) s pk;
  GetRound s r := lookupOr (ms_rounds s) r;
  SetRound := ms_SetRound;
  RoundWitnesses := ms_RoundWitnesses;
  LastRound := ms_lastRound;
  GetBlock s i := lookupOr (ms_blocks s) i;
  SetBlock := ms_SetBlock;
  LastBlockIndex := ms_lastBlock;
  StoreGetFrame s r := lookupOr (ms_frames s) r;
  SetFrame := ms_SetFrame;
  AddConsensusEvent := ms_AddConsensusEvent;
  StoreReset := ms_Reset }.
End MemStoreOps.

(** A toy scheme: a signature is a non-empty string, its R component is
    its length, and it verifies when R is 1.  Bodies are "hashed" to their
    creator bytes; flag tables decode to the empty table. *)
#[global] Instance ToyLib : Lib := {
  PublicKey := list Byte.byte;
  ToECDSAPub := id;
  SHA256 := id;
  DecodeSignature s :=
    if decide (s = "") then ((None, None), Some (Errorf "wrong number of values in signature"))
    else ((Some (Z.of_nat (String.length s)), Some 0), None);
  cryptoVerify _ _ r s :=
    match r, s with
    | Some r, Some _ => Some (r =? 1)
    | _, _ => None
    end;
  marshalBody b := ROk (body_Creator b);
  unmarshalFlagTable _ := (∅, None);
  blockVerify _ bs := ROk (bool_decide (bs_Signature bs = "v"));
  frameHash _ := ROk [] }.

(** Three participants and their base roots, as at the start of a poset. *)
Definition peerA : Peer := mkPeer 0 "a:1" "0x0A".
Definition peerB : Peer := mkPeer 1 "b:1" "0x0B".
Definition peerC : Peer := mkPeer 2 "c:1" "0x0C".

Definition demoPeers : Peers :=
  mkPeers (list_to_map [(0, peerA); (1, peerB); (2, peerC)])
          (list_to_map [("0x0A", peerA); ("0x0B", peerB); ("0x0C", peerC)])
          [peerA; peerB; peerC].

(** [NewBaseRootEvent] and [NewBaseRoot] *)
Definition NewBaseRootEvent (creatorID : Z) (hash : string) : RootEvent :=
  mkRootEvent hash creatorID (-1) (-1) (-1).

Definition NewBaseRoot (creatorID : Z) (hash : string) : Root :=
  mkRoot 0 (NewBaseRootEvent creatorID hash) ∅.

Definition demoRoots : gmap string Root :=
  list_to_map [("0x0A", NewBaseRoot 0 "Root0"); ("0x0B", NewBaseRoot 1 "Root1");
               ("0x0C", NewBaseRoot 2 "Root2")].

Definition demoStore : MemStore :=
  mkMemStore 10 ∅ ∅ demoRoots ∅ (-1) ∅ (-1) ∅ [] ∅.

(** An event of [creator] with the given parents, index, payload and
    signature; [name] is its hash in hexadecimal. *)
Definition demoEvent (name : string) (creator : list Byte.byte) (parents : list string)
    (index : Z) (txs : option (list (list Byte.byte))) (sig : string) : Event :=
  mkEvent (mkEventBody txs [] parents creator index [] (-1) (-1) (-1) 0)
          sig 0 None None None "" [] name [] [].

(** ** What the memoised predicates compute

    The caches only save work: a cached answer is the answer the body of
    the function gives when it calls itself instead of the cache.  The
    relations below are that cache-free reading of [lamportTimestamp] and
    [ancestor], one constructor per path through the source. *)

Section Semantics.
Context {S : Type} `{Store S}.
Variable st : S.
Variable participants : Peers.

(** The timestamp recorded in the creator's Root for the other-parent of
    [x], or [MinInt64] when the Root does not hold it. *)
Definition otherRecorded (x : string) (ex : Event) (root : Root) : Z :=
  match root_Others root !! x with
  | Some other =>
      if decide (re_Hash other = OtherParent ex) then re_LamportTimestamp other
      else MinInt64
  | None => MinInt64
  end.

Inductive LT : string -> Z -> Prop :=
  | LT_root x r :
      fst (RootsBySelfParent st) !! x = Some r ->
      LT x (re_LamportTimestamp (root_SelfParent r))
  | LT_event x ex root plt opLT :
      fst (RootsBySelfParent st) !! x = None ->
      GetEvent st x = ROk ex ->
      GetRoot st (Creator ex) = ROk root ->
      (SelfParent ex = re_Hash (root_SelfParent root) ->
       plt = re_LamportTimestamp (root_SelfParent root)) ->
      (SelfParent ex <> re_Hash (root_SelfParent root) -> LT (SelfParent ex) plt) ->
      (OtherParent ex <> "" -> (exists eo, GetEvent st (OtherParent ex) = ROk eo) ->
       LT (OtherParent ex) opLT) ->
      (OtherParent ex <> "" -> (exists e, GetEvent st (OtherParent ex) = RErr e) ->
       opLT = otherRecorded x ex root) ->
      LT x (wrap64 ((if decide (OtherParent ex = "") then plt else Z.max plt opLT) + 1)).

(** Neither hash is empty. *)
Definition live (x y : string) : Prop :=
  ~ (String.length x = 0%nat \/ String.length y = 0%nat).

(** [x] is a stored event that is not older than [y]: the checks of
    [ancestor2] before it looks at [y]. *)
Definition notOlder (x y : string) (ex : Event) : Prop :=
  x <> y /\ GetEvent st x = ROk ex /\
  exists xlt ylt, LT x xlt /\ LT y ylt /\ wrap64 (ylt - xlt) <= 0.

(** [y] is known, as an event or as a root, and its creator is not the
    creator of [ex]: [ancestor2] goes on to the parents of [ex]. *)
Definition otherCreator (y : string) (ex : Event) : Prop :=
  (exists ey, GetEvent st y = ROk ey /\ Creator ex <> Creator ey) \/
  (exists err roots root peer,
      GetEvent st y = RErr err /\ RootsBySelfParent st = (roots, None) /\
      roots !! y = Some root /\
      peers_ById participants !! re_CreatorID (root_SelfParent root) = Some peer /\
      Creator ex <> peer_PubKeyHex peer).

Inductive Anc : string -> string -> bool -> Prop :=
  | Anc_empty x y :
      ~ live x y -> Anc x y false
  | Anc_refl x :
      live x x -> Anc x x true
  | Anc_offStore x y err roots :
      live x y -> x <> y ->
      GetEvent st x = RErr err ->
      RootsBySelfParent st = (roots, None) ->
      Anc x y (match firstOther (map_to_list roots) y with
               | Some other => bool_decide (re_Hash other = x)
               | None => false
               end)
  | Anc_older x y ex xlt ylt :
      live x y -> x <> y ->
      GetEvent st x = ROk ex ->
      LT x xlt -> LT y ylt -> 0 < wrap64 (ylt - xlt) ->
      Anc x y false
  | Anc_sameCreator x y ex ey :
      live x y -> notOlder x y ex ->
      GetEvent st y = ROk ey ->
      Creator ex = Creator ey ->
      Anc x y (Index ey <=? Index ex)
  | Anc_unknown x y ex err roots :
      live x y -> notOlder x y ex ->
      GetEvent st y = RErr err ->
      RootsBySelfParent st = (roots, None) ->
      roots !! y = None ->
      Anc x y false
  | Anc_rootCreator x y ex err roots root peer :
      live x y -> notOlder x y ex ->
      GetEvent st y = RErr err ->
      RootsBySelfParent st = (roots, None) ->
      roots !! y = Some root ->
      peers_ById participants !! re_CreatorID (root_SelfParent root) = Some peer ->
      Creator ex = peer_PubKeyHex peer ->
      Anc x y (re_Index (root_SelfParent root) <=? Index ex)
  | Anc_selfParent x y ex :
      live x y -> notOlder x y ex -> otherCreator y ex ->
      Anc (SelfParent ex) y true ->
      Anc x y true
  | Anc_otherParent x y ex b :
      live x y -> notOlder x y ex -> otherCreator y ex ->
      Anc (SelfParent ex) y false ->
      Anc (OtherParent ex) y b ->
      Anc x y b.

(** Every cached timestamp and every cached ancestry answer is the one the
    cache-free computation gives. *)
Definition tsCoherent (c : Caches) : Prop :=
  forall x t, lru_peek (timestampCache c) x = Some t -> LT x t.

Definition ancCoherent (c : Caches) : Prop :=
  forall x y b, lru_peek (ancestorCache c) (x, y) = Some b -> Anc x y b.

Definition coherent (c : Caches) : Prop := tsCoherent c /\ ancCoherent c.

(** The store's two views of the roots agree: the Root of a participant
    is found under its self-parent hash. *)
Definition rootsIndexed : Prop :=
  forall pk root,
    GetRoot st pk = ROk root ->
    fst (RootsBySelfParent st) !! re_Hash (root_SelfParent root) = Some root.

(** *** Round received, declaratively *)

(** Every famous witness of the round sees [x], and there is one. *)
Definition AllSee (tr : RoundInfo) (x : string) : Prop :=
  FamousWitnesses tr <> [] /\ forall w, w ∈ FamousWitnesses tr -> Anc w x true.

Definition NotAllSee (tr : RoundInfo) (x : string) : Prop :=
  FamousWitnesses tr = [] \/ exists w, w ∈ FamousWitnesses tr /\ Anc w x false.

(** [i] is the first round after [r] in which every famous witness sees
    [x], all rounds from [r + 1] to [i] being stored and decided. *)
Definition FirstReceiving (x : string) (r i : Z) : Prop :=
  r < i <= LastRound st /\
  (forall j, r < j < i ->
     exists tr, GetRound st j = ROk tr /\ WitnessesDecided tr = true /\ NotAllSee tr x) /\
  (exists tr, GetRound st i = ROk tr /\ WitnessesDecided tr = true /\ AllSee tr x).
End Semantics.

(** No key of the ancestor and self-ancestor caches has an empty
    component: both functions return before they cache when a hash is
    empty. *)
Definition noEmptyKeys (c : Caches) : Prop :=
  (forall x y b, lru_peek (ancestorCache c) (x, y) = Some b -> x <> "" /\ y <> "") /\
  (forall x y b, lru_peek (selfAncestorCache c) (x, y) = Some b -> x <> "" /\ y <> "").

(** The order on the last consensus round: unset, then by value. *)
Definition lcrLe (a b : option Z) : Prop :=
  match a, b with
  | None, _ => True
  | Some _, None => False
  | Some x, Some y => x <= y
  end.

Section SigPoolTrace.
Context `{Lib} {S : Type} `{Store S}.

(** What [ProcessSigPool] does with each signature of the pool, in order,
    up to and including a failed verification, where it returns. *)
Fixpoint sigSteps (pool : list BlockSignature) (p : Poset S) : list sigStep :=
  match pool with
  | [] => []
  | bs :: rest =>
      match processSignature bs p with
      | (Ok (VerifyFailed err), _) => [VerifyFailed err]
      | (Ok step, p') => step :: sigSteps rest p'
      | (_, _) => []
      end
  end.

(** The state in which the loop of [ProcessSigPool] processes the
    signature at position [i], when it gets there. *)
Fixpoint sigStateAt (pool : list BlockSignature) (p : Poset S) (i : nat)
    : option (Poset S) :=
  match pool, i with
  | [], _ => None
  | _ :: _, O => Some p
  | bs :: rest, Datatypes.S i' =>
      match processSignature bs p with
      | (Ok (VerifyFailed _), _) => None
      | (Ok _, p') => sigStateAt rest p' i'
      | (_, _) => None
      end
  end.

(** The signature is marked as processed. *)
Definition marked (step : option sigStep) : Prop :=
  step = Some BelowAnchor \/ step = Some Attached.

(** Pool positions and block indices coincide: the case in which the map
    of processed positions can be read by block index. *)
Definition indexedByPosition (pool : list BlockSignature) : Prop :=
  forall (i : nat) bs, pool !! i = Some bs -> bs_Index bs = Z.of_nat i.
End SigPoolTrace.

(** Two events of index 1 carrying one internal transaction and no payload
    transaction: the first with an allocated, empty payload slice, the
    second with a [nil] one. *)
Definition demoInternalTx : InternalTransaction :=
  mkInternalTransaction PEER_ADD (mkPeer 7 "d:1" "0x0D").

Definition emptyPayloadEvent : Event :=
  mkEvent (mkEventBody (Some []) [demoInternalTx] ["e0"] [] 1 [] (-1) (-1) (-1) 0)
          "v" 0 None None None "" [] "e1" [] [].

Definition nilPayloadEvent : Event :=
  mkEvent (mkEventBody None [demoInternalTx] ["e0"] [] 1 [] (-1) (-1) (-1) 0)
          "v" 0 None None None "" [] "e1" [] [].

(** A fresh poset over the demo store, as [NewPoset] builds it. *)
Definition demoCaches : Caches :=
  mkCaches (mkLru 10 []) (mkLru 10 []) (mkLru 10 []) (mkLru 10 []) (mkLru 10 []).

Definition demoPoset : Poset MemStore :=
  mkPoset demoPeers demoStore None 3 1 None [] [] None None None [] 0 0 0 demoCaches.

(** The first event of A, signed, and the same event with a tampered
    signature. *)
Definition eventA0 : Event :=
  demoEvent "0xE0" [Byte.x0a] ["Root0"; ""] 0 (Some []) "v".

Definition tamperedA0 : Event :=
  demoEvent "0xE0" [Byte.x0a] ["Root0"; ""] 0 (Some []) "tampered".

(** A Reset scenario.  The engine has inserted the first event of A and
    computed its Lamport timestamp, 0, which is now cached.  It is then
    reset to a frame in which that event is A's root self-parent, recorded
    with timestamp 7. *)
Definition beforeReset : Poset MemStore :=
  snd (lamportTimestampM 5 "0xE0" (snd (InsertEvent eventA0 false demoPoset))).

Definition resetFrame : Frame :=
  mkFrame 1
    [mkRoot 1 (mkRootEvent "0xE0" 0 0 7 0) ∅; NewBaseRoot 1 "Root1"; NewBaseRoot 2 "Root2"]
    [].

Definition resetBlock : Block := mkBlock 0 1 [] [] ∅.

Definition afterReset : Poset MemStore := snd (Reset resetBlock resetFrame beforeReset).

(** Signature pools.  The demo store holds block 0; A is a participant
    and its signature verifies, the validator 0x0D is unknown. *)
Definition blockStore : MemStore := fst (SetBlock demoStore resetBlock).

Definition sigByA (index : Z) : BlockSignature := mkBlockSignature [Byte.x0a] index "v".
Definition sigByD (index : Z) : BlockSignature := mkBlockSignature [Byte.x0d] index "v".

Definition withPool (pool : list BlockSignature) : Poset MemStore :=
  set_sigPool pool (set_store blockStore demoPoset).

(** The store also holds block 1, and the pool holds one entry: A's
    signature of block 1. *)
Definition laterBlock : Block := mkBlock 1 2 [] [] ∅.

Definition laterBlockPoset : Poset MemStore :=
  set_sigPool [sigByA 1] (set_store (fst (SetBlock blockStore laterBlock)) demoPoset).

(** The demo store after the first event of A; and the same with A's Root
    recorded at the largest timestamp an [int64] holds. *)
Definition storeWithA0 : MemStore := fst (SetEvent demoStore eventA0).

Definition saturatedRoots : gmap string Root :=
  <["0x0A" := mkRoot 0 (mkRootEvent "Root0" 0 (-1) MaxInt64 (-1)) ∅]> demoRoots.

Definition saturatedStore : MemStore :=
  fst (SetEvent (mkMemStore 10 ∅ ∅ saturatedRoots ∅ (-1) ∅ (-1) ∅ [] ∅) eventA0).

(** Scenario 1 of the specification: the events [e0], [e1], [e2] of A, B
    and C, then [e10] (B, on [e1] and [e0]), [e21] (C, on [e2] and [e10]),
    [e02] (A, on [e0] and [e21]) and [f1] (B, on [e10] and [e02]),
    inserted in that order in a fresh poset. *)
Definition scenarioEvents : list Event :=
  [ demoEvent "0xE0" [Byte.x0a] ["Root0"; ""] 0 (Some []) "v";
    demoEvent "0xE1" [Byte.x0b] ["Root1"; ""] 0 (Some []) "v";
    demoEvent "0xE2" [Byte.x0c] ["Root2"; ""] 0 (Some []) "v";
    demoEvent "0xE10" [Byte.x0b] ["0xE1"; "0xE0"] 1 (Some []) "v";
    demoEvent "0xE21" [Byte.x0c] ["0xE2"; "0xE10"] 1 (Some []) "v";
    demoEvent "0xE02" [Byte.x0a] ["0xE0"; "0xE21"] 1 (Some []) "v";
    demoEvent "0xF1" [Byte.x0b] ["0xE10"; "0xE02"] 2 (Some []) "v" ].

Definition scenarioPoset : Poset MemStore :=
  snd (insertFrameEvents scenarioEvents demoPoset).

Definition scenarioStore : MemStore := store scenarioPoset.

(** A rank of the hashes that decreases from every stored event to its
    parents: the stored graph has no cycle. *)
Definition ranked {S : Type} `{Store S} (st : S) (rk : string -> nat) : Prop :=
  forall x ex, GetEvent st x = ROk ex ->
    (rk (SelfParent ex) < rk x)%nat /\ (rk (OtherParent ex) < rk x)%nat.

(** The rank given by a list of hashes, children first: the position
    counted from the end, from 1; 0 for a hash that is not listed. *)
Fixpoint listRank (order : list string) (h : string) : nat :=
  match order with
  | [] => 0%nat
  | h' :: rest =>
      let r := listRank rest h in
      if decide (h = h') then Datatypes.S (length rest) else r
  end.

(** Scenario 1, later: round 1 is stored and decided, its only famous
    witness being [f1]; the event [e0], of round 0, is still undetermined. *)
Definition receivedStore : MemStore :=
  fst (ms_SetRound scenarioStore 1
         (mkRoundInfo {[ "0xF1" := mkRoundEvent true Famous ]} [] false)).

Definition receivedPoset : Poset MemStore :=
  mkPoset demoPeers receivedStore None 3 1 None ["0xE0"] [] None None None [] 0 0 0
          demoCaches.

(** The hashes of scenario 1, children first. *)
Definition scenarioOrder : list string :=
  ["0xF1"; "0xE02"; "0xE21"; "0xE10"; "0xE2"; "0xE1"; "0xE0"].

(** ** Properties of computations *)

(** The computation leaves the observation [f] of the state unchanged,
    however it ends. *)
Definition keeps {St B : Type} (f : St -> B) {A} (m : ST St A) : Prop :=
  forall s, f (snd (m s)) = f s.

(** The state the computation ends in is related to the one it starts
    from, however it ends. *)
Definition moves {St : Type} (R : St -> St -> Prop) {A} (m : ST St A) : Prop :=
  forall s, R s (snd (m s)).

(** From a state satisfying the invariant [I], the computation ends in a
    state satisfying [I], and a value it returns satisfies [R]. *)
Definition sound {St : Type} (I : St -> Prop) {A} (m : ST St A) (R : A -> Prop) : Prop :=
  forall s, I s -> I (snd (m s)) /\ forall a, fst (m s) = Ok a -> R a.

(** The computation preserves the invariant, however it ends. *)
Definition preserves {St : Type} (I : St -> Prop) {A} (m : ST St A) : Prop :=
  sound I m (fun _ => True).

(** The computation does not stop for want of depth. *)
Definition returns {St A : Type} (m : ST St A) : Prop :=
  forall s, fst (m s) <> NoFuel.

(** What one turn of the loop of [ProcessDecidedRounds] on round [idx] may
    do to the last consensus round: nothing, or set it to [idx] when it was
    unset or smaller. *)
Definition lcrStep (idx : Z) (a b : option Z) : Prop :=
  b = a \/ (b = Some idx /\ match a with None => True | Some l => l < idx end).

(** ** Sentinels, declaratively

    What [MapSentinels] adds to the map it is handed when it returns
    without error, [see] being read as [Anc]. *)
Section SentinelSemantics.
Context {S : Type} `{Store S}.
Variable st : S.
Variable participants : Peers.

Inductive Sent : string -> string -> gmap string bool -> gmap string bool -> Prop :=
  | Sent_empty y s :
      Sent "" y s s
  | Sent_unseen x y s :
      x <> "" -> Anc st participants x y false -> Sent x y s s
  | Sent_root x y s err roots root peer :
      x <> "" -> Anc st participants x y true ->
      GetEvent st x = RErr err ->
      RootsBySelfParent st = (roots, None) ->
      roots !! x = Some root ->
      peers_ById participants !! re_CreatorID (root_SelfParent root) = Some peer ->
      Sent x y s (<[peer_PubKeyHex peer := true]> s)
  | Sent_self x s ex :
      x <> "" -> Anc st participants x x true ->
      GetEvent st x = ROk ex ->
      Sent x x s (<[Creator ex := true]> s)
  | Sent_walk x y s ex s1 s2 :
      x <> "" -> x <> y -> Anc st participants x y true ->
      GetEvent st x = ROk ex ->
      Sent (OtherParent ex) y (<[Creator ex := true]> s) s1 ->
      Sent (SelfParent ex) y s1 s2 ->
      Sent x y s s2.

(** Every answer in the strongly-see cache is the one the sentinels give. *)
Definition ssCoherent (threshold : Z) (c : Caches) : Prop :=
  forall x y b, lru_peek (stronglySeeCache c) (x, y) = Some b ->
    exists s, Sent x y ∅ s /\ b = (threshold <=? Z.of_nat (size s)).
End SentinelSemantics.

(** Two events A could send instead of its first one: [forkedA0] names a
    self-parent that is not A's last known event, [orphanA0] extends A's
    Root but names an other-parent nobody knows. *)
Definition forkedA0 : Event :=
  demoEvent "0xE0" [Byte.x0a] ["0xE9"; ""] 0 (Some []) "v".

Definition orphanA0 : Event :=
  demoEvent "0xE0" [Byte.x0a] ["Root0"; "0xE9"] 0 (Some []) "v".

(** The capacity of the timestamp cache. *)
Definition timestampCapacity (c : Caches) : nat := lru_size (timestampCache c).

(** ** The engine, continued *)

Section EngineMore.
Context `{Lib} {S : Type} `{Store S}.
Variable budget : nat.

(** GetAnchorBlockWithFrame returns the anchor block and the frame of its
    round received. *)
Definition GetAnchorBlockWithFrame : M S (Block * Frame) :=
  p <- gets id ;;
  match anchorBlock p with
  | None => fail (Errorf "no Anchor Block")
  | Some a =>
      block <- liftRes (GetBlock (store p) a) ;;
      frame <- GetFrame budget (blk_RoundReceived block) ;;
      ret (block, frame)
  end.
End EngineMore.

(** The frame of the Reset scenario, now with two events of A on top of
    its root: the first carries a transaction, the second nothing. *)
Definition loadedFrame : Frame :=
  mkFrame 1
    [mkRoot 1 (mkRootEvent "0xE0" 0 0 7 0) ∅; NewBaseRoot 1 "Root1"; NewBaseRoot 2 "Root2"]
    [demoEvent "0xE5" [Byte.x0a] ["0xE0"; ""] 1 (Some [[Byte.x01]]) "v";
     demoEvent "0xE6" [Byte.x0a] ["0xE5"; ""] 2 (Some []) "v"].

(** ** The order of the events of a frame *)

(** [b] may follow [a] in a slice sorted by [ByLamportTimestamp]: [b] is
    not [Less] than [a]. *)
Definition mayFollow `{Lib} (a b : Event) : Prop := lamportLess b a = Some false.

(** A store of scenario 1 in which round 1 has received the events [e10],
    [e1] and [e0], and no frame was computed yet. *)
Definition frameStore : MemStore :=
  fst (ms_SetRound scenarioStore 1
         (mkRoundInfo {[ "0xF1" := mkRoundEvent true Famous ]}
                      ["0xE10"; "0xE1"; "0xE0"] false)).

Definition framePoset : Poset MemStore :=
  mkPoset demoPeers frameStore None 3 1 None [] [] None None None [] 0 0 0 demoCaches.

(** ** Fame, once decided *)

(** The round [ri'] holds every decided witness of [ri] with the fame it
    has in [ri], and the same consensus events and queue flag. *)
Definition keepsDecided (ri ri' : RoundInfo) : Prop :=
  (forall y, IsDecided ri y = true -> ri_Events ri' !! y = ri_Events ri !! y) /\
  ri_ConsensusEvents ri' = ri_ConsensusEvents ri /\
  ri_queued ri' = ri_queued ri.

(** A round of two witnesses, the first decided famous, the second not
    yet decided. *)
Definition halfDecidedRound : RoundInfo :=
  mkRoundInfo {[ "0xE0" := mkRoundEvent true Famous;
                 "0xE1" := mkRoundEvent true Undefined ]} [] true.

(** ** Flag tables *)

Section FlagTables.
Context `{Lib}.

(** One turn of the loop of [MergeFlagTable]:
    [if src[id] == 0 && flag == 1 { src[id] = 1 }]; a missing key reads
    as 0. *)
Definition mergeFlag (src : gmap string Z) (entry : string * Z) : gmap string Z :=
  let '(id, flag) := entry in
  if (default 0 (src !! id) =? 0) && (flag =? 1) then <[id := 1]> src else src.

(** MergeFlagTable returns merged flag table object.  The result is [nil]
    (here the empty map) when the flag table of the event cannot be
    decoded. *)
Definition MergeFlagTable (e : Event) (dst : gmap string Z) : gmap string Z * option error :=
  match unmarshalFlagTable (ev_FlagTable e) with
  | (_, Some err) => (∅, Some err)
  | (src, None) => (foldl mergeFlag src (map_to_list dst), None)
  end.
End FlagTables.

(** ** Values of graph computations *)

(** The computation can return [a]: it does from some state of the
    caches. *)
Definition returnsValue {A} (m : G A) (a : A) : Prop :=
  exists c c', m c = (Ok a, c').

(** ** DivideRounds *)

(** Round returns round of event. *)
Definition Round (e : Event) : Z :=
  match ev_round e with
  | Some r => if r <? 0 then -1 else r
  | None => -1
  end.

(** [Event.SetRound]; the name [SetRound] is the store's. *)
Definition SetEventRound (e : Event) (r : Z) : Event :=
  mkEvent (ev_Body e) (ev_Signature e) (ev_topologicalIndex e) (Some r)
          (ev_lamportTimestamp e) (ev_roundReceived e) (ev_creator e) (ev_hash e)
          (ev_hex e) (ev_FlagTable e) (ev_WitnessProof e).

Definition SetLamportTimestamp (e : Event) (t : Z) : Event :=
  mkEvent (ev_Body e) (ev_Signature e) (ev_topologicalIndex e) (ev_round e)
          (Some t) (ev_roundReceived e) (ev_creator e) (ev_hash e)
          (ev_hex e) (ev_FlagTable e) (ev_WitnessProof e).

(** [e.FlagTable = ...; e.Message.WitnessProof = ...] *)
Definition setFlagTableAndProof (e : Event) (flagTable : list Byte.byte)
    (witnessProof : list string) : Event :=
  mkEvent (ev_Body e) (ev_Signature e) (ev_topologicalIndex e) (ev_round e)
          (ev_lamportTimestamp e) (ev_roundReceived e) (ev_creator e) (ev_hash e)
          (ev_hex e) flagTable witnessProof.

Section DivideRoundsModel.
Context `{Lib} {S : Type} `{Store S}.
Variable budget : nat.
(** Three pieces of the package that are not among the sources, left as
    parameters: [RoundInfo.AddEvent]; the round the store hands back
    together with a [KeyNotFound] error; and [json.Marshal] on a flag
    table, as [ReplaceFlagTable] calls it. *)
Variable AddEvent : RoundInfo -> string -> bool -> RoundInfo.
Variable missingRound : RoundInfo.
Variable marshalFlagTable : gmap string Z -> list Byte.byte.

(** witness if is true then x is a witness (first event of a round for
    the owner) *)
Definition witness (x : string) : M S bool :=
  p <- gets id ;;
  ex <- liftRes (GetEvent (store p) x) ;;
  xRound <- roundM budget x ;;
  spRound <- roundM budget (SelfParent ex) ;;
  ret (spRound <? xRound).

(** [replaceFlagTable(&ev, round)]: the flag table of the witnesses of
    the round, each flagged 1; the error of [json.Marshal] is dropped. *)
Definition replaceFlagTable (st : S) (round : Z) : list Byte.byte :=
  marshalFlagTable (list_to_map ((fun v => (v, 1)) <$> RoundWitnesses st round)).

(** The event is the head of the local node. *)
Definition isSelfHead (p : Poset S) (ev : Event) : bool :=
  match core p with
  | Some (head, hexID) => bool_decide (Hex ev = head) && bool_decide (Creator ev = hexID)
  | None => false
  end.

(** The round part of one turn of the loop: the body of
    [if ev.round == nil]. *)
Definition divideRound (hash : string) (ev : Event) : M S Event :=
  roundNumber <- roundM budget hash ;;
  let ev := SetEventRound ev roundNumber in
  p <- gets id ;;
  roundInfo <-
    match GetRound (store p) roundNumber with
    | ROk ri => ret ri
    | RErr err => if isKeyNotFound err then ret missingRound else fail err
    end ;;
  (* Why the lower bound? ... the base layer must not be reprocessed. *)
  roundInfo <-
    (if negb (ri_queued roundInfo)
        && match lastConsensusRound p with
           | None => true
           | Some lcr => lcr <=? roundNumber
           end
     then
       _ <- addPendingRounds [mkPendingRound roundNumber false] ;;
       ret (mkRoundInfo (ri_Events roundInfo) (ri_ConsensusEvents roundInfo) true)
     else ret roundInfo) ;;
  w <- witness hash ;;
  let roundInfo := AddEvent roundInfo hash w in
  e <- storeWrite (fun s => SetRound s roundNumber roundInfo) ;;
  match e with
  | Some err => fail err
  | None =>
      p <- gets id ;;
      if (w : bool) && isSelfHead p ev then
        (* special case *)
        if Round ev =? 0 then
          root <- liftRes (GetRoot (store p) (Creator ev)) ;;
          ret (setFlagTableAndProof ev (replaceFlagTable (store p) 0)
                                    [re_Hash (root_SelfParent root)])
        else
          ret (setFlagTableAndProof ev (replaceFlagTable (store p) (Round ev))
                 (RoundWitnesses (store p) (wrap64 (Round ev - 1))))
      else ret ev
  end.

(** One turn of the loop over the undetermined events. *)
Definition divideEvent (hash : string) : M S unit :=
  p <- gets id ;;
  ev <- liftRes (GetEvent (store p) hash) ;;
  (* Compute Event's round, update the corresponding Round object, and add
     it to the pending rounds queue if necessary. *)
  ev1 <- match ev_round ev with
         | None => divideRound hash ev
         | Some _ => ret ev
         end ;;
  (* Compute the Event's lamport timestamp *)
  ev2 <- match ev_lamportTimestamp ev1 with
         | None =>
             lamportTimestamp <- lamportTimestampM budget hash ;;
             ret (SetLamportTimestamp ev1 lamportTimestamp)
         | Some _ => ret ev1
         end ;;
  match ev_round ev, ev_lamportTimestamp ev1 with
  | Some _, Some _ => ret tt
  | _, _ =>
      (* the errors of setWireInfo and SetEvent are dropped *)
      ev3 <- (if CreatorID ev2 =? 0 then
                r <- catch (setWireInfo ev2) ;;
                ret (match r with ROk ev' => ev' | RErr _ => ev2 end)
              else ret ev2) ;;
      _ <- storeWrite (fun s => SetEvent s ev3) ;;
      ret tt
  end.

Fixpoint divideLoop (hashes : list string) : M S unit :=
  match hashes with
  | [] => ret tt
  | hash :: rest =>
      _ <- divideEvent hash ;;
      divideLoop rest
  end.

(** DivideRounds assigns a round and lamport timestamp to events, and
    flags them as witnesses if necessary. Pushes Rounds in the pending
    rounds queue if necessary. *)
Definition DivideRounds : M S unit :=
  p <- gets id ;;
  divideLoop (undeterminedEvents p).
End DivideRoundsModel.

(** A round queued by [DivideRounds]: undecided, and not below the last
    consensus round [lcr]. *)
Definition queuedAbove (lcr : option Z) (r : pendingRound) : Prop :=
  pr_Decided r = false /\
  match lcr with
  | Some l => l <= pr_Index r
  | None => True
  end.

(** From [p] to [p'] the last consensus round is the same and the queue
    of pending rounds has only grown, at its end, by such rounds. *)
Definition queueGrows {S : Type} (p p' : Poset S) : Prop :=
  lastConsensusRound p' = lastConsensusRound p /\
  exists new,
    pendingRounds p' = (pendingRounds p ++ new)%list /\
    Forall (queuedAbove (lastConsensusRound p)) new.

(** ** The consensus pipeline *)

Section Pipeline.
Context `{Lib} {S : Type} `{Store S}.
Variable budget : nat.
Variable AddEvent : RoundInfo -> string -> bool -> RoundInfo.
Variable missingRound : RoundInfo.
Variable marshalFlagTable : gmap string Z -> list Byte.byte.

(** [Core.RunConsensus]: the five passes in order, stopping at the first
    error (the timings and the log entries are left out). *)
Definition RunConsensus : M S unit :=
  _ <- DivideRounds budget AddEvent missingRound marshalFlagTable ;;
  _ <- DecideFame budget ;;
  _ <- DecideRoundReceived budget ;;
  _ <- ProcessDecidedRounds budget ;;
  ProcessSigPool.
End Pipeline.

(** What a run of the pipeline may do to the queues and the cursors: the
    undetermined events and the signature pool lose elements, keeping
    their order; the topological index stays; the last consensus round and
    the anchor block, once set, stay set and do not decrease. *)
Definition consensusStep {S : Type} (p p' : Poset S) : Prop :=
  undeterminedEvents p' `sublist_of` undeterminedEvents p /\
  sigPool p' `sublist_of` sigPool p /\
  topologicalIndex p' = topologicalIndex p /\
  lcrLe (lastConsensusRound p) (lastConsensusRound p') /\
  lcrLe (anchorBlock p) (anchorBlock p').

(** * Properties *)

(** ** Machine integers *)

Lemma wrap64_id z : in_int64 z -> wrap64 z = z.
Proof.
  unfold in_int64, wrap64, MinInt64, MaxInt64. intros Hz.
  rewrite Z.mod_small; lia.
Qed.

Lemma wrap64_range z : in_int64 (wrap64 z).
Proof.
  unfold in_int64, wrap64, MinInt64, MaxInt64.
  pose proof (Z.mod_pos_bound (z + 2 ^ 63) (2 ^ 64) ltac:(lia)). lia.
Qed.

Lemma float64_exact z : Z.abs z < 2 ^ 53 -> float64 z = z.
Proof.
  intros Hz. unfold float64.
  destruct (Z.abs z <? 2 ^ 53) eqn:E; [done|].
  apply Z.ltb_ge in E. lia.
Qed.

(** ** The LRU cache *)

Section LRUFacts.
Context {K V : Type} `{EqDecision K}.
Implicit Types (c : lru K V) (k : K) (l : list (K * V)).

Lemma assoc_remove_key_eq k l : assoc k (remove_key k l) = None.
Proof.
induction l as [|[k' v] l IH]; simpl; [done|].
destruct (decide (k = k')); simpl; [done|].
destruct (decide (k = k')); done.
Qed.

Lemma assoc_remove_key_ne k k' l : k ≠ k' -> assoc k' (remove_key k l) = assoc k' l.
Proof.
intros Hne. induction l as [|[k0 v] l IH]; simpl; [done|].
destruct (decide (k = k0)) as [->|]; simpl.
- destruct (decide (k' = k0)); [congruence | done].
- destruct (decide (k' = k0)); [done | apply IH].
Qed.

Lemma assoc_take_Some n k l v : assoc k (take n l) = Some v -> assoc k l = Some v.
Proof.
revert l; induction n as [|n IH]; intros [|[k0 v0] l]; simpl; try done.
destruct (decide (k = k0)); [done | apply IH].
Qed.

Lemma lru_peek_new n k : lru_peek (@lru_new K V n) k = None.
Proof. done. Qed.

(** Whatever [Get] finds was in the cache, and it loses nothing. *)
Lemma lru_get_peek c k : fst (lru_get c k) = lru_peek c k.
Proof. unfold lru_get, lru_peek. by destruct (assoc k (lru_items c)). Qed.

Lemma lru_peek_get c k k' : lru_peek (snd (lru_get c k)) k' = lru_peek c k'.
Proof.
unfold lru_get, lru_peek.
destruct (assoc k (lru_items c)) as [v|] eqn:Hk; simpl; [|done].
destruct (decide (k' = k)) as [->|Hne]; [done|].
by apply assoc_remove_key_ne.
Qed.

(** After [Add], an entry is either the one just added or an older one. *)
Lemma lru_peek_add c k v k' v' :
lru_peek (lru_add c k v) k' = Some v' ->
(k' = k ∧ v' = v) ∨ (k' ≠ k ∧ lru_peek c k' = Some v').
Proof.
unfold lru_add, lru_peek; simpl. intros H%assoc_take_Some.
simpl in H. destruct (decide (k' = k)) as [->|Hne].
- left. split; congruence.
- right. split; [done|]. by rewrite assoc_remove_key_ne in H.
Qed.
Lemma lru_get_None c k : lru_peek c k = None -> lru_get c k = (None, c).
Proof. unfold lru_get, lru_peek. by intros ->. Qed.

Lemma lru_get_Some c k v :
  lru_peek c k = Some v -> exists c', lru_get c k = (Some v, c').
Proof. unfold lru_get, lru_peek. intros ->. eauto. Qed.
End LRUFacts.

(** ** Events *)

Section EventFacts.
Context `{Lib}.

(** C8, as stated, fails under both readings of "carries at least one
    transaction".  Counting payload transactions only: an event of index 1
    with an allocated but empty payload and one internal transaction is
    loaded.  Counting internal transactions too: the same event with a
    [nil] payload is not loaded. *)
Lemma IsLoaded_claim_fails :
  (IsLoaded emptyPayloadEvent = true /\
   Index emptyPayloadEvent <> 0 /\
   length (Transactions emptyPayloadEvent) = 0%nat) /\
  (IsLoaded nilPayloadEvent = false /\
   length (body_InternalTransactions (ev_Body nilPayloadEvent)) = 1%nat).
Proof. repeat split; discriminate. Qed.

(** C8, amended: [IsLoaded] holds exactly when the index is 0, or the
    payload slice is allocated and the event carries a payload transaction
    or an internal transaction. *)
Theorem IsLoaded_spec (e : Event) :
  IsLoaded e = true <->
  Index e = 0 \/
  (exists txs, body_Transactions (ev_Body e) = Some txs /\
     ((0 < length txs)%nat \/
      (0 < length (body_InternalTransactions (ev_Body e)))%nat)).
Proof.
  unfold IsLoaded, Index.
  destruct (body_Index (ev_Body e) =? 0) eqn:Hi.
  - apply Z.eqb_eq in Hi. split; [by left | done].
  - apply Z.eqb_neq in Hi.
    destruct (body_Transactions (ev_Body e)) as [txs|].
    + rewrite orb_true_iff, !Z.ltb_lt. split.
      * intros Hl. right. exists txs. split; [done|]. lia.
      * intros [?|(txs' & [= <-] & Hl)]; [done|]. lia.
    + split; [done|]. intros [?|(txs' & ? & _)]; done.
Qed.
End EventFacts.

(** ** State transformers *)

Section Keeps.
Context {St A0 : Type}.
Variable f : St -> A0.

Lemma keeps_ret {A} (a : A) : keeps f (ret a).
Proof. done. Qed.

Lemma keeps_fail {A} e : keeps f (@fail St A e).
Proof. done. Qed.

Lemma keeps_panic {A} : keeps f (@panic St A).
Proof. done. Qed.

Lemma keeps_nofuel {A} : keeps f (@nofuel St A).
Proof. done. Qed.

Lemma keeps_gets {A} (g : St -> A) : keeps f (gets g).
Proof. done. Qed.

Lemma keeps_liftRes {A} (r : res A) : keeps f (liftRes r).
Proof. by destruct r. Qed.

Lemma keeps_liftOpt {A} (o : option A) : keeps f (liftOpt o).
Proof. by destruct o. Qed.

Lemma keeps_modify (g : St -> St) : (forall s, f (g s) = f s) -> keeps f (modify g).
Proof. intros Hg s. apply Hg. Qed.

Lemma keeps_bind {A B} (m : ST St A) (k : A -> ST St B) :
  keeps f m -> (forall a, keeps f (k a)) -> keeps f (bind m k).
Proof.
  intros Hm Hk s. unfold bind. specialize (Hm s).
  destruct (m s) as [[a| | |] s']; simpl in *; try done.
  by rewrite Hk.
Qed.

Lemma keeps_catch {A} (m : ST St A) : keeps f m -> keeps f (catch m).
Proof.
  intros Hm s. unfold catch. specialize (Hm s).
  by destruct (m s) as [[a| | |] s'].
Qed.
End Keeps.

Create HintDb keeps.

#[export] Hint Resolve keeps_ret keeps_fail keeps_panic keeps_nofuel keeps_gets
  keeps_liftRes keeps_liftOpt keeps_catch : keeps.

(** One step of a proof that a computation keeps an observation: split a
    sequence, or take the cases of the value the code branches on. *)
Ltac keeps_step :=
  match goal with
  | |- keeps _ (bind _ _) => apply keeps_bind; [|intros ?]
  | |- keeps _ (catch _) => apply keeps_catch
  | |- keeps _ (match ?x with _ => _ end) => destruct x
  | |- keeps _ (if ?x then _ else _) => destruct x
  | |- keeps _ (let '(_, _) := ?x in _) => destruct x
  | |- keeps _ _ => solve [eauto with keeps]
  end.

Ltac keeps_auto := repeat keeps_step.

(** ** InsertEvent *)

Section InsertEventFacts.
Context `{Lib} {S : Type} `{Store S}.
Implicit Types (p : Poset S).

(** C1.  An event whose signature does not verify ([Verify] answers
    [false], with or without an error) is rejected: [InsertEvent] returns
    the error of [Verify] or, when there is none, the error "invalid Event
    signature", and the engine state, hence the store, the topological
    index, the undetermined queue, the loaded-events counter and the
    signature pool, is exactly what it was. *)
Theorem InsertEvent_invalid_signature p (event : Event) (setWire : bool)
    (err : option error) :
  Verify event = Some (false, err) ->
  InsertEvent event setWire p
  = (Err (default (Errorf "invalid Event signature") err), p).
Proof.
  intros Hv. unfold InsertEvent. rewrite Hv.
  by destruct err as [e|].
Qed.

Lemma keeps_wrapErr {A0 A} (f : Poset S -> A0) prefix (m : M S A) :
  keeps f m -> keeps f (wrapErr prefix m).
Proof. intros Hm. unfold wrapErr. keeps_auto. Qed.

Lemma keeps_storeWrite {A0} (f : Poset S -> A0) w :
  (forall s p, f (set_store s p) = f p) -> keeps f (storeWrite w).
Proof. intros Hf p. unfold storeWrite. destruct (w (store p)); simpl. apply Hf. Qed.

Lemma keeps_callG {A0 A} (f : Poset S -> A0) (g : Poset S -> G A) :
  (forall c p, f (set_caches c p) = f p) -> keeps f (callG g).
Proof. intros Hf p. unfold callG. destruct (g p (caches p)); simpl. apply Hf. Qed.

Lemma keeps_peerIdByPubKey {A0} (f : Poset S -> A0) ps key :
  keeps f (peerIdByPubKey ps key).
Proof. unfold peerIdByPubKey. keeps_auto. Qed.

Lemma keeps_checkSelfParent {A0} (f : Poset S -> A0) event : keeps f (checkSelfParent event).
Proof. unfold checkSelfParent. keeps_auto. Qed.

Lemma keeps_checkOtherParent {A0} (f : Poset S -> A0) event : keeps f (checkOtherParent event).
Proof. unfold checkOtherParent. keeps_auto. Qed.

Lemma keeps_setWireInfo {A0} (f : Poset S -> A0) event : keeps f (setWireInfo event).
Proof.
  unfold setWireInfo. keeps_auto; apply keeps_peerIdByPubKey.
Qed.

(** [InsertEvent] never touches the caches. *)
Lemma InsertEvent_keeps_caches event setWire : keeps caches (InsertEvent event setWire).
Proof.
  unfold InsertEvent, addUndeterminedEvents, increasePendingLoadedEvents,
    AddToSigPool, increaseTopologicalIndex.
  keeps_auto;
    first [ apply keeps_wrapErr;
            first [apply keeps_checkSelfParent | apply keeps_checkOtherParent
                  | apply keeps_setWireInfo]
          | apply keeps_storeWrite; done
          | apply keeps_modify; done ].
Qed.
End InsertEventFacts.

(** The first event of A with a tampered signature (scenario 3 of the
    specification) is rejected by the fresh demo poset, which is left as
    it was. *)
Lemma InsertEvent_invalid_signature_witness :
  Verify tamperedA0 = Some (false, None) /\
  InsertEvent tamperedA0 true demoPoset
  = (Err (Errorf "invalid Event signature"), demoPoset).
Proof.
  split; [reflexivity|].
  apply (InsertEvent_invalid_signature demoPoset tamperedA0 true None). reflexivity.
Defined.

(** ** Reset *)

Section ResetFacts.
Context `{Lib} {S : Type} `{Store S}.
Implicit Types (p : Poset S).

Lemma keeps_compose {St A0 A1 A} (f : St -> A0) (g : A0 -> A1) (m : ST St A) :
  keeps f m -> keeps (fun s => g (f s)) m.
Proof. intros Hm s. by rewrite Hm. Qed.

Lemma insertFrameEvents_keeps_caches events : keeps caches (insertFrameEvents events).
Proof.
  induction events as [|ev events IH]; simpl; keeps_auto.
  apply InsertEvent_keeps_caches.
Qed.

(** [Reset] replaces four caches and leaves the timestamp cache as it
    finds it, whatever the block and the frame and however it ends. *)
Lemma Reset_keeps_timestampCache block frame p :
  timestampCache (caches (snd (Reset block frame p))) = timestampCache (caches p).
Proof.
  revert p. change (keeps (fun p => timestampCache (caches p)) (Reset block frame)).
  unfold Reset, clearLastConsensusRound, clearFirstConsensusRound, clearAnchorBlock,
    setUndeterminedEvents, clearPendingRounds, clearPendingLoadedEvents,
    clearTopologicalIndex, setLastConsensusRound.
  keeps_auto;
    first [ apply keeps_modify; intros; simpl; by repeat case_match
          | apply keeps_storeWrite; done
          | apply (keeps_compose caches timestampCache), insertFrameEvents_keeps_caches ].
Qed.
End ResetFacts.

(** C6 fails on the code: the timestamp cache survives [Reset].  The
    engine caches timestamp 0 for the event [0xE0]; it is reset to a frame
    whose root records that event with timestamp 7; the four other caches
    come out empty, but [lamportTimestamp] still answers 0 from the
    surviving entry, where a poset with fresh caches on the same store
    answers 7. *)
Theorem Reset_stale_timestamp :
  fst (Reset resetBlock resetFrame beforeReset) = Ok tt /\
  lru_items (ancestorCache (caches afterReset)) = [] /\
  lru_items (selfAncestorCache (caches afterReset)) = [] /\
  lru_items (stronglySeeCache (caches afterReset)) = [] /\
  lru_items (roundCache (caches afterReset)) = [] /\
  lru_items (timestampCache (caches afterReset)) = [("0xE0", 0)] /\
  fst (lamportTimestampM 5 "0xE0" afterReset) = Ok 0 /\
  fst (lamportTimestampM 5 "0xE0" (set_caches demoCaches afterReset)) = Ok 7.
Proof. vm_compute. repeat split. Qed.

(** ** DecideFame *)

Lemma mathModPositive_multiple (diff n : Z) :
  0 <= diff < 2 ^ 53 -> 0 <= n < 2 ^ 53 -> diff mod n = 0 ->
  mathModPositive (float64 diff) (float64 n) = false.
Proof.
  intros Hd Hn Hmod. rewrite !float64_exact by lia.
  unfold mathModPositive. destruct (n =? 0) eqn:E; [done|].
  apply Z.eqb_neq in E. rewrite Z.rem_mod_nonneg by lia. by rewrite Hmod.
Qed.

(** In a coin round with a tally below the super-majority, the vote cast
    is the middle bit of the voter's hash, the round is left as it is and
    the vote loop goes on. *)
Lemma castVote_coin (n superMajority diff : Z) (y x : string) (yays nays : Z)
    votes roundInfo :
  0 <= diff < 2 ^ 53 -> 0 <= n < 2 ^ 53 -> diff mod n = 0 ->
  Z.max yays nays < superMajority ->
  castVote n superMajority diff y x yays nays votes roundInfo =
    (fun coin => (setVote votes y x coin, roundInfo, false)) <$> middleBit y.
Proof.
  intros Hd Hn Hmod Ht. unfold castVote.
  rewrite mathModPositive_multiple by done.
  replace (superMajority <=? (if nays <=? yays then yays else nays)) with false.
  - by destruct (middleBit y).
  - symmetry. apply Z.leb_gt. destruct (nays <=? yays) eqn:E; lia.
Qed.

(** Whatever [castVote] decides, it records one vote, that of [y] on [x]. *)
Lemma castVote_votes (n superMajority diff : Z) (y x : string) (yays nays : Z)
    votes roundInfo votes' roundInfo' leave :
  castVote n superMajority diff y x yays nays votes roundInfo
    = Some (votes', roundInfo', leave) ->
  exists vote, votes' = setVote votes y x vote.
Proof.
  unfold castVote.
  destruct (mathModPositive _ _), (superMajority <=? _);
    try (intros [= <- _ _]; by eexists).
  destruct (middleBit y) as [coin|]; [|done]. intros [= <- _ _]. by eexists.
Qed.

Lemma getVote_setVote votes (y x : string) (vote : bool) :
  getVote (setVote votes y x vote) y x = vote.
Proof. unfold getVote, setVote. by rewrite lookup_insert_eq. Qed.

Lemma setVote_other votes (y x a b : string) (vote : bool) :
  (a, b) <> (y, x) -> setVote votes y x vote !! (a, b) = votes !! (a, b).
Proof. intros Hne. unfold setVote. by rewrite lookup_insert_ne. Qed.

Section DecideFameFacts.
Context `{Lib} {S : Type} `{Store S}.
Implicit Types (p : Poset S).

(** The loop over the voters [ys] of a round records votes on [x] of the
    voters in [ys], and no other: every other entry of the vote map is
    left as it was. *)
Lemma voteWitnesses_votes (budget : nat) (roundIndex j : Z) (x : string) ys :
  forall votes roundInfo p votes' roundInfo' leave p',
    voteWitnesses budget roundIndex j x ys votes roundInfo p
      = (Ok (votes', roundInfo', leave), p') ->
    forall a b, a ∉ ys \/ b <> x -> votes' !! (a, b) = votes !! (a, b).
Proof.
  induction ys as [|y ys IH]; intros votes ri p votes' ri' leave p' Hrun a b Hab.
  - cbn in Hrun. by injection Hrun as <- _ _ _.
  - assert (Hne : (a, b) <> (y, x)).
    { intros [= -> ->]. destruct Hab as [Hy|Hx]; [|done].
      apply Hy, elem_of_cons. by left. }
    assert (Hab' : a ∉ ys \/ b <> x).
    { destruct Hab as [Hy|Hx]; [left|by right].
      intros Hin. apply Hy, elem_of_cons. by right. }
    cbn [voteWitnesses] in Hrun.
    destruct (wrap64 (j - roundIndex) =? 1).
    + unfold bind at 1 in Hrun.
      destruct (seeM budget y x p) as [[ycx| | |] p1]; try done.
      rewrite (IH _ _ _ _ _ _ _ Hrun a b Hab'). by apply setVote_other.
    + unfold bind at 1 in Hrun. unfold gets, id in Hrun. cbn [fst snd] in Hrun.
      unfold bind at 1 in Hrun.
      destruct (stronglySeen budget y _ p) as [[ss| | |] p1]; try done.
      destruct (countVotes votes x ss 0 0) as [yays nays].
      unfold bind at 1 in Hrun.
      destruct (castVote _ _ _ y x yays nays votes ri) as [[[v1 ri1] l1]|] eqn:Hcast;
        [|done].
      cbn [liftOpt ret fst snd] in Hrun.
      destruct (castVote_votes _ _ _ _ _ _ _ _ _ _ _ _ Hcast) as [vote ->].
      destruct l1.
      * injection Hrun as <- _ _ _. by apply setVote_other.
      * rewrite (IH _ _ _ _ _ _ _ Hrun a b Hab'). by apply setVote_other.
Qed.

(** C5.  Witness [y] of round [j] votes on witness [x] of round
    [roundIndex], the difference [j - roundIndex] being at least 2 and a
    multiple of the number of participants; [y] strongly sees the
    witnesses [ssWitnesses] of round [j - 1] and their votes give a tally
    below the super-majority.  Then, whatever the yays and nays were:
    - a hash of [y] too short to have a middle bit panics;
    - otherwise the loop over the voters goes on from the vote map in
      which the vote of [y] on [x] is set to the middle bit of [y]'s hash
      and reads as that bit, every other entry and the round being as they
      were;
    - and when the loop over the voters of the round ends, the vote of
      [y] on [x] still reads as that bit, [y] being listed once.
    Differences and participant counts are below [2^53], where their
    conversion to [float64] is exact. *)
Theorem DecideFame_coin_round (budget : nat) p (roundIndex j : Z) (x y : string)
    (rest : list string) votes roundInfo (ssWitnesses : list string) p1 :
  2 <= j - roundIndex < 2 ^ 53 ->
  Peers_Len (participants p) < 2 ^ 53 ->
  (j - roundIndex) mod Peers_Len (participants p) = 0 ->
  stronglySeen budget y (RoundWitnesses (store p) (wrap64 (j - 1))) p = (Ok ssWitnesses, p1) ->
  Z.max (fst (countVotes votes x ssWitnesses 0 0)) (snd (countVotes votes x ssWitnesses 0 0))
    < superMajority p ->
  match middleBit y with
  | None =>
      voteWitnesses budget roundIndex j x (y :: rest) votes roundInfo p = (Panic, p1)
  | Some coin =>
      getVote (setVote votes y x coin) y x = coin /\
      (forall a b, (a, b) <> (y, x) ->
                   setVote votes y x coin !! (a, b) = votes !! (a, b)) /\
      voteWitnesses budget roundIndex j x (y :: rest) votes roundInfo p =
        voteWitnesses budget roundIndex j x rest (setVote votes y x coin) roundInfo p1 /\
      (y ∉ rest ->
       forall votes' roundInfo' leave p',
         voteWitnesses budget roundIndex j x (y :: rest) votes roundInfo p
           = (Ok (votes', roundInfo', leave), p') ->
         getVote votes' y x = coin)
  end.
Proof.
  intros Hd Hn Hmod Hss Ht.
  assert (Hstep :
    voteWitnesses budget roundIndex j x (y :: rest) votes roundInfo p =
      match middleBit y with
      | Some coin =>
          voteWitnesses budget roundIndex j x rest (setVote votes y x coin) roundInfo p1
      | None => (Panic, p1)
      end).
  { simpl.
    assert (Hw : wrap64 (j - roundIndex) = j - roundIndex).
    { apply wrap64_id. unfold in_int64, MinInt64, MaxInt64. lia. }
    rewrite Hw.
    destruct (j - roundIndex =? 1) eqn:E; [apply Z.eqb_eq in E; lia|].
    unfold bind at 1. simpl. unfold bind at 1. rewrite Hss.
    destruct (countVotes votes x ssWitnesses 0 0) as [yays nays]; simpl in Ht.
    rewrite castVote_coin; try done; try lia.
    - destruct (middleBit y) as [coin|]; simpl; [|done].
      unfold bind at 1. by simpl.
    - unfold Peers_Len in *. lia. }
  destruct (middleBit y) as [coin|]; [|exact Hstep].
  split; [apply getVote_setVote|].
  split; [intros a b Hne; by apply setVote_other|].
  split; [exact Hstep|].
  intros Hy votes' ri' leave p' Hrun. rewrite Hstep in Hrun.
  unfold getVote.
  rewrite (voteWitnesses_votes _ _ _ _ _ _ _ _ _ _ _ _ Hrun y x (or_introl Hy)).
  apply getVote_setVote.
Qed.
End DecideFameFacts.

(** Three participants, round difference 3: a coin round.  The voter
    [0xAB01CD] strongly sees no witness, so the tally is empty; the middle
    byte of its hash is not zero and its vote on [0xE0] is recorded as
    true, where a vote that was never cast reads as false. *)
Lemma DecideFame_coin_round_witness :
  middleBit "0xAB01CD" = Some true /\
  getVote ∅ "0xAB01CD" "0xE0" = false /\
  exists votes' roundInfo' leave p',
    voteWitnesses 5 0 3 "0xE0" ["0xAB01CD"] ∅ (mkRoundInfo ∅ [] false) demoPoset
      = (Ok (votes', roundInfo', leave), p') /\
    getVote votes' "0xAB01CD" "0xE0" = true.
Proof.
  split; [reflexivity|]. split; [reflexivity|].
  pose proof (DecideFame_coin_round 5 demoPoset 0 3 "0xE0" "0xAB01CD" [] ∅
                (mkRoundInfo ∅ [] false) [] demoPoset) as Hcoin.
  change (middleBit "0xAB01CD") with (Some true) in Hcoin.
  destruct Hcoin as (_ & _ & Hstep & Hend);
    [vm_compute; split; congruence | reflexivity | reflexivity
    | reflexivity | reflexivity |].
  eexists _, _, _, _. split; [rewrite Hstep; reflexivity|].
  eapply Hend; [by intros ?%elem_of_nil|]. rewrite Hstep. reflexivity.
Defined.

(** ** ProcessDecidedRounds *)

Section Moves.
Context {St : Type}.
Variable R : St -> St -> Prop.
Hypothesis R_refl : forall s, R s s.
Hypothesis R_trans : forall s1 s2 s3, R s1 s2 -> R s2 s3 -> R s1 s3.

Lemma moves_ret {A} (a : A) : moves R (ret a).
Proof using R_refl. intros s. apply R_refl. Qed.

Lemma moves_bind {A B} (m : ST St A) (k : A -> ST St B) :
  moves R m -> (forall a, moves R (k a)) -> moves R (bind m k).
Proof using R_trans.
  intros Hm Hk s. unfold bind. specialize (Hm s).
  destruct (m s) as [[a| | |] s']; simpl in *; try done.
  eapply R_trans; [exact Hm | apply Hk].
Qed.

Lemma moves_keeps {A0 A} (f : St -> A0) (m : ST St A) :
  (forall s s', f s' = f s -> R s s') -> keeps f m -> moves R m.
Proof using Type. intros Hf Hm s. apply Hf, Hm. Qed.
End Moves.

Section FrameFacts.
Context `{Lib} {S : Type} `{Store S}.
Implicit Types (p : Poset S).
Context {A0 : Type}.
(** An observation of the engine that depends neither on the caches nor on
    the store. *)
Variable f : Poset S -> A0.
Hypothesis f_caches : forall c p, f (set_caches c p) = f p.
Hypothesis f_store : forall s p, f (set_store s p) = f p.
Variable budget : nat.

Lemma keeps_lamportTimestampM x : keeps f (lamportTimestampM budget x).
Proof using f_caches. apply keeps_callG, f_caches. Qed.

Lemma keeps_roundM x : keeps f (roundM budget x).
Proof using f_caches. apply keeps_callG, f_caches. Qed.

Lemma keeps_createSelfParentRootEvent ev : keeps f (createSelfParentRootEvent budget ev).
Proof using f_caches.
  unfold createSelfParentRootEvent. keeps_auto;
    first [apply keeps_lamportTimestampM | apply keeps_roundM | apply keeps_peerIdByPubKey].
Qed.

Lemma keeps_createOtherParentRootEvent ev : keeps f (createOtherParentRootEvent budget ev).
Proof using f_caches.
  unfold createOtherParentRootEvent. keeps_auto;
    first [apply keeps_lamportTimestampM | apply keeps_roundM | apply keeps_peerIdByPubKey].
Qed.

Lemma keeps_createRoot ev : keeps f (createRoot budget ev).
Proof using f_caches.
  unfold createRoot. keeps_auto;
    first [apply keeps_roundM | apply keeps_createSelfParentRootEvent
          | apply keeps_createOtherParentRootEvent].
Qed.

Lemma keeps_getEvents hashes : keeps f (getEvents hashes).
Proof using Type. induction hashes as [|eh hashes IH]; simpl; keeps_auto. Qed.

Lemma keeps_rootsOfEvents events roots : keeps f (rootsOfEvents budget events roots).
Proof using f_caches.
  revert roots. induction events as [|ev events IH]; intros roots; simpl; keeps_auto.
  apply keeps_createRoot.
Qed.

Lemma keeps_rootsOfPeers peers roots : keeps f (rootsOfPeers budget peers roots).
Proof using f_caches.
  revert roots. induction peers as [|peer peers IH]; intros roots; simpl; keeps_auto.
  apply keeps_createRoot.
Qed.

Lemma keeps_othersOutsideFrame events treated roots :
  keeps f (othersOutsideFrame budget events treated roots).
Proof using f_caches.
  revert treated roots.
  induction events as [|ev events IH]; intros treated roots; simpl; cbv zeta; keeps_auto.
  all: apply keeps_createOtherParentRootEvent.
Qed.

Lemma keeps_GetFrame roundReceived : keeps f (GetFrame budget roundReceived).
Proof using f_caches f_store.
  unfold GetFrame. keeps_auto;
    first [ apply keeps_getEvents | apply keeps_rootsOfEvents | apply keeps_rootsOfPeers
          | apply keeps_othersOutsideFrame | apply keeps_storeWrite, f_store ].
Qed.
End FrameFacts.

Section ProcessDecidedRoundsFacts.
Context `{Lib} {S : Type} `{Store S}.
Implicit Types (p : Poset S).

Lemma lcrStep_refl idx a : lcrStep idx a a.
Proof. by left. Qed.

Lemma lcrStep_trans idx a b c : lcrStep idx a b -> lcrStep idx b c -> lcrStep idx a c.
Proof.
  intros [->|[-> Ha]] [->|[-> Hb]]; try (by left); by right.
Qed.

Lemma lcrStep_le idx a b : lcrStep idx a b -> lcrLe a b.
Proof.
  intros [->|[-> Ha]]; destruct a; simpl; try done; lia.
Qed.

Lemma lcrLe_trans a b c : lcrLe a b -> lcrLe b c -> lcrLe a c.
Proof. destruct a, b, c; simpl; try done; lia. Qed.

Lemma keeps_lcr_commitFrameEvents events :
  keeps lastConsensusRound (commitFrameEvents (S := S) events).
Proof.
  induction events as [|ev events IH]; simpl;
    unfold AddConsensusTransactions, decreasePendingLoadedEvents; keeps_auto;
    first [apply keeps_storeWrite; done | apply keeps_modify; done].
Qed.

Lemma processDecidedRound_lcr budget r p :
  lcrStep (pr_Index r) (lastConsensusRound p)
          (lastConsensusRound (snd (processDecidedRound budget r p))).
Proof.
  revert p.
  change (moves (fun p p' => lcrStep (pr_Index r) (lastConsensusRound p)
                                    (lastConsensusRound p'))
                (processDecidedRound budget r)).
  pose proof (fun p : Poset S => lcrStep_refl (pr_Index r) (lastConsensusRound p)) as Hr.
  pose proof (fun p1 p2 p3 : Poset S =>
     lcrStep_trans (pr_Index r) (lastConsensusRound p1) (lastConsensusRound p2)
                   (lastConsensusRound p3)) as Ht.
  assert (Hk : forall A (m : M S A), keeps lastConsensusRound m ->
     moves (fun p p' => lcrStep (pr_Index r) (lastConsensusRound p) (lastConsensusRound p')) m).
  { intros A m. apply moves_keeps. intros s s' ->. by left. }
  unfold processDecidedRound.
  destruct (negb (pr_Decided r)); [by apply moves_ret|].
  apply moves_bind; [done | by apply Hk, keeps_gets |]. intros p0.
  destruct (bool_decide _); [by apply moves_ret|].
  apply moves_bind; [done | |]; [apply Hk, keeps_wrapErr, keeps_GetFrame; done|].
  intros frame.
  apply moves_bind; [done | by apply Hk, keeps_gets |]. intros p1.
  apply moves_bind; [done | by apply Hk, keeps_liftRes |]. intros _.
  apply moves_bind; [done | |].
  { apply Hk. unfold sendBlock. keeps_auto;
      first [ apply keeps_lcr_commitFrameEvents | apply keeps_storeWrite; done
            | apply keeps_modify; intros; by repeat case_match ]. }
  intros _. intros p2. unfold bind at 1. simpl.
  destruct (lastConsensusRound p2) as [l|] eqn:El.
  - destruct (l <? pr_Index r) eqn:E.
    + apply Z.ltb_lt in E. right. split; [|done].
      unfold setLastConsensusRound, bind, modify; simpl. by case_match.
    + left. simpl. done.
  - right. split; [|done].
    unfold setLastConsensusRound, bind, modify; simpl. by case_match.
Qed.

Lemma processRounds_lcr budget rs k p :
  lcrLe (lastConsensusRound p)
        (lastConsensusRound (snd (processRounds budget rs k p))).
Proof.
  revert k p. induction rs as [|r rs IH]; intros k p; simpl.
  - by destruct (lastConsensusRound p); simpl.
  - pose proof (processDecidedRound_lcr budget r p) as Hstep%lcrStep_le.
    destruct (processDecidedRound budget r p) as [[[]| | |] p']; simpl in *; try done.
    all: eapply lcrLe_trans; [exact Hstep | apply IH].
Qed.

(** C10.  Over a run of [ProcessDecidedRounds], however it ends, the last
    consensus round does not decrease (once set it stays set).  In each
    turn of its loop the value is either left alone or overwritten with
    the index of the round being processed, and the latter only when it
    was unset or strictly smaller; so a round at or below the last
    consensus round leaves it unchanged. *)
Theorem ProcessDecidedRounds_lcr_monotone budget p :
  lcrLe (lastConsensusRound p) (lastConsensusRound (snd (ProcessDecidedRounds budget p))) /\
  (forall r : pendingRound,
     let p' := snd (processDecidedRound budget r p) in
     lastConsensusRound p' = lastConsensusRound p \/
     (lastConsensusRound p' = Some (pr_Index r) /\
      match lastConsensusRound p with
      | None => True
      | Some l => l < pr_Index r
      end)).
Proof.
  split.
  - unfold ProcessDecidedRounds.
    pose proof (processRounds_lcr budget (pendingRounds p) 0 p) as Hle.
    destruct (processRounds budget (pendingRounds p) 0 p) as [[o k] p']. exact Hle.
  - intros r. apply processDecidedRound_lcr.
Qed.
End ProcessDecidedRoundsFacts.

(** ** ProcessSigPool *)
Section ProcessSigPoolFacts.
Context `{Lib} {S : Type} `{Store S}.
Implicit Types (p : Poset S) (bs : BlockSignature) (pool : list BlockSignature).

Lemma processSignature_total bs p :
  exists step p',
    processSignature bs p = (Ok step, p') /\
    sigPool p' = sigPool p /\ participants p' = participants p.
Proof.
  unfold processSignature, bind, gets, ret, storeWrite, SetAnchorBlock, modify, id.
  destruct (peers_ByPubKey (participants p) !! sprintf0xX (bs_Validator bs));
    [|by repeat eexists].
  destruct (match anchorBlock p with Some a => a <? bs_Index bs | None => true end);
    [|by repeat eexists].
  destruct (GetBlock (store p) (bs_Index bs)) as [block|]; [|by repeat eexists].
  destruct (blockVerify block bs) as [[]|]; [|by repeat eexists..].
  destruct (SetBlock (store p) (SetSignature block bs)) as [s' e].
  destruct (_ && _); by repeat eexists.
Qed.

(** The meaning of the steps, read off the state the signature is
    processed in. *)
Lemma processSignature_spec bs p :
  let known := peers_ByPubKey (participants p) !! sprintf0xX (bs_Validator bs) in
  let above := match anchorBlock p with None => true | Some a => a <? bs_Index bs end in
  match fst (processSignature bs p) with
  | Ok UnknownValidator => known = None
  | Ok BelowAnchor => is_Some known /\ above = false
  | Ok BlockNotFound =>
      is_Some known /\ above = true /\ exists e, GetBlock (store p) (bs_Index bs) = RErr e
  | Ok (VerifyFailed err) =>
      is_Some known /\ above = true /\
      exists block, GetBlock (store p) (bs_Index bs) = ROk block /\
                    blockVerify block bs = RErr err
  | Ok InvalidSignature =>
      is_Some known /\ above = true /\
      exists block, GetBlock (store p) (bs_Index bs) = ROk block /\
                    blockVerify block bs = ROk false
  | Ok Attached =>
      is_Some known /\ above = true /\
      exists block, GetBlock (store p) (bs_Index bs) = ROk block /\
                    blockVerify block bs = ROk true /\
                    store (snd (processSignature bs p))
                    = fst (SetBlock (store p) (SetSignature block bs))
  | _ => False
  end.
Proof.
  unfold processSignature, bind, gets, ret, storeWrite, SetAnchorBlock, modify, id.
  cbv zeta.
  destruct (peers_ByPubKey (participants p) !! sprintf0xX (bs_Validator bs)); [|done].
  destruct (match anchorBlock p with Some a => a <? bs_Index bs | None => true end);
    [|by cbn [fst snd]; eauto].
  destruct (GetBlock (store p) (bs_Index bs)) as [block|]; [|by cbn [fst snd]; eauto 10].
  destruct (blockVerify block bs) as [[]|] eqn:Hv; [|by cbn [fst snd]; eauto 10..].
  destruct (SetBlock (store p) (SetSignature block bs)) as [s' e] eqn:Hsb.
  destruct (_ && _); cbn [fst snd store set_store set_anchorBlock];
    (split; [by eexists|]); (split; [done|]); exists block; by rewrite Hsb.
Qed.

(** The marks the loop leaves: those it started with, and the positions
    whose step marks them. *)
Lemma processSigLoop_marks pool (i : Z) (marks : gmap Z bool) p :
  exists marks' err p',
    processSigLoop pool i marks p = (Ok (marks', err), p') /\
    sigPool p' = sigPool p /\
    forall k : Z,
      marks' !! k = None <->
      marks !! k = None /\
      ~ (i <= k /\ marked (sigSteps pool p !! Z.to_nat (k - i))).
Proof.
  revert i marks p. induction pool as [|bs pool IH]; intros i marks p.
  - exists marks, None, p. repeat split; try done.
    + intros [_ [?|?]]; done.
    + by intros [? _].
  - destruct (processSignature_total bs p) as (step & p1 & Hstep & Hpool & _).
    cbn [processSigLoop sigSteps].
    unfold bind at 1. rewrite Hstep.
    assert (Hshift : forall k, i + 1 <= k ->
              Z.to_nat (k - i) = Datatypes.S (Z.to_nat (k - (i + 1)))) by (intros; lia).
    assert (Hhead : forall k, i <= k -> ~ i + 1 <= k -> Z.to_nat (k - i) = 0%nat)
      by (intros; lia).
    destruct step.
    all: try (destruct (IH (i + 1) marks p1) as (marks' & err & p' & Hloop & Hp' & Hk);
              exists marks', err, p'; split; [exact Hloop|]; split; [congruence|];
              intros k; rewrite Hk; split; intros [Hm Hn]; (split; [done|]);
              intros [Hik Hmk]; apply Hn;
              [ destruct (decide (i + 1 <= k)) as [Hle|Hnle];
                [ split; [done|]; by rewrite Hshift in Hmk
                | rewrite Hhead in Hmk by done; destruct Hmk; done ]
              | split; [lia|]; rewrite Hshift by done; done ]).
    + (* BelowAnchor *)
      destruct (IH (i + 1) (<[i := true]> marks) p1) as (marks' & err & p' & Hloop & Hp' & Hk).
      exists marks', err, p'. split; [exact Hloop|]. split; [congruence|].
      intros k. rewrite Hk. destruct (decide (k = i)) as [->|Hne].
      * rewrite lookup_insert_eq. split; [by intros [? _]|].
        intros [_ Hn]. exfalso. apply Hn. split; [lia|].
        replace (Z.to_nat (i - i)) with 0%nat by lia. by left.
      * rewrite lookup_insert_ne by done.
        split; intros [Hm Hn]; (split; [done|]); intros [Hik Hmk]; apply Hn.
        -- split; [lia|]. by rewrite Hshift in Hmk by lia.
        -- split; [lia|]. by rewrite Hshift by lia.
    + (* VerifyFailed *)
      exists marks, (Some err), p1. split; [done|]. split; [done|].
      intros k. split; [|by intros [? _]].
      intros Hm. split; [done|]. intros [_ Hmk].
      destruct (Z.to_nat (k - i)); destruct Hmk; done.
    + (* Attached *)
      destruct (IH (i + 1) (<[i := true]> marks) p1) as (marks' & err & p' & Hloop & Hp' & Hk).
      exists marks', err, p'. split; [exact Hloop|]. split; [congruence|].
      intros k. rewrite Hk. destruct (decide (k = i)) as [->|Hne].
      * rewrite lookup_insert_eq. split; [by intros [? _]|].
        intros [_ Hn]. exfalso. apply Hn. split; [lia|].
        replace (Z.to_nat (i - i)) with 0%nat by lia. by right.
      * rewrite lookup_insert_ne by done.
        split; intros [Hm Hn]; (split; [done|]); intros [Hik Hmk]; apply Hn.
        -- split; [lia|]. by rewrite Hshift in Hmk by lia.
        -- split; [lia|]. by rewrite Hshift by lia.
Qed.

Lemma sigSteps_step pool p (i : nat) bs step :
  pool !! i = Some bs ->
  sigSteps pool p !! i = Some step ->
  exists pi, participants pi = participants p /\ fst (processSignature bs pi) = Ok step.
Proof.
  revert p i. induction pool as [|b pool IH]; intros p i Hb Hs; [done|].
  cbn [sigSteps] in Hs.
  destruct (processSignature_total b p) as (st0 & p1 & Hstep & _ & Hps).
  rewrite Hstep in Hs.
  destruct i as [|i].
  - simpl in Hb. injection Hb as ->. exists p. split; [done|]. rewrite Hstep.
    destruct st0; simpl in Hs; by injection Hs as ->.
  - simpl in Hb.
    assert (Hs' : sigSteps pool p1 !! i = Some step) by (destruct st0; done).
    destruct (IH p1 i Hb Hs') as (pi & Hpi & Hr). exists pi. split; [congruence | done].
Qed.

(** The step recorded at a position is the step of its signature in the
    state the loop is then in. *)
Lemma sigSteps_stateAt pool p (i : nat) bs step :
  pool !! i = Some bs ->
  sigSteps pool p !! i = Some step <->
  exists pi, sigStateAt pool p i = Some pi /\ fst (processSignature bs pi) = Ok step.
Proof.
  revert p i. induction pool as [|b pool IH]; intros p i Hb; [done|].
  cbn [sigSteps sigStateAt].
  destruct (processSignature_total b p) as (st0 & p1 & Hstep & _ & _).
  destruct i as [|i].
  - simpl in Hb. injection Hb as ->. rewrite Hstep. split.
    + intros Hs. exists p. split; [done|]. rewrite Hstep. cbn.
      destruct st0; simpl in Hs; by injection Hs as ->.
    + intros (pi & [= <-] & Hr). rewrite Hstep in Hr. cbn in Hr. injection Hr as ->.
      by destruct step.
  - simpl in Hb. rewrite Hstep. specialize (IH p1 i Hb).
    destruct st0; try exact IH.
    split; [done|]. by intros (pi & ? & _).
Qed.

(** A signature is marked exactly when the loop gets to it, its validator
    is a participant, and either its block index is not above the anchor
    block or its block is found and the signature verifies. *)
Lemma marked_spec pool p (i : nat) bs :
  pool !! i = Some bs ->
  marked (sigSteps pool p !! i) <->
  exists pi,
    sigStateAt pool p i = Some pi /\
    is_Some (peers_ByPubKey (participants pi) !! sprintf0xX (bs_Validator bs)) /\
    ((exists a, anchorBlock pi = Some a /\ bs_Index bs <= a) \/
     (exists block, GetBlock (store pi) (bs_Index bs) = ROk block /\
                    blockVerify block bs = ROk true)).
Proof.
  intros Hb. split.
  - intros Hm.
    assert (exists step, sigSteps pool p !! i = Some step /\
                         (step = BelowAnchor \/ step = Attached)) as (step & Hs & Hstep).
    { destruct Hm as [Hm|Hm]; eauto. }
    apply (sigSteps_stateAt _ _ _ _ _ Hb) in Hs as (pi & Hpi & Hr).
    exists pi. split; [done|].
    pose proof (processSignature_spec bs pi) as Hspec. rewrite Hr in Hspec.
    cbv zeta in Hspec. destruct Hstep as [-> | ->].
    + destruct Hspec as [Hk Ha]. split; [done|]. left.
      destruct (anchorBlock pi) as [a|]; [|done]. exists a. split; [done|].
      apply Z.ltb_ge in Ha. lia.
    + destruct Hspec as (Hk & _ & block & Hblock & Hv & _). split; [done|]. right. eauto.
  - intros (pi & Hpi & Hk & Hcase).
    destruct (processSignature_total bs pi) as (step & p1 & Hstep & _ & _).
    assert (Hs : sigSteps pool p !! i = Some step).
    { apply (sigSteps_stateAt _ _ _ _ _ Hb). exists pi. by rewrite Hstep. }
    rewrite Hs.
    pose proof (processSignature_spec bs pi) as Hspec. rewrite Hstep in Hspec.
    cbv zeta in Hspec. cbn [fst] in Hspec.
    destruct step; try (by left); try (by right); exfalso.
    + rewrite Hspec in Hk. by destruct Hk.
    + destruct Hspec as (_ & Ha & e & He).
      destruct Hcase as [(a & Hanchor & Hle)|(block & Hblock & _)]; [|congruence].
      rewrite Hanchor in Ha. apply Z.ltb_lt in Ha. lia.
    + destruct Hspec as (_ & Ha & block & Hblock & Hv).
      destruct Hcase as [(a & Hanchor & Hle)|(block' & Hblock' & Hv')]; [|congruence].
      rewrite Hanchor in Ha. apply Z.ltb_lt in Ha. lia.
    + destruct Hspec as (_ & Ha & block & Hblock & Hv).
      destruct Hcase as [(a & Hanchor & Hle)|(block' & Hblock' & Hv')]; [|congruence].
      rewrite Hanchor in Ha. apply Z.ltb_lt in Ha. lia.
Qed.

(** The pool [ProcessSigPool] leaves: the signatures whose block index is
    not a marked position. *)
Lemma ProcessSigPool_pool p :
  exists marks' : gmap Z bool,
    sigPool (snd (ProcessSigPool p))
    = filter (fun bs => marks' !! bs_Index bs = None) (sigPool p) /\
    forall k : Z,
      marks' !! k = None <-> ~ (0 <= k /\ marked (sigSteps (sigPool p) p !! Z.to_nat k)).
Proof.
  destruct (processSigLoop_marks (sigPool p) 0 ∅ p) as (marks' & err & p' & Hloop & Hp' & Hk).
  exists marks'. split.
  - unfold ProcessSigPool, bind, gets, id. rewrite Hloop.
    unfold removeProcessedSignatures, modify. cbn [fst snd].
    destruct err; cbn [fst snd sigPool set_sigPool]; by rewrite Hp'.
  - intros k. rewrite Hk, Z.sub_0_r. rewrite lookup_empty. tauto.
Qed.

(** Where the pool is read as it was marked.  Take a pool in which each
    signature's block index is its position.  After [ProcessSigPool]
    returns, with or without error, a signature of the pool at entry is
    gone exactly when the loop marked it, that is, when the loop got to
    it, its validator is a participant and either its block index is not
    above the anchor block, or its block was found and the signature
    verified (it was then attached).  A signature of an unknown validator
    stays in the pool, and so does one above the anchor block whose block
    is not known. *)
Lemma ProcessSigPool_removes_marked p (i : nat) bs :
  indexedByPosition (sigPool p) ->
  sigPool p !! i = Some bs ->
  (bs ∉ sigPool (snd (ProcessSigPool p)) <-> marked (sigSteps (sigPool p) p !! i)) /\
  (marked (sigSteps (sigPool p) p !! i) <->
   exists pi,
     sigStateAt (sigPool p) p i = Some pi /\
     is_Some (peers_ByPubKey (participants pi) !! sprintf0xX (bs_Validator bs)) /\
     ((exists a, anchorBlock pi = Some a /\ bs_Index bs <= a) \/
      (exists block, GetBlock (store pi) (bs_Index bs) = ROk block /\
                     blockVerify block bs = ROk true))) /\
  (peers_ByPubKey (participants p) !! sprintf0xX (bs_Validator bs) = None ->
   bs ∈ sigPool (snd (ProcessSigPool p))) /\
  (forall pi e,
     sigStateAt (sigPool p) p i = Some pi ->
     GetBlock (store pi) (bs_Index bs) = RErr e ->
     match anchorBlock pi with Some a => a < bs_Index bs | None => True end ->
     bs ∈ sigPool (snd (ProcessSigPool p))).
Proof.
  intros Hidx Hb.
  destruct (ProcessSigPool_pool p) as (marks' & -> & Hk).
  assert (Hin : bs ∈ sigPool p) by (apply list_elem_of_lookup; eauto).
  assert (Hiff : bs ∉ filter (fun bs => marks' !! bs_Index bs = None) (sigPool p)
                 <-> marked (sigSteps (sigPool p) p !! i)).
  { rewrite list_elem_of_filter. rewrite (Hidx i bs Hb).
    specialize (Hk (Z.of_nat i)). rewrite Nat2Z.id in Hk. split.
    - intros Hn. destruct (decide (marks' !! Z.of_nat i = None)) as [Hm|Hm].
      + exfalso. apply Hn. done.
      + destruct (sigSteps (sigPool p) p !! i) as [[]|] eqn:E;
          try (by left); try (by right);
          exfalso; apply Hm, Hk; intros [_ [?|?]]; done.
    - intros Hm [Hnone _]. apply Hk in Hnone. apply Hnone. split; [lia | done]. }
  split; [exact Hiff|].
  split; [by apply marked_spec|].
  assert (Hstay : ~ marked (sigSteps (sigPool p) p !! i) ->
                  bs ∈ filter (fun bs => marks' !! bs_Index bs = None) (sigPool p)).
  { intros Hn. apply list_elem_of_filter. split; [|done].
    rewrite (Hidx i bs Hb). apply Hk. rewrite Nat2Z.id. intros [_ ?]. done. }
  split.
  - intros Hunknown. apply Hstay. intros Hm.
    assert (exists step, sigSteps (sigPool p) p !! i = Some step /\
                         (step = BelowAnchor \/ step = Attached)) as (step & Hs & Hstep).
    { destruct Hm as [Hm|Hm]; eauto. }
    destruct (sigSteps_step _ _ _ _ _ Hb Hs) as (pi & Hpi & Hr).
    pose proof (processSignature_spec bs pi) as Hspec. rewrite Hr in Hspec.
    cbv zeta in Hspec. rewrite Hpi, Hunknown in Hspec.
    destruct Hstep as [-> | ->]; destruct Hspec as [[? ?] _]; done.
  - intros pi e Hpi Hblock Habove. apply Hstay. intros Hm.
    apply (marked_spec _ _ _ _ Hb) in Hm as (pi' & Hpi' & _ & Hcase).
    assert (pi' = pi) as -> by congruence.
    destruct Hcase as [(a & Ha & Hle)|(block & Hblock' & _)]; [|congruence].
    rewrite Ha in Habove. lia.
Qed.
End ProcessSigPoolFacts.

(** The loop only logs an unknown validator and goes on: the signature of
    the unknown validator 0x0D, alone in the pool, is still there when
    [ProcessSigPool] has returned without error. *)
Lemma ProcessSigPool_keeps_unknown_validator :
  peers_ByPubKey (participants (withPool [sigByD 0]))
    !! sprintf0xX (bs_Validator (sigByD 0)) = None /\
  fst (ProcessSigPool (withPool [sigByD 0])) = Ok tt /\
  sigPool (snd (ProcessSigPool (withPool [sigByD 0]))) = [sigByD 0].
Proof. vm_compute. repeat split. Qed.

(** The pool holds A's valid signature of block 0 and, at position 1, a
    signature of the unknown validator for block 1: the first is attached
    and leaves the pool, the second stays. *)
Lemma ProcessSigPool_removes_marked_witness :
  sigPool (snd (ProcessSigPool (withPool [sigByA 0; sigByD 1]))) = [sigByD 1] /\
  (sigByA 0 ∉ sigPool (snd (ProcessSigPool (withPool [sigByA 0; sigByD 1])))
   <-> marked (sigSteps [sigByA 0; sigByD 1] (withPool [sigByA 0; sigByD 1]) !! 0%nat)).
Proof.
  split; [vm_compute; reflexivity|].
  apply (ProcessSigPool_removes_marked (withPool [sigByA 0; sigByD 1]) 0 (sigByA 0)).
  - intros [|[|i]] bs Hbs; vm_compute in Hbs; [by injection Hbs as <-..|discriminate].
  - reflexivity.
Defined.

(** The map of processed signatures is filled by pool position and read
    by block index.  Here the unknown validator's signature for block 1
    sits at position 0 and A's valid signature of block 0 at position 1:
    position 1 is marked, so the signature for block 1 is dropped and the
    attached one stays. *)
Lemma ProcessSigPool_position_read_as_index :
  sigSteps [sigByD 1; sigByA 0] (withPool [sigByD 1; sigByA 0])
    = [UnknownValidator; Attached] /\
  sigPool (snd (ProcessSigPool (withPool [sigByD 1; sigByA 0]))) = [sigByA 0].
Proof. vm_compute. repeat split. Qed.

(** C7.  [ProcessSigPool] is to remove from the pool a signature it has
    attached to its block.  Here the pool holds one signature, A's valid
    signature of block 1, and the store holds block 1.  The pass returns
    without error; it has attached the signature, block 1 as stored now
    carries it, and position 0 of the pool is recorded as processed.  But
    the pool is then filtered by block index, and block index 1 is not a
    recorded position: the attached signature is still in the pool, and a
    second pass finds it there again. *)
Theorem ProcessSigPool_attached_stays_pooled :
  let p := laterBlockPoset in
  let p' := snd (ProcessSigPool p) in
  sigPool p = [sigByA 1] /\
  peers_ByPubKey (participants p) !! sprintf0xX (bs_Validator (sigByA 1)) <> None /\
  sigSteps (sigPool p) p = [Attached] /\
  fst (processSigLoop (sigPool p) 0 ∅ p) = Ok ({[ 0 := true ]}, None) /\
  fst (ProcessSigPool p) = Ok tt /\
  match GetBlock (store p') 1 with
  | ROk block => blk_Signatures block !! "0x0A" = Some "v"
  | RErr _ => False
  end /\
  sigPool p' = [sigByA 1] /\
  sigPool (snd (ProcessSigPool p')) = [sigByA 1].
Proof.
  cbv zeta. split; [reflexivity|]. split; [vm_compute; discriminate|].
  do 5 (split; [vm_compute; reflexivity|]). vm_compute. reflexivity.
Qed.

(** ** Invariants of the caches *)
Section Sound.
Context {St : Type}.
Variable I : St -> Prop.

Lemma sound_ret {A} (a : A) (R : A -> Prop) : R a -> sound I (ret a) R.
Proof. intros Ha s Hs. split; [done|]. by intros a' [= <-]. Qed.

Lemma sound_fail {A} e (R : A -> Prop) : sound I (fail e) R.
Proof. intros s Hs. by split. Qed.

Lemma sound_panic {A} (R : A -> Prop) : sound I panic R.
Proof. intros s Hs. by split. Qed.

Lemma sound_nofuel {A} (R : A -> Prop) : sound I nofuel R.
Proof. intros s Hs. by split. Qed.

Lemma sound_bind {A B} (m : ST St A) (k : A -> ST St B) (R1 : A -> Prop) (R2 : B -> Prop) :
  sound I m R1 -> (forall a, R1 a -> sound I (k a) R2) -> sound I (bind m k) R2.
Proof.
  intros Hm Hk s Hs. unfold bind. destruct (Hm s Hs) as [Hs' Ha].
  destruct (m s) as [[a| | |] s']; simpl in *; try done.
  apply Hk; [by apply Ha | done].
Qed.

Lemma sound_catch {A} (m : ST St A) (R : A -> Prop) :
  sound I m R -> sound I (catch m) (fun r => forall a, r = ROk a -> R a).
Proof.
  intros Hm s Hs. unfold catch. destruct (Hm s Hs) as [Hs' Ha].
  destruct (m s) as [[a| | |] s']; simpl in *; try done.
  - split; [done|]. intros r [= <-] a' [= <-]. by apply Ha.
  - split; [done|]. by intros r [= <-] a' [=].
Qed.

Lemma sound_weaken {A} (m : ST St A) (R R' : A -> Prop) :
  sound I m R -> (forall a, R a -> R' a) -> sound I m R'.
Proof. intros Hm HR s Hs. destruct (Hm s Hs) as [? Ha]. split; [done|]. eauto. Qed.

Lemma sound_liftRes {A} (r : res A) (R : A -> Prop) :
  (forall a, r = ROk a -> R a) -> sound I (liftRes r) R.
Proof. destruct r; intros Hr; [apply sound_ret; eauto | apply sound_fail]. Qed.
End Sound.

Section Preserves.
Context {St : Type}.
Variable I : St -> Prop.

Lemma preserves_ret {A} (a : A) : preserves I (ret a).
Proof. by apply sound_ret. Qed.

Lemma preserves_fail {A} e : preserves I (@fail St A e).
Proof. apply sound_fail. Qed.

Lemma preserves_panic {A} : preserves I (@panic St A).
Proof. apply sound_panic. Qed.

Lemma preserves_nofuel {A} : preserves I (@nofuel St A).
Proof. apply sound_nofuel. Qed.

Lemma preserves_liftRes {A} (r : res A) : preserves I (liftRes r).
Proof. by apply sound_liftRes. Qed.

Lemma preserves_bind {A B} (m : ST St A) (k : A -> ST St B) :
  preserves I m -> (forall a, preserves I (k a)) -> preserves I (bind m k).
Proof. intros Hm Hk. eapply sound_bind; [exact Hm|]. intros a _. apply Hk. Qed.

Lemma preserves_catch {A} (m : ST St A) : preserves I m -> preserves I (catch m).
Proof. intros Hm. eapply sound_weaken; [by apply sound_catch | done]. Qed.

Lemma preserves_sound {A} (m : ST St A) R : sound I m R -> preserves I m.
Proof. intros Hm. by eapply sound_weaken. Qed.
End Preserves.

Create HintDb preserves.

#[export] Hint Resolve preserves_ret preserves_fail preserves_panic preserves_nofuel
  preserves_liftRes : preserves.

Ltac preserves_step :=
  match goal with
  | |- preserves _ (bind _ _) => apply preserves_bind; [|intros ?]
  | |- preserves _ (catch _) => apply preserves_catch
  | |- preserves _ (match ?x with _ => _ end) => destruct x
  | |- preserves _ (if ?x then _ else _) => destruct x
  | |- preserves _ (let '(_, _) := ?x in _) => destruct x
  | |- preserves _ _ => solve [eauto with preserves]
  end.

Ltac preserves_auto := cbv zeta; repeat preserves_step.

Lemma length_zero_empty (x : string) : String.length x = 0%nat <-> x = "".
Proof. by destruct x. Qed.

(** ** The caches hold no empty key *)

Section NoEmptyKeys.
Context {S : Type} `{Store S}.
Variable st : S.
Variable participants : Peers.
Variable superMajority : Z.
Variable budget : nat.

Lemma noEmptyKeys_new (a b : nat) ssc rc tc :
  noEmptyKeys (mkCaches (mkLru a []) (mkLru b []) ssc rc tc).
Proof. split; intros x y v; by cbn. Qed.

Lemma noEmptyKeys_get_ancestor k :
  preserves noEmptyKeys (cacheGet ancestorCache set_ancestorCache k).
Proof.
  intros c [Ha Hs]. split; [|done]. unfold cacheGet.
  pose proof (lru_peek_get (ancestorCache c) k) as Hp.
  destruct (lru_get (ancestorCache c) k) as [v l]. simpl in *.
  split; [|done]. intros x y b. rewrite Hp. apply Ha.
Qed.

Lemma noEmptyKeys_get_selfAncestor k :
  preserves noEmptyKeys (cacheGet selfAncestorCache set_selfAncestorCache k).
Proof.
  intros c [Ha Hs]. split; [|done]. unfold cacheGet.
  pose proof (lru_peek_get (selfAncestorCache c) k) as Hp.
  destruct (lru_get (selfAncestorCache c) k) as [v l]. simpl in *.
  split; [done|]. intros x y b. rewrite Hp. apply Hs.
Qed.

Lemma noEmptyKeys_add_ancestor x y v :
  x <> "" -> y <> "" ->
  preserves noEmptyKeys (cacheAdd ancestorCache set_ancestorCache (x, y) v).
Proof.
  intros Hx Hy c [Ha Hs]. split; [|done]. unfold cacheAdd. simpl.
  split; [|done]. intros x' y' b [[[= -> ->] _]|[_ Hp]]%lru_peek_add; [done|].
  by eapply Ha.
Qed.

Lemma noEmptyKeys_add_selfAncestor x y v :
  x <> "" -> y <> "" ->
  preserves noEmptyKeys (cacheAdd selfAncestorCache set_selfAncestorCache (x, y) v).
Proof.
  intros Hx Hy c [Ha Hs]. split; [|done]. unfold cacheAdd. simpl.
  split; [done|]. intros x' y' b [[[= -> ->] _]|[_ Hp]]%lru_peek_add; [done|].
  by eapply Hs.
Qed.

(** The three other caches do not matter. *)
Lemma noEmptyKeys_set_timestampCache l c :
  noEmptyKeys c -> noEmptyKeys (set_timestampCache l c).
Proof. done. Qed.

Lemma noEmptyKeys_set_roundCache l c : noEmptyKeys c -> noEmptyKeys (set_roundCache l c).
Proof. done. Qed.

Lemma noEmptyKeys_set_stronglySeeCache l c :
  noEmptyKeys c -> noEmptyKeys (set_stronglySeeCache l c).
Proof. done. Qed.

Lemma noEmptyKeys_timestampCache_get k :
  preserves noEmptyKeys (cacheGet timestampCache set_timestampCache k).
Proof.
  intros c Hc. split; [|done]. unfold cacheGet.
  destruct (lru_get (timestampCache c) k). by apply noEmptyKeys_set_timestampCache.
Qed.

Lemma noEmptyKeys_timestampCache_add k v :
  preserves noEmptyKeys (cacheAdd timestampCache set_timestampCache k v).
Proof. intros c Hc. split; [|done]. by apply noEmptyKeys_set_timestampCache. Qed.

Lemma noEmptyKeys_roundCache_get k :
  preserves noEmptyKeys (cacheGet roundCache set_roundCache k).
Proof.
  intros c Hc. split; [|done]. unfold cacheGet.
  destruct (lru_get (roundCache c) k). by apply noEmptyKeys_set_roundCache.
Qed.

Lemma noEmptyKeys_roundCache_add k v :
  preserves noEmptyKeys (cacheAdd roundCache set_roundCache k v).
Proof. intros c Hc. split; [|done]. by apply noEmptyKeys_set_roundCache. Qed.

Lemma noEmptyKeys_stronglySeeCache_get k :
  preserves noEmptyKeys (cacheGet stronglySeeCache set_stronglySeeCache k).
Proof.
  intros c Hc. split; [|done]. unfold cacheGet.
  destruct (lru_get (stronglySeeCache c) k). by apply noEmptyKeys_set_stronglySeeCache.
Qed.

Lemma noEmptyKeys_stronglySeeCache_add k v :
  preserves noEmptyKeys (cacheAdd stronglySeeCache set_stronglySeeCache k v).
Proof. intros c Hc. split; [|done]. by apply noEmptyKeys_set_stronglySeeCache. Qed.
End NoEmptyKeys.

Section NoEmptyKeysPreserved.
Context `{Lib} {S : Type} `{Store S}.
Variable st : S.
Variable participants : Peers.
Variable superMajority : Z.
Variable budget : nat.

#[local] Hint Resolve noEmptyKeys_get_ancestor noEmptyKeys_get_selfAncestor
  noEmptyKeys_timestampCache_get noEmptyKeys_timestampCache_add
  noEmptyKeys_roundCache_get noEmptyKeys_roundCache_add
  noEmptyKeys_stronglySeeCache_get noEmptyKeys_stronglySeeCache_add : preserves.

Lemma noEmptyKeys_peerPubKeyById id :
  preserves noEmptyKeys (peerPubKeyById participants id).
Proof. unfold peerPubKeyById. preserves_auto. Qed.

Lemma noEmptyKeys_lamportTimestampN n x :
  preserves noEmptyKeys (lamportTimestampN st n x).
Proof.
  revert x. induction n as [|n IH]; intros x; cbn [lamportTimestampN];
    unfold lamportTimestamp2; preserves_auto.
Qed.

Lemma noEmptyKeys_lamportTimestampDiff x y :
  preserves noEmptyKeys (lamportTimestampDiff st budget x y).
Proof.
  unfold lamportTimestampDiff, lamportTimestamp. preserves_auto;
    apply noEmptyKeys_lamportTimestampN.
Qed.

Lemma noEmptyKeys_ancestor2 rec x y :
  (forall x' y', preserves noEmptyKeys (rec x' y')) ->
  preserves noEmptyKeys (ancestor2 st participants budget rec x y).
Proof.
  intros Hrec. unfold ancestor2. preserves_auto;
    first [apply noEmptyKeys_lamportTimestampDiff | apply noEmptyKeys_peerPubKeyById
          | apply Hrec].
Qed.

Lemma noEmptyKeys_ancestorN n x y :
  preserves noEmptyKeys (ancestorN st participants budget n x y).
Proof.
  revert x y. induction n as [|n IH]; intros x y; cbn [ancestorN].
  all: apply preserves_bind; [apply noEmptyKeys_get_ancestor|]; intros [b|];
    [apply preserves_ret|].
  all: destruct (decide _) as [|Hne]; [apply preserves_ret|].
  all: apply preserves_bind;
    [ apply noEmptyKeys_ancestor2; first [exact IH | intros; apply preserves_nofuel] |].
  all: intros a; apply preserves_bind; [|intros; apply preserves_ret].
  all: apply noEmptyKeys_add_ancestor; intros ->; apply Hne; auto.
Qed.

Lemma noEmptyKeys_see x y : preserves noEmptyKeys (see st participants budget x y).
Proof. apply noEmptyKeys_ancestorN. Qed.

Lemma noEmptyKeys_selfAncestor x y :
  preserves noEmptyKeys (selfAncestor st participants x y).
Proof.
  unfold selfAncestor.
  apply preserves_bind; [apply noEmptyKeys_get_selfAncestor|]; intros [b|];
    [apply preserves_ret|].
  destruct (decide _) as [|Hne]; [apply preserves_ret|].
  apply preserves_bind.
  - unfold selfAncestor2. preserves_auto; apply noEmptyKeys_peerPubKeyById.
  - intros a; apply preserves_bind; [|intros; apply preserves_ret].
    apply noEmptyKeys_add_selfAncestor; intros ->; apply Hne; auto.
Qed.

Lemma noEmptyKeys_MapSentinelsN n x y sentinels :
  preserves noEmptyKeys (MapSentinelsN st participants budget n x y sentinels).
Proof.
  revert x y sentinels. induction n as [|n IH]; intros x y sentinels;
    cbn [MapSentinelsN]; preserves_auto;
    first [apply noEmptyKeys_see | apply noEmptyKeys_peerPubKeyById | apply IH].
Qed.

Lemma noEmptyKeys_stronglySee x y :
  preserves noEmptyKeys (stronglySee st participants superMajority budget x y).
Proof.
  unfold stronglySee, stronglySee2, MapSentinels. preserves_auto.
  apply noEmptyKeys_MapSentinelsN.
Qed.

Lemma noEmptyKeys_countSeenWitnesses ex k ws acc :
  preserves noEmptyKeys (countSeenWitnesses st participants budget ex k ws acc).
Proof.
  revert acc. induction ws as [|w ws IH]; intros acc; cbn [countSeenWitnesses];
    preserves_auto; apply noEmptyKeys_see.
Qed.

Lemma noEmptyKeys_countSeenFlagged ex ks ws acc :
  preserves noEmptyKeys (countSeenFlagged st participants budget ex ks ws acc).
Proof.
  revert acc. induction ks as [|k ks IH]; intros acc; cbn [countSeenFlagged];
    preserves_auto; apply noEmptyKeys_countSeenWitnesses.
Qed.

Lemma noEmptyKeys_isSee ex root ws :
  preserves noEmptyKeys (isSee st participants budget ex root ws).
Proof.
  induction ws as [|w ws IH]; cbn [isSee]; preserves_auto; apply noEmptyKeys_see.
Qed.

Lemma noEmptyKeys_countIsSee ex roots ws count :
  preserves noEmptyKeys (countIsSee st participants budget ex roots ws count).
Proof.
  revert count. induction roots as [|r roots IH]; intros count; cbn [countIsSee];
    preserves_auto; apply noEmptyKeys_isSee.
Qed.

Lemma noEmptyKeys_roundN n x :
  preserves noEmptyKeys (roundN st participants superMajority budget n x).
Proof.
  revert x. induction n as [|n IH]; intros x; cbn [roundN]; unfold round2;
    preserves_auto;
    first [apply noEmptyKeys_countIsSee | apply noEmptyKeys_countSeenFlagged].
Qed.

Lemma ancestor_empty_hash (c : Caches) (x y : string) :
  noEmptyKeys c -> x = "" \/ y = "" ->
  fst (ancestor st participants budget x y c) = Ok false.
Proof.
  intros [Ha _] Hxy.
  assert (Hpa : lru_peek (ancestorCache c) (x, y) = None).
  { destruct (lru_peek (ancestorCache c) (x, y)) as [b|] eqn:E; [|done].
    destruct (Ha _ _ _ E). destruct Hxy; done. }
  unfold ancestor. destruct budget; cbn [ancestorN];
    unfold bind, cacheGet; rewrite (lru_get_None _ _ Hpa);
    destruct (decide _) as [|Hn]; try done.
  all: exfalso; apply Hn; destruct Hxy as [-> | ->]; auto.
Qed.

Lemma selfAncestor_empty_hash (c : Caches) (x y : string) :
  noEmptyKeys c -> x = "" \/ y = "" ->
  fst (selfAncestor st participants x y c) = Ok false.
Proof.
  intros [_ Hs] Hxy.
  assert (Hps : lru_peek (selfAncestorCache c) (x, y) = None).
  { destruct (lru_peek (selfAncestorCache c) (x, y)) as [b|] eqn:E; [|done].
    destruct (Hs _ _ _ E). destruct Hxy; done. }
  unfold selfAncestor, bind, cacheGet. rewrite (lru_get_None _ _ Hps).
  destruct (decide _) as [|Hn]; [done|].
  exfalso; apply Hn; destruct Hxy as [-> | ->]; auto.
Qed.

(** C9.  In an engine whose ancestor and self-ancestor caches hold no key
    with an empty component (they are created empty, and every graph
    computation keeps them so), [ancestor], [selfAncestor] and
    [stronglySee] return [false], without error, as soon as one of the two
    hashes is the empty string. *)
Theorem empty_hash_predicates (c : Caches) (x y : string) :
  noEmptyKeys c ->
  x = "" \/ y = "" ->
  fst (ancestor st participants budget x y c) = Ok false /\
  fst (selfAncestor st participants x y c) = Ok false /\
  fst (stronglySee st participants superMajority budget x y c) = Ok false.
Proof.
  intros Hc Hxy.
  split; [by apply ancestor_empty_hash|].
  split; [by apply selfAncestor_empty_hash|].
  unfold stronglySee. destruct (decide _) as [|Hn]; [done|].
  exfalso; apply Hn; destruct Hxy as [-> | ->]; auto.
Qed.
End NoEmptyKeysPreserved.

(** The invariant is established by [NewPoset] and kept by [Reset]. *)
Lemma NewPoset_noEmptyKeys {S : Type} `{Store S} ps (s : S) ch p :
  NewPoset ps s ch = Some p -> noEmptyKeys (caches p).
Proof.
  unfold NewPoset, newCache. destruct (CacheSize s <=? 0); [done|].
  intros [= <-]. apply noEmptyKeys_new.
Qed.

Lemma Reset_noEmptyKeys `{Lib} {S : Type} `{Store S} block frame (p : Poset S) :
  noEmptyKeys (caches p) -> noEmptyKeys (caches (snd (Reset block frame p))).
Proof.
  intros Hp. unfold Reset, clearLastConsensusRound, clearFirstConsensusRound,
    clearAnchorBlock, setUndeterminedEvents, clearPendingRounds,
    clearPendingLoadedEvents, clearTopologicalIndex, newCache.
  unfold bind at 1 2 3 4 5 6 7 8. unfold modify at 1 2 3 4 5 6 7. unfold gets, id.
  cbn [store set_store set_lastConsensusRound set_firstConsensusRound set_anchorBlock
       set_undeterminedEvents set_pendingRounds set_pendingLoadedEvents
       set_topologicalIndex].
  destruct (CacheSize (store p) <=? 0); [exact Hp|].
  cbn [liftOpt]. unfold bind at 1 2 3 4 5. unfold ret at 1 2 3 4. unfold modify at 1.
  set (p1 := set_caches _ _).
  assert (Hp1 : noEmptyKeys (caches p1)) by (split; intros x y v; by cbn).
  clearbody p1.
  assert (Hrest : forall (m : M S unit), keeps caches m ->
            noEmptyKeys (caches (snd (m p1)))) by (intros m ->; done).
  match goal with |- noEmptyKeys (caches (snd (?m p1))) => apply (Hrest m) end.
  unfold setLastConsensusRound. keeps_auto;
    first [ apply keeps_storeWrite; done
          | apply keeps_modify; intros; by repeat case_match
          | apply insertFrameEvents_keeps_caches ].
Qed.

Lemma empty_hash_predicates_witness :
  fst (ancestor demoStore demoPeers 5 "" "0xE0" demoCaches) = Ok false /\
  fst (selfAncestor demoStore demoPeers "" "0xE0" demoCaches) = Ok false /\
  fst (stronglySee demoStore demoPeers 3 5 "" "0xE0" demoCaches) = Ok false.
Proof.
  apply (empty_hash_predicates demoStore demoPeers 3 5 demoCaches "" "0xE0").
  - split; intros x y b Hb; vm_compute in Hb; discriminate.
  - left. reflexivity.
Defined.

(** ** The memoised predicates compute the cache-free relations *)
Section TimestampSound.
Context {S : Type} `{Store S}.
Variable st : S.
Variable participants : Peers.

(** The cache-free timestamp of an event is unique. *)
Lemma LT_det x t1 t2 : LT st x t1 -> LT st x t2 -> t1 = t2.
Proof.
  intros H1. revert t2.
  induction H1 as [x r Hr | x ex root plt opLT Hx Hex Hroot Hsp1 Hsp2 IHsp Hop1 IHop Hop2];
    intros t2 H2.
  - inversion H2; subst; congruence.
  - inversion H2 as [|x' ex' root' plt' opLT' Hx' Hex' Hroot' Hsp1' Hsp2' Hop1' Hop2'];
      subst; [congruence|].
    assert (ex' = ex) as -> by congruence.
    assert (root' = root) as -> by congruence.
    assert (plt = plt') as <-.
    { destruct (decide (SelfParent ex = re_Hash (root_SelfParent root))) as [E|E].
      - rewrite Hsp1, Hsp1'; done.
      - apply IHsp; auto. }
    destruct (decide (OtherParent ex = "")) as [E|E]; [done|].
    assert (opLT = opLT') as <-; [|done].
    destruct (GetEvent st (OtherParent ex)) as [eo|e] eqn:Eo.
    + apply IHop; eauto.
    + rewrite Hop2, Hop2'; eauto.
Qed.

Lemma max_by_ltb (a b : Z) : (if a <? b then b else a) = Z.max a b.
Proof. destruct (a <? b) eqn:E; [apply Z.ltb_lt in E | apply Z.ltb_ge in E]; lia. Qed.

Lemma coherent_set_timestampCache l c :
  coherent st participants c ->
  (forall x t, lru_peek l x = Some t -> LT st x t) ->
  coherent st participants (set_timestampCache l c).
Proof. intros [Ht Ha] Hl. split; [exact Hl | exact Ha]. Qed.

Lemma coherent_timestampCache_get x :
  sound (coherent st participants) (cacheGet timestampCache set_timestampCache x)
        (fun c => forall t, c = Some t -> LT st x t).
Proof.
  intros c Hc. unfold cacheGet.
  pose proof (lru_get_peek (timestampCache c) x) as Hf.
  pose proof (lru_peek_get (timestampCache c) x) as Hp.
  destruct (lru_get (timestampCache c) x) as [v l]. simpl in *. split.
  - apply coherent_set_timestampCache; [done|]. intros y t. rewrite Hp. apply Hc.
  - intros a [= <-] t ->. by apply Hc.
Qed.

Lemma coherent_timestampCache_add x t :
  LT st x t ->
  preserves (coherent st participants) (cacheAdd timestampCache set_timestampCache x t).
Proof.
  intros Ht c Hc. split; [|done]. unfold cacheAdd. simpl.
  apply coherent_set_timestampCache; [done|].
  intros y t' [[-> ->]|[_ Hp]]%lru_peek_add; [done | by apply Hc].
Qed.

Lemma lamportTimestamp2_sound (rec : string -> G Z) x :
  (forall y, sound (coherent st participants) (rec y) (LT st y)) ->
  sound (coherent st participants) (lamportTimestamp2 st rec x) (LT st x).
Proof.
  intros Hrec. unfold lamportTimestamp2.
  destruct (fst (RootsBySelfParent st) !! x) as [r|] eqn:Hx.
  { apply sound_ret. by apply LT_root. }
  eapply (sound_bind _ _ _ (fun ex => GetEvent st x = ROk ex)); [by apply sound_liftRes|].
  intros ex Hex.
  eapply (sound_bind _ _ _ (fun root => GetRoot st (Creator ex) = ROk root));
    [by apply sound_liftRes|].
  intros root Hroot.
  eapply (sound_bind _ _ _ (fun plt =>
     (SelfParent ex = re_Hash (root_SelfParent root) ->
      plt = re_LamportTimestamp (root_SelfParent root)) /\
     (SelfParent ex <> re_Hash (root_SelfParent root) -> LT st (SelfParent ex) plt))).
  { destruct (decide _) as [E|E].
    - apply sound_ret. by split.
    - eapply sound_weaken; [apply Hrec|]. intros plt Hplt. by split. }
  intros plt [Hsp1 Hsp2].
  destruct (decide (OtherParent ex = "")) as [Eop|Eop].
  { apply sound_ret.
    pose proof (LT_event st x ex root plt 0 Hx Hex Hroot Hsp1 Hsp2) as HLT.
    destruct (decide (OtherParent ex = "")); [|done]. apply HLT; done. }
  eapply (sound_bind _ _ _ (fun opLT =>
     ((exists eo, GetEvent st (OtherParent ex) = ROk eo) -> LT st (OtherParent ex) opLT) /\
     ((exists e, GetEvent st (OtherParent ex) = RErr e) -> opLT = otherRecorded x ex root))).
  { destruct (GetEvent st (OtherParent ex)) as [eo|e] eqn:Eo.
    - eapply sound_weaken; [apply Hrec|]. intros opLT HopLT.
      split; [done|]. by intros [? [=]].
    - unfold otherRecorded.
      destruct (root_Others root !! x) as [other|]; [destruct (decide _)|];
        apply sound_ret; (split; [by intros [? [=]] | done]). }
  intros opLT [Hop1 Hop2]. apply sound_ret. rewrite max_by_ltb.
  pose proof (LT_event st x ex root plt opLT Hx Hex Hroot Hsp1 Hsp2) as HLT.
  destruct (decide (OtherParent ex = "")); [done|]. apply HLT; auto.
Qed.

(** The memoised timestamp is the cache-free one, and the caches stay
    coherent. *)
Lemma lamportTimestampN_sound n x :
  sound (coherent st participants) (lamportTimestampN st n x) (LT st x).
Proof.
  revert x. induction n as [|n IH]; intros x; cbn [lamportTimestampN].
  all: eapply sound_bind; [apply coherent_timestampCache_get|]; intros [t|] Hc;
    [apply sound_ret; by apply Hc|].
  all: eapply sound_bind;
    [apply lamportTimestamp2_sound; first [exact IH | intros; apply sound_nofuel]|].
  all: intros r Hr; eapply (sound_bind _ _ _ (fun _ => True));
    [by apply coherent_timestampCache_add | intros; by apply sound_ret].
Qed.
End TimestampSound.

Section AncestorSound.
Context {S : Type} `{Store S}.
Variable st : S.
Variable participants : Peers.
Variable budget : nat.

Ltac anc_norm :=
  repeat match goal with
  | H : notOlder _ _ _ _ |- _ => destruct H as (? & ? & ? & ? & ? & ? & ?)
  | H : otherCreator _ _ _ _ |- _ =>
      destruct H as [(? & ? & ?)|(? & ? & ? & ? & ? & ? & ? & ? & ?)]
  | H1 : LT _ ?x ?a, H2 : LT _ ?x ?b |- _ =>
      assert_fails (constr_eq a b);
      assert (a = b) by (eapply LT_det; [exact H1 | exact H2]); subst
  | H1 : ?f = ROk ?a, H2 : ?f = ROk ?b |- _ =>
      assert_fails (constr_eq a b); assert (a = b) by congruence; subst
  | H1 : ?f = (?a, None), H2 : ?f = (?b, None) |- _ =>
      assert_fails (constr_eq a b); assert (a = b) by congruence; subst
  | H1 : ?f = Some ?a, H2 : ?f = Some ?b |- _ =>
      assert_fails (constr_eq a b); assert (a = b) by congruence; subst
  end; simplify_eq.

(** The cache-free ancestry answer is unique. *)
Lemma Anc_det x y b1 b2 : Anc st participants x y b1 -> Anc st participants x y b2 -> b1 = b2.
Proof.
  intros HA. revert b2.
  induction HA; intros b2 HB; inversion HB; subst; try done; anc_norm;
    try done; try lia; try congruence; eauto.
  all: try match goal with
    | IH : forall b, Anc _ _ ?u ?v b -> true = b, H : Anc _ _ ?u ?v false |- _ =>
        by specialize (IH _ H)
    | IH : forall b, Anc _ _ ?u ?v b -> false = b, H : Anc _ _ ?u ?v true |- _ =>
        by specialize (IH _ H)
    end.
Qed.

Lemma coherent_set_ancestorCache l c :
  coherent st participants c ->
  (forall x y b, lru_peek l (x, y) = Some b -> Anc st participants x y b) ->
  coherent st participants (set_ancestorCache l c).
Proof. intros [Ht Ha] Hl. split; [exact Ht | exact Hl]. Qed.

Lemma coherent_ancestorCache_get x y :
  sound (coherent st participants) (cacheGet ancestorCache set_ancestorCache (x, y))
        (fun c => forall b, c = Some b -> Anc st participants x y b).
Proof.
  intros c Hc. unfold cacheGet.
  pose proof (lru_get_peek (ancestorCache c) (x, y)) as Hf.
  pose proof (lru_peek_get (ancestorCache c) (x, y)) as Hp.
  destruct (lru_get (ancestorCache c) (x, y)) as [v l]. simpl in *. split.
  - apply coherent_set_ancestorCache; [done|]. intros x' y' b. rewrite Hp. apply Hc.
  - intros a [= <-] b ->. by apply Hc.
Qed.

Lemma coherent_ancestorCache_add x y b :
  Anc st participants x y b ->
  preserves (coherent st participants) (cacheAdd ancestorCache set_ancestorCache (x, y) b).
Proof.
  intros Hb c Hc. split; [|done]. unfold cacheAdd. simpl.
  apply coherent_set_ancestorCache; [done|].
  intros x' y' b' [[[= -> ->] ->]|[_ Hp]]%lru_peek_add; [done | by apply Hc].
Qed.

Lemma lamportTimestampDiff_sound x y :
  sound (coherent st participants) (lamportTimestampDiff st budget x y)
        (fun d => exists xlt ylt, LT st x xlt /\ LT st y ylt /\ d = wrap64 (ylt - xlt)).
Proof.
  unfold lamportTimestampDiff, lamportTimestamp.
  eapply sound_bind; [apply lamportTimestampN_sound|]. intros xlt Hx.
  eapply sound_bind; [apply lamportTimestampN_sound|]. intros ylt Hy.
  apply sound_ret. eauto.
Qed.

Lemma peerPubKeyById_sound (I : Caches -> Prop) id :
  sound I (peerPubKeyById participants id)
        (fun key => exists peer, peers_ById participants !! id = Some peer /\
                                 key = peer_PubKeyHex peer).
Proof.
  unfold peerPubKeyById. destruct (peers_ById participants !! id) as [peer|].
  - apply sound_ret. eauto.
  - apply sound_panic.
Qed.

Lemma ancestor2_sound (rec : string -> string -> G bool) x y :
  live x y ->
  (forall x' y', sound (coherent st participants) (rec x' y') (Anc st participants x' y')) ->
  sound (coherent st participants) (ancestor2 st participants budget rec x y)
        (Anc st participants x y).
Proof.
  intros Hlive Hrec. unfold ancestor2.
  destruct (decide (x = y)) as [->|Hxy]; [apply sound_ret; by apply Anc_refl|].
  destruct (GetEvent st x) as [ex|err] eqn:Hex.
  2: { destruct (RootsBySelfParent st) as [roots [err2|]] eqn:Hroots; [apply sound_fail|].
       pose proof (Anc_offStore st participants x y err roots Hlive Hxy Hex Hroots) as HA.
       destruct (firstOther (map_to_list roots) y); by apply sound_ret. }
  eapply sound_bind; [apply lamportTimestampDiff_sound|].
  intros d (xlt & ylt & Hx & Hy & ->).
  destruct (0 <? wrap64 (ylt - xlt)) eqn:Hd.
  { apply Z.ltb_lt in Hd. apply sound_ret. by eapply Anc_older. }
  apply Z.ltb_ge in Hd.
  assert (Hno : notOlder st x y ex) by (repeat split; eauto).
  assert (Hwalk : otherCreator st participants y ex ->
    sound (coherent st participants)
      (res <- rec (SelfParent ex) y;;
       if (res : bool) then ret true else rec (OtherParent ex) y)
      (Anc st participants x y)).
  { intros Hoc. eapply sound_bind; [apply Hrec|]. intros [] Hsp.
    - apply sound_ret. by eapply Anc_selfParent.
    - eapply sound_weaken; [apply Hrec|]. intros b Hop. by eapply Anc_otherParent. }
  cbv zeta.
  destruct (GetEvent st y) as [ey|err] eqn:Hey.
  - destruct (decide (Creator ex = Creator ey)) as [Hc|Hc].
    + apply sound_ret. by eapply Anc_sameCreator.
    + apply Hwalk. left. eauto.
  - destruct (RootsBySelfParent st) as [roots [err2|]] eqn:Hroots; [apply sound_fail|].
    destruct (roots !! y) as [root|] eqn:Hroot.
    2: { apply sound_ret. by eapply Anc_unknown. }
    eapply sound_bind; [apply peerPubKeyById_sound|].
    intros key (peer & Hpeer & ->).
    destruct (decide (Creator ex = peer_PubKeyHex peer)) as [Hc|Hc].
    + apply sound_ret. by eapply Anc_rootCreator.
    + apply Hwalk. right. eauto 10.
Qed.

(** The memoised ancestry answer is the cache-free one, and the caches
    stay coherent. *)
Lemma ancestorN_sound n x y :
  sound (coherent st participants) (ancestorN st participants budget n x y)
        (Anc st participants x y).
Proof.
  revert x y. induction n as [|n IH]; intros x y; cbn [ancestorN].
  all: eapply sound_bind; [apply coherent_ancestorCache_get|]; intros [b|] Hc;
    [apply sound_ret; by apply Hc|].
  all: destruct (decide _) as [He|Hne]; [apply sound_ret; apply Anc_empty; unfold live; tauto|].
  all: eapply sound_bind;
    [apply ancestor2_sound; first [done | exact IH | intros; apply sound_nofuel]|].
  all: intros a Ha; eapply (sound_bind _ _ _ (fun _ => True));
    [by apply coherent_ancestorCache_add | intros; by apply sound_ret].
Qed.

Lemma see_sound x y :
  sound (coherent st participants) (see st participants budget x y)
        (Anc st participants x y).
Proof. apply ancestorN_sound. Qed.
End AncestorSound.

(** ** Enough depth: the computations return *)

Section Returns.
Context {St : Type}.

Lemma returns_ret {A} (a : A) : returns (@ret St A a).
Proof. done. Qed.

Lemma returns_fail {A} e : returns (@fail St A e).
Proof. done. Qed.

Lemma returns_panic {A} : returns (@panic St A).
Proof. done. Qed.

Lemma returns_liftRes {A} (r : res A) : returns (@liftRes St A r).
Proof. by destruct r. Qed.

Lemma returns_liftOpt {A} (o : option A) : returns (@liftOpt St A o).
Proof. by destruct o. Qed.

Lemma returns_gets {A} (f : St -> A) : returns (gets f).
Proof. done. Qed.

Lemma returns_modify (f : St -> St) : returns (modify f).
Proof. done. Qed.

Lemma returns_bind {A B} (m : ST St A) (k : A -> ST St B) :
  returns m -> (forall a, returns (k a)) -> returns (bind m k).
Proof.
  intros Hm Hk s. unfold bind. specialize (Hm s).
  destruct (m s) as [[a| | |] s']; simpl in *; try done. apply Hk.
Qed.

Lemma returns_bind_liftRes {A B} (r : res A) (k : A -> ST St B) :
  (forall a, r = ROk a -> returns (k a)) -> returns (bind (liftRes r) k).
Proof. intros Hk. destruct r as [a|e]; [|done]. intros s. by apply Hk. Qed.

Lemma returns_catch {A} (m : ST St A) : returns m -> returns (catch m).
Proof.
  intros Hm s. unfold catch. specialize (Hm s). by destruct (m s) as [[a| | |] s'].
Qed.
End Returns.

Lemma returns_cacheGet {K V} `{EqDecision K} (proj : Caches -> lru K V) upd k :
  returns (cacheGet proj upd k).
Proof. intros c. unfold cacheGet. by destruct (lru_get (proj c) k). Qed.

Lemma returns_cacheAdd {K V} `{EqDecision K} (proj : Caches -> lru K V) upd k v :
  returns (cacheAdd proj upd k v).
Proof. done. Qed.

Create HintDb returns.

#[export] Hint Resolve returns_ret returns_fail returns_panic returns_liftRes
  returns_liftOpt returns_gets returns_modify returns_cacheGet returns_cacheAdd : returns.

Ltac returns_step :=
  match goal with
  | |- returns (bind (liftRes _) _) => apply returns_bind_liftRes; intros ? ?
  | |- returns (bind _ _) => apply returns_bind; [|intros ?]
  | |- returns (catch _) => apply returns_catch
  | |- returns (match ?x with _ => _ end) => destruct x eqn:?
  | |- returns (if ?x then _ else _) => destruct x eqn:?
  | |- returns (let '(_, _) := ?x in _) => destruct x eqn:?
  | |- returns _ => solve [eauto with returns]
  end.

Ltac returns_auto := cbv zeta; repeat returns_step.

Section GraphReturns.
Context `{Lib} {S : Type} `{Store S}.
Variable st : S.
Variable participants : Peers.
Variable superMajority : Z.
Variable budget : nat.
Variable rk : string -> nat.
Hypothesis Hrk : ranked st rk.
Hypothesis Hbudget : forall h, (rk h <= budget)%nat.

Ltac ranked_lia :=
  match goal with
  | HE : GetEvent st _ = ROk _ |- _ => destruct (Hrk _ _ HE); lia
  end.

Lemma returns_peerPubKeyById id : returns (peerPubKeyById participants id).
Proof. unfold peerPubKeyById. returns_auto. Qed.

Lemma returns_lamportTimestampN n : forall x,
  (rk x <= n)%nat -> returns (lamportTimestampN st n x).
Proof using Hrk.
  induction n as [|n IH]; intros x Hx; cbn [lamportTimestampN];
    unfold lamportTimestamp2; returns_auto.
  all: try (exfalso; ranked_lia).
  all: apply IH; ranked_lia.
Qed.

Lemma returns_lamportTimestamp x : returns (lamportTimestamp st budget x).
Proof using Hrk Hbudget. by apply returns_lamportTimestampN. Qed.

Lemma returns_lamportTimestampDiff x y : returns (lamportTimestampDiff st budget x y).
Proof using Hrk Hbudget. unfold lamportTimestampDiff. returns_auto; apply returns_lamportTimestamp. Qed.

Lemma returns_ancestorN n : forall x y,
  (rk x <= n)%nat -> returns (ancestorN st participants budget n x y).
Proof using Hrk Hbudget.
  induction n as [|n IH]; intros x y Hx; cbn [ancestorN];
    unfold ancestor2; returns_auto.
  all: try apply returns_lamportTimestampDiff.
  all: try apply returns_peerPubKeyById.
  all: try (exfalso; ranked_lia).
  all: apply IH; ranked_lia.
Qed.

Lemma returns_see x y : returns (see st participants budget x y).
Proof using Hrk Hbudget. by apply returns_ancestorN. Qed.

Lemma returns_MapSentinelsN n : forall x y sentinels,
  (rk x <= n)%nat -> returns (MapSentinelsN st participants budget n x y sentinels).
Proof using Hrk Hbudget.
  induction n as [|n IH]; intros x y sentinels Hx; cbn [MapSentinelsN]; returns_auto.
  all: try apply returns_see.
  all: try apply returns_peerPubKeyById.
  all: try (exfalso; ranked_lia).
  all: apply IH; ranked_lia.
Qed.

Lemma returns_stronglySee x y :
  returns (stronglySee st participants superMajority budget x y).
Proof using Hrk Hbudget.
  unfold stronglySee, stronglySee2, MapSentinels. returns_auto.
  by apply returns_MapSentinelsN.
Qed.
End GraphReturns.

(** ** Lamport timestamps *)

Section TimestampFacts.
Context {S : Type} `{Store S}.
Variable st : S.
Variable participants : Peers.

(** C2, amended.  Let [x] be an event that is not a root's self-parent
    stub, the caches being coherent and the store's two views of the roots
    agreeing.  When the stored graph has no cycle, [lamportTimestamp]
    returns for [x] as soon as it is granted the depth of [x].  Let it
    return [t].  Then [t] is, in [int64]
    arithmetic, 1 plus the maximum of the timestamp [spLT] of the
    self-parent and the term [opLT] of the other-parent, where [opLT] is
    the timestamp of the other-parent when it is stored, the timestamp the
    creator's Root records for it when it is not, and is left out when
    there is no other-parent.  [spLT] and, for a stored other-parent,
    [opLT] are what [lamportTimestamp] itself answers for the parents.
    Whenever the sum stays within [int64], [t] is strictly greater than
    both. *)
Theorem lamportTimestamp_exceeds_parents (budget : nat) (c : Caches) (x : string) :
  coherent st participants c ->
  rootsIndexed st ->
  fst (RootsBySelfParent st) !! x = None ->
  (forall rk, ranked st rk -> (rk x <= budget)%nat ->
     fst (lamportTimestamp st budget x c) <> NoFuel) /\
  forall t c', lamportTimestamp st budget x c = (Ok t, c') ->
  exists ex root spLT opLT,
    GetEvent st x = ROk ex /\ GetRoot st (Creator ex) = ROk root /\
    LT st (SelfParent ex) spLT /\
    (OtherParent ex <> "" ->
     match GetEvent st (OtherParent ex) with
     | ROk _ => LT st (OtherParent ex) opLT
     | RErr _ => opLT = otherRecorded x ex root
     end) /\
    (forall b1 c1 tp,
       coherent st participants c1 ->
       fst (lamportTimestamp st b1 (SelfParent ex) c1) = Ok tp -> tp = spLT) /\
    (forall b1 c1 tp eo,
       coherent st participants c1 ->
       OtherParent ex <> "" -> GetEvent st (OtherParent ex) = ROk eo ->
       fst (lamportTimestamp st b1 (OtherParent ex) c1) = Ok tp -> tp = opLT) /\
    let m := if decide (OtherParent ex = "") then spLT else Z.max spLT opLT in
    t = wrap64 (m + 1) /\
    (in_int64 (m + 1) ->
     t = m + 1 /\ spLT < t /\ (OtherParent ex <> "" -> opLT < t)).
Proof.
  intros Hc Hidx Hx. split.
  { intros rk Hrk Hb. by apply (returns_lamportTimestampN st rk Hrk). }
  intros t c' Hrun.
  destruct (lamportTimestampN_sound st participants budget x c Hc) as [_ Hsound].
  unfold lamportTimestamp in Hrun. rewrite Hrun in Hsound.
  specialize (Hsound t eq_refl).
  inversion Hsound as [|x' ex root plt opLT Hx' Hex Hroot Hsp1 Hsp2 Hop1 Hop2]; subst;
    [congruence|].
  assert (HspLT : LT st (SelfParent ex) plt).
  { destruct (decide (SelfParent ex = re_Hash (root_SelfParent root))) as [E|E]; [|auto].
    rewrite (Hsp1 E), E. apply LT_root. by apply (Hidx (Creator ex)). }
  exists ex, root, plt, opLT.
  split; [done|]. split; [done|]. split; [done|].
  split.
  { intros Hop. destruct (GetEvent st (OtherParent ex)) eqn:E; eauto. }
  split.
  { intros b1 c1 tp Hc1 Hr.
    destruct (lamportTimestampN_sound st participants b1 (SelfParent ex) c1 Hc1) as [_ Hs].
    eapply LT_det; [apply Hs, Hr | done]. }
  split.
  { intros b1 c1 tp eo Hc1 Hop Heo Hr.
    destruct (lamportTimestampN_sound st participants b1 (OtherParent ex) c1 Hc1) as [_ Hs].
    eapply LT_det; [apply Hs, Hr | eauto]. }
  cbv zeta. split; [done|]. intros Hin. rewrite wrap64_id by done.
  split; [done|]. destruct (decide (OtherParent ex = "")); split; try done; lia.
Qed.
End TimestampFacts.

(** The in-memory store indexes the roots by self-parent hash as soon as
    those hashes are distinct. *)
Lemma rootsIndexed_MemStore `{Lib} (s : MemStore) :
  NoDup ((fun kv : string * Root => re_Hash (root_SelfParent (snd kv)))
           <$> map_to_list (ms_roots s)) ->
  rootsIndexed s.
Proof.
  intros Hnd pk root Hroot. cbn in Hroot |- *. unfold lookupOr in Hroot.
  destruct (ms_roots s !! pk) as [r|] eqn:E; [|done]. injection Hroot as ->.
  apply elem_of_list_to_map_1.
  - by rewrite <- list_fmap_compose.
  - apply list_elem_of_fmap. exists (pk, root). split; [done|].
    by apply elem_of_map_to_list.
Qed.

Lemma ranked_MemStore `{Lib} (s : MemStore) (rk : string -> nat) :
  map_Forall (fun x ex => (rk (SelfParent ex) < rk x)%nat /\
                          (rk (OtherParent ex) < rk x)%nat) (ms_events s) ->
  ranked s rk.
Proof.
  intros Hall x ex Hx. cbn in Hx. unfold lookupOr in Hx.
  destruct (ms_events s !! x) as [e|] eqn:E; [|done]. injection Hx as ->.
  by apply (Hall x ex).
Qed.

Lemma coherent_empty {S : Type} `{Store S} (st : S) ps (a b : nat) sac ssc rc :
  coherent st ps (mkCaches (mkLru a []) sac ssc rc (mkLru b [])).
Proof. split; intros x; intros; discriminate. Qed.

(** C2, as stated, fails at the top of the [int64] range.  A's Root
    records timestamp [MaxInt64]; A's first event [0xE0], whose
    self-parent is that root and which has no other-parent, gets
    [MaxInt64 + 1], which wraps to [MinInt64]: not 1 plus the parent's
    timestamp, and smaller than it. *)
Lemma lamportTimestamp_wraps :
  fst (RootsBySelfParent saturatedStore) !! "0xE0" = None /\
  GetEvent saturatedStore "0xE0" = ROk eventA0 /\
  SelfParent eventA0 = "Root0" /\
  fst (lamportTimestamp saturatedStore 5 "Root0" demoCaches) = Ok MaxInt64 /\
  fst (lamportTimestamp saturatedStore 5 "0xE0" demoCaches) = Ok MinInt64.
Proof. vm_compute. repeat split. Qed.

(** On the demo store the first event of A, on top of the base root of
    timestamp -1, gets timestamp 0. *)
Lemma lamportTimestamp_exceeds_parents_witness :
  fst (lamportTimestamp storeWithA0 5 "0xE0" demoCaches) <> NoFuel /\
  exists ex root spLT opLT,
    GetEvent storeWithA0 "0xE0" = ROk ex /\ GetRoot storeWithA0 (Creator ex) = ROk root /\
    LT storeWithA0 (SelfParent ex) spLT /\
    (OtherParent ex <> "" ->
     match GetEvent storeWithA0 (OtherParent ex) with
     | ROk _ => LT storeWithA0 (OtherParent ex) opLT
     | RErr _ => opLT = otherRecorded "0xE0" ex root
     end) /\
    (forall b1 c1 tp,
       coherent storeWithA0 demoPeers c1 ->
       fst (lamportTimestamp storeWithA0 b1 (SelfParent ex) c1) = Ok tp -> tp = spLT) /\
    (forall b1 c1 tp eo,
       coherent storeWithA0 demoPeers c1 ->
       OtherParent ex <> "" -> GetEvent storeWithA0 (OtherParent ex) = ROk eo ->
       fst (lamportTimestamp storeWithA0 b1 (OtherParent ex) c1) = Ok tp -> tp = opLT) /\
    let m := if decide (OtherParent ex = "") then spLT else Z.max spLT opLT in
    0 = wrap64 (m + 1) /\
    (in_int64 (m + 1) ->
     0 = m + 1 /\ spLT < 0 /\ (OtherParent ex <> "" -> opLT < 0)).
Proof.
  destruct (lamportTimestamp_exceeds_parents storeWithA0 demoPeers 5 demoCaches "0xE0")
    as [Hreturns Hvalue].
  - apply coherent_empty.
  - apply rootsIndexed_MemStore. apply (bool_decide_unpack _). vm_compute. exact I.
  - vm_compute. reflexivity.
  - split.
    + apply (Hreturns (listRank ["0xE0"])).
      * apply ranked_MemStore. apply (bool_decide_unpack _). vm_compute. exact I.
      * vm_compute. lia.
    + apply (Hvalue 0 (snd (lamportTimestamp storeWithA0 5 "0xE0" demoCaches))).
      vm_compute. reflexivity.
Defined.

(** ** Sentinels *)

Section SentinelsSound.
Context {S : Type} `{Store S}.
Variable st : S.
Variable participants : Peers.
Variable budget : nat.

Lemma Anc_not_live x y b : ~ live x y -> Anc st participants x y b -> b = false.
Proof.
  intros Hn Hb. eapply Anc_det; [exact Hb|]. by apply Anc_empty.
Qed.

Lemma Sent_det x y s s1 s2 :
  Sent st participants x y s s1 -> Sent st participants x y s s2 -> s1 = s2.
Proof.
  intros H1. revert s2.
  induction H1 as [y s|x y s Hx Hno|x y s err roots root peer Hx Hyes Hex Hroots Hroot Hpeer
                  |x s ex Hx Hyes Hex|x y s ex s1 s2' Hx Hxy Hyes Hex _ IH1 _ IH2];
    intros s2 H2; inversion H2; subst; try done; try congruence.
  all: try (match goal with
            | Ha : Anc _ _ ?u ?v true, Hb : Anc _ _ ?u ?v false |- _ =>
                pose proof (Anc_det _ _ _ _ _ _ Ha Hb); done
            end).
  repeat match goal with
         | Ha : GetEvent st ?u = _, Hb : GetEvent st ?u = _ |- _ =>
             rewrite Ha in Hb; inversion Hb; subst; clear Hb
         end.
  apply IH2. erewrite IH1; eauto.
Qed.

Lemma MapSentinelsN_sound n : forall x y s,
  sound (coherent st participants) (MapSentinelsN st participants budget n x y s)
        (fun r => forall s', r = (s', None) -> Sent st participants x y s s').
Proof.
  induction n as [|n IH]; intros x y s; cbn [MapSentinelsN].
  all: destruct (decide (x = "")) as [->|Hx];
    [apply sound_ret; intros s' [= <-]; apply Sent_empty|].
  all: eapply sound_bind; [apply sound_catch, see_sound|]; intros [[|]|err] Hr;
    [specialize (Hr true eq_refl)
    |specialize (Hr false eq_refl); apply sound_ret; intros s' [= <-]; by apply Sent_unseen
    |apply sound_ret; by intros s' [=]].
  all: destruct (GetEvent st x) as [ex|err] eqn:Hex.
  all: try (destruct (RootsBySelfParent st) as [roots [err2|]] eqn:Hroots;
    [apply sound_ret; by intros s' [=]|];
    destruct (roots !! x) as [root|] eqn:Hroot; [|apply sound_ret; by intros s' [=]];
    eapply sound_bind; [apply peerPubKeyById_sound|]; intros key (peer & Hpeer & ->);
    apply sound_ret; intros s' [= <-]; by eapply Sent_root).
  all: cbv zeta; destruct (decide (x = y)) as [<-|Hxy];
    [apply sound_ret; intros s' [= <-]; by apply Sent_self|].
  - apply sound_nofuel.
  - eapply sound_bind; [apply IH|]. intros [s1 [err|]] H1;
      [apply sound_ret; by intros s' [=]|].
    eapply sound_weaken; [apply IH|]. intros r H2 s' ->.
    eapply Sent_walk; eauto.
Qed.

(** The walk does not touch the strongly-see cache. *)
Lemma keeps_ssc_get_timestamp k :
  keeps stronglySeeCache (cacheGet timestampCache set_timestampCache k).
Proof. intros c. unfold cacheGet. by destruct (lru_get (timestampCache c) k). Qed.

Lemma keeps_ssc_add_timestamp k v :
  keeps stronglySeeCache (cacheAdd timestampCache set_timestampCache k v).
Proof. done. Qed.

Lemma keeps_ssc_get_ancestor k :
  keeps stronglySeeCache (cacheGet ancestorCache set_ancestorCache k).
Proof. intros c. unfold cacheGet. by destruct (lru_get (ancestorCache c) k). Qed.

Lemma keeps_ssc_add_ancestor k v :
  keeps stronglySeeCache (cacheAdd ancestorCache set_ancestorCache k v).
Proof. done. Qed.

#[local] Hint Resolve keeps_ssc_get_timestamp keeps_ssc_add_timestamp
  keeps_ssc_get_ancestor keeps_ssc_add_ancestor : keeps.

Lemma keeps_ssc_peerPubKeyById id :
  keeps stronglySeeCache (peerPubKeyById participants id).
Proof. unfold peerPubKeyById. keeps_auto. Qed.

Lemma keeps_ssc_lamportTimestampN n : forall x,
  keeps stronglySeeCache (lamportTimestampN st n x).
Proof.
  induction n as [|n IH]; intros x; cbn [lamportTimestampN];
    unfold lamportTimestamp2; cbv zeta; keeps_auto.
Qed.

Lemma keeps_ssc_lamportTimestampDiff x y :
  keeps stronglySeeCache (lamportTimestampDiff st budget x y).
Proof.
  unfold lamportTimestampDiff, lamportTimestamp.
  keeps_auto; apply keeps_ssc_lamportTimestampN.
Qed.

Lemma keeps_ssc_ancestorN n : forall x y,
  keeps stronglySeeCache (ancestorN st participants budget n x y).
Proof.
  induction n as [|n IH]; intros x y; cbn [ancestorN];
    unfold ancestor2; cbv zeta; keeps_auto;
    first [apply keeps_ssc_lamportTimestampDiff | apply keeps_ssc_peerPubKeyById
          | apply IH].
Qed.

Lemma keeps_ssc_MapSentinelsN n : forall x y s,
  keeps stronglySeeCache (MapSentinelsN st participants budget n x y s).
Proof.
  induction n as [|n IH]; intros x y s; cbn [MapSentinelsN]; cbv zeta; keeps_auto;
    first [apply keeps_ssc_ancestorN | apply keeps_ssc_peerPubKeyById | apply IH].
Qed.
End SentinelsSound.

(** ** stronglySee *)

Section StronglySeeFacts.
Context {S : Type} `{Store S}.
Variable st : S.
Variable participants : Peers.
Variable budget : nat.

Lemma superMajority_pos : 0 < 2 * Peers_Len participants / 3 + 1.
Proof.
  unfold Peers_Len.
  pose proof (Z.div_pos (2 * Z.of_nat (size (peers_ByPubKey participants))) 3). lia.
Qed.

(** With an empty hash there are no sentinels. *)
Lemma Sent_empty_hash x y s :
  x = "" \/ y = "" -> Sent st participants x y ∅ s -> s = ∅.
Proof.
  intros Hxy Hs. eapply Sent_det; [exact Hs|].
  destruct (decide (x = "")) as [->|Hx]; [apply Sent_empty|].
  destruct Hxy as [?| ->]; [done|].
  apply Sent_unseen; [done|]. apply Anc_empty. unfold live. cbn. tauto.
Qed.

(** [stronglySee] keeps the caches coherent and answers as the sentinels
    say, from the cache or not. *)
Lemma stronglySee_sound threshold x y :
  0 < threshold ->
  sound (fun c => coherent st participants c /\ ssCoherent st participants threshold c)
        (stronglySee st participants threshold budget x y)
        (fun b => exists s, Sent st participants x y ∅ s /\
                            b = (threshold <=? Z.of_nat (size s))).
Proof.
  intros Hthr c [Hc Hss]. unfold stronglySee.
  destruct (decide (String.length x = 0%nat \/ String.length y = 0%nat)) as [He|Hne].
  - split; [done|]. intros b [= <-]. exists ∅. split.
    + destruct (decide (x = "")) as [->|Hx]; [apply Sent_empty|].
      apply Sent_unseen; [done|]. apply Anc_empty. unfold live. tauto.
    + rewrite map_size_empty. symmetry. apply Z.leb_gt. lia.
  - unfold bind, cacheGet.
    pose proof (lru_get_peek (stronglySeeCache c) (x, y)) as Hf.
    pose proof (lru_peek_get (stronglySeeCache c) (x, y)) as Hp.
    destruct (lru_get (stronglySeeCache c) (x, y)) as [v l]. cbn [fst snd] in Hf, Hp.
    assert (Hc1 : coherent st participants (set_stronglySeeCache l c)) by exact Hc.
    assert (Hss1 : ssCoherent st participants threshold (set_stronglySeeCache l c)).
    { intros x' y' b'. cbn. rewrite Hp. apply Hss. }
    destruct v as [b|].
    + cbn [fst snd ret]. split; [split; [exact Hc1|exact Hss1]|]. intros b' [= <-]. apply Hss.
      by rewrite <- Hf.
    + unfold stronglySee2, MapSentinels. unfold bind.
      destruct (MapSentinelsN_sound st participants budget budget x y ∅ _ Hc1) as [Hc2 Hr].
      pose proof (keeps_ssc_MapSentinelsN st participants budget budget x y ∅
                    (set_stronglySeeCache l c)) as Hk.
      destruct (MapSentinelsN st participants budget budget x y ∅
                  (set_stronglySeeCache l c)) as [[[s [err|]]| | |] c2];
        cbn [fst snd fail ret cacheAdd] in *.
      all: assert (Hss2 : ssCoherent st participants threshold c2)
             by (intros x' y' b'; rewrite Hk; apply Hss1).
      all: try (split; [by split | done]).
      split.
      * split; [exact Hc2|].
        intros x' y' b' Hpk. cbn in Hpk.
        apply lru_peek_add in Hpk as [[[= -> ->] ->]|[_ Hpk]].
        -- exists s. split; [by apply (Hr _ eq_refl) | done].
        -- by apply Hss2.
      * intros b [= <-]. exists s. split; [by apply (Hr _ eq_refl) | done].
Qed.

(** C3.  The super-majority of a poset of [n] participants is [2n/3 + 1],
    rounded down.  For coherent caches:
    - when its answer is not cached, [stronglySee(x, y)] returns true
      exactly when [MapSentinels(x, y, S)], started on the empty map [S],
      returns without error a map holding at least [superMajority]
      creators;
    - whatever [stronglySee(x, y)] returns, from the cache or not, is true
      exactly when the sentinels of [(x, y)] are at least [superMajority],
      and the caches stay coherent;
    - the sentinels are what [MapSentinels] collects whenever it returns
      without error;
    - when the stored graph has no cycle, [stronglySee] returns as soon
      as it is granted the depth of the graph. *)
Theorem stronglySee_iff_sentinels (c : Caches) (x y : string) :
  let threshold := 2 * Peers_Len participants / 3 + 1 in
  coherent st participants c ->
  ssCoherent st participants threshold c ->
  (lru_peek (stronglySeeCache c) (x, y) = None ->
   (fst (stronglySee st participants threshold budget x y c) = Ok true <->
    exists sentinels : gmap string bool,
      fst (MapSentinels st participants budget x y ∅ c) = Ok (sentinels, None) /\
      threshold <= Z.of_nat (size sentinels))) /\
  (forall b c', stronglySee st participants threshold budget x y c = (Ok b, c') ->
     (b = true <->
      exists sentinels : gmap string bool,
        Sent st participants x y ∅ sentinels /\
        threshold <= Z.of_nat (size sentinels)) /\
     coherent st participants c' /\ ssCoherent st participants threshold c') /\
  (forall c1 sentinels, coherent st participants c1 ->
     fst (MapSentinels st participants budget x y ∅ c1) = Ok (sentinels, None) ->
     Sent st participants x y ∅ sentinels) /\
  (forall ch p, NewPoset participants st ch = Some p -> superMajority p = threshold) /\
  (forall rk, ranked st rk -> (forall h, (rk h <= budget)%nat) ->
     fst (stronglySee st participants threshold budget x y c) <> NoFuel).
Proof.
  intros sm Hc Hss.
  assert (Hcollect : forall c1 sentinels, coherent st participants c1 ->
            fst (MapSentinels st participants budget x y ∅ c1) = Ok (sentinels, None) ->
            Sent st participants x y ∅ sentinels).
  { intros c1 s Hc1 Hrun.
    destruct (MapSentinelsN_sound st participants budget budget x y ∅ c1 Hc1) as [_ Hr].
    by apply (Hr _ Hrun). }
  split; [|split; [|split; [exact Hcollect|split]]].
  - intros Hpeek. unfold stronglySee.
    destruct (decide (String.length x = 0%nat \/ String.length y = 0%nat)) as [He|Hne].
    + assert (Hxy : x = "" \/ y = "").
      { destruct He as [?%length_zero_empty|?%length_zero_empty]; auto. }
      split; [done|]. intros (s & Hrun & Hsm).
      rewrite (Sent_empty_hash x y s Hxy (Hcollect c s Hc Hrun)), map_size_empty in Hsm.
      pose proof superMajority_pos. unfold sm in Hsm. lia.
    + unfold bind at 1. unfold cacheGet. rewrite (lru_get_None _ _ Hpeek).
      assert (Hid : set_stronglySeeCache (stronglySeeCache c) c = c) by (by destruct c).
      rewrite Hid. unfold stronglySee2. unfold bind.
      destruct (MapSentinels st participants budget x y ∅ c) as [[[s [err|]]| | |] c1];
        cbn [fst snd fail ret cacheAdd].
      * split; [done|]. by intros (? & [=] & _).
      * split.
        -- intros [= Hle]. exists s. split; [done|]. by apply Z.leb_le.
        -- intros (? & [= <-] & Hle). f_equal. by apply Z.leb_le.
      * split; [done|]. by intros (? & [=] & _).
      * split; [done|]. by intros (? & [=] & _).
      * split; [done|]. by intros (? & [=] & _).
  - intros b c' Hrun.
    destruct (stronglySee_sound sm x y superMajority_pos c (conj Hc Hss)) as [[Hc' Hss'] Hb].
    rewrite Hrun in Hc', Hss', Hb. cbn [fst snd] in *.
    destruct (Hb b eq_refl) as (s & Hs & ->).
    split; [|by split]. split.
    + intros Hle. exists s. split; [done|]. by apply Z.leb_le.
    + intros (s' & Hs' & Hle). rewrite (Sent_det _ _ _ _ _ _ _ Hs Hs'). by apply Z.leb_le.
  - intros ch p. unfold NewPoset. repeat case_match; try done. by intros [= <-].
  - intros rk Hrk Hb. by apply (returns_stronglySee st participants sm budget rk).
Qed.
End StronglySeeFacts.

Lemma ssCoherent_empty {S : Type} `{Store S} (st : S) ps threshold (a : nat) ac sac rc tc :
  ssCoherent st ps threshold (mkCaches ac sac (mkLru a []) rc tc).
Proof. intros x y b Hb. discriminate. Qed.

(** In scenario 1, [f1] strongly sees [e0]: the sentinels are the three
    participants. *)
Lemma stronglySee_iff_sentinels_witness :
  fst (stronglySee scenarioStore demoPeers 3 10 "0xF1" "0xE0" demoCaches) = Ok true /\
  exists sentinels : gmap string bool,
    fst (MapSentinels scenarioStore demoPeers 10 "0xF1" "0xE0" ∅ demoCaches)
      = Ok (sentinels, None) /\
    3 <= Z.of_nat (size sentinels).
Proof.
  assert (Hrun : fst (stronglySee scenarioStore demoPeers 3 10 "0xF1" "0xE0" demoCaches)
                 = Ok true) by (vm_compute; reflexivity).
  split; [exact Hrun|].
  destruct (stronglySee_iff_sentinels scenarioStore demoPeers 10 demoCaches "0xF1" "0xE0")
    as [Hmiss _].
  - apply coherent_empty.
  - apply ssCoherent_empty.
  - destruct (Hmiss eq_refl) as [Hfwd _]. apply Hfwd. exact Hrun.
Defined.

(** ** DecideRoundReceived *)

Section RoundReceivedFacts.
Context `{Lib} {S : Type} `{Store S}.
Variable budget : nat.
Variable st : S.
Variable ps : Peers.
Variable x : string.

Lemma AllSee_NotAllSee tr : AllSee st ps tr x -> NotAllSee st ps tr x -> False.
Proof.
  intros [Hne Hall] [Hnil | (w & Hw & Hno)]; [done|].
  pose proof (Anc_det _ _ _ _ _ _ (Hall w Hw) Hno). done.
Qed.

(** [seenBy] keeps the famous witnesses that are ancestors of [x]; it
    touches the caches only, and keeps them coherent. *)
Lemma seenBy_spec fws : forall (p p1 : Poset S) s,
  store p = st -> participants p = ps -> coherent st ps (caches p) ->
  seenBy budget x fws p = (Ok s, p1) ->
  (exists c1, p1 = set_caches c1 p) /\ coherent st ps (caches p1) /\
  (length s <= length fws)%nat /\
  (length s = length fws -> forall w, w ∈ fws -> Anc st ps w x true) /\
  (length s <> length fws -> exists w, w ∈ fws /\ Anc st ps w x false).
Proof.
  induction fws as [|w fws IH]; intros p p1 s Hst Hps Hc Hrun.
  - cbn in Hrun. injection Hrun as <- <-.
    split; [exists (caches p); by destruct p|].
    split; [done|]. split; [done|]. split; [|done].
    intros _ w Hw. by apply elem_of_nil in Hw.
  - cbn [seenBy] in Hrun. unfold bind at 1 in Hrun. unfold seeM, callG in Hrun.
    rewrite Hst, Hps in Hrun.
    destruct (see_sound st ps budget w x (caches p) Hc) as [Hc1 Hb].
    destruct (see st ps budget w x (caches p)) as [[b| | |] c1]; try done.
    cbn [fst snd] in Hc1, Hb. specialize (Hb b eq_refl).
    unfold bind at 1 in Hrun.
    destruct (seenBy budget x fws (set_caches c1 p)) as [[tl| | |] p2] eqn:E; try done.
    cbn in Hrun. injection Hrun as <- <-.
    destruct (IH (set_caches c1 p) _ _ Hst Hps Hc1 E) as ([c2 ->] & Hc2 & Hlen & Hall & Hsome).
    split; [exists c2; by destruct p|].
    split; [done|].
    destruct b; cbn [length].
    + split; [lia|]. split.
      * intros Hl w' [->|Hw']%elem_of_cons; [done|]. apply Hall; [lia|done].
      * intros Hl. destruct Hsome as (w' & Hw' & Hno); [lia|].
        exists w'. split; [apply elem_of_cons; by right|done].
    + split; [lia|]. split; [lia|].
      intros _. exists w. split; [apply elem_of_cons; by left|done].
Qed.

Variable r : Z.

(** The scan, from round [i], the rounds between [r] and [i] having been
    examined and passed over. *)
Lemma receiveScan_spec n : forall i (p p' : Poset S) res,
  store p = st -> participants p = ps -> coherent st ps (caches p) ->
  r < i -> in_int64 i -> LastRound st < MaxInt64 ->
  (forall j, r < j < i ->
     exists tr, GetRound st j = ROk tr /\ WitnessesDecided tr = true /\
                NotAllSee st ps tr x) ->
  receiveScan budget n x r i p = (Ok res, p') ->
  (forall k, res = Assigned k <-> FirstReceiving st ps x r k) /\
  (forall k, res = Assigned k ->
     exists ex tr,
       GetEvent st x = ROk ex /\ GetRound st k = ROk tr /\
       store p' = fst (SetRound (fst (SetEvent st (SetRoundReceived ex k))) k
                                (SetConsensusEvent tr x))).
Proof.
  assert (Hbelow : forall i k,
    (forall j, r < j < i ->
       exists tr, GetRound st j = ROk tr /\ WitnessesDecided tr = true /\
                  NotAllSee st ps tr x) ->
    FirstReceiving st ps x r k -> i <= k).
  { intros i k Hprev (Hrk & _ & tr & Htr & _ & Hall).
    destruct (decide (i <= k)) as [|Hlt]; [done|]. exfalso.
    destruct (Hprev k ltac:(lia)) as (tr' & Htr' & _ & Hno).
    assert (tr' = tr) as -> by congruence. by eapply AllSee_NotAllSee. }
  induction n as [|n IH]; intros i p p' res Hst Hps Hc Hri Hi Hlast Hprev Hrun.
  all: cbn [receiveScan] in Hrun; unfold bind at 1 in Hrun; unfold gets, id in Hrun;
       cbn [fst snd] in Hrun; rewrite Hst in Hrun.
  all: destruct (Z.leb_spec i (LastRound st)) as [Hle|Hgt];
    [|injection Hrun as <- <-; split; [|done]; intros k; split; [done|];
      intros Hk; pose proof (Hbelow i k Hprev Hk); destruct Hk as ((? & ?) & _); lia].
  all: destruct (GetRound st i) as [tr|err] eqn:Htr;
    [|assert (Hres : res <> NotReceived -> res = DeemedReceived);
      [destruct (lastConsensusRound p) as [lcr|]; [destruct (r <? lcr)|];
        cbn in Hrun; try done; by injection Hrun as <- <-
      |split; [|intros k ->; by specialize (Hres ltac:(done))];
       intros k; split; [intros ->; by specialize (Hres ltac:(done))|];
       intros Hk; exfalso; pose proof (Hbelow i k Hprev Hk) as Hik;
       destruct Hk as (_ & Hmid & tr' & Htr' & _);
       destruct (decide (i = k)) as [->|]; [congruence|];
       destruct (Hmid i ltac:(lia)) as (? & ? & _); congruence]].
  all: destruct (WitnessesDecided tr) eqn:Hdec; cbn [negb] in Hrun;
    [|injection Hrun as <- <-; split; [|done]; intros k; split; [done|];
      intros Hk; exfalso; pose proof (Hbelow i k Hprev Hk) as Hik;
      destruct Hk as (_ & Hmid & tr' & Htr' & Hdec' & _);
      destruct (decide (i = k)) as [->|]; [congruence|];
      destruct (Hmid i ltac:(lia)) as (? & ? & ? & _); congruence].
  all: unfold bind at 1 in Hrun;
    destruct (seenBy budget x (FamousWitnesses tr) p) as [[s| | |] p1] eqn:Es; try done;
    destruct (seenBy_spec _ _ _ _ Hst Hps Hc Es) as ([c1 ->] & Hc1 & Hlen & Hall & Hsome).
  all: destruct (bool_decide (length s = length (FamousWitnesses tr))) eqn:E1;
    [apply bool_decide_eq_true in E1; destruct (bool_decide (0 < length s)%nat) eqn:E2;
      [apply bool_decide_eq_true in E2|apply bool_decide_eq_false in E2]
    |apply bool_decide_eq_false in E1]; cbn [andb] in Hrun.
  (* the round [i] receives [x] *)
  1,4: (assert (Hfirst : FirstReceiving st ps x r i);
    [split; [lia|]; split; [done|]; exists tr; split; [done|]; split; [done|];
     split; [intros E; rewrite E in E1; cbn in E1; lia | by apply Hall]|];
    unfold bind at 1 in Hrun; destruct (GetEvent st x) as [ex|] eqn:Hex; [|done];
    cbn [liftRes ret] in Hrun; unfold bind at 1 in Hrun; unfold storeWrite at 1 in Hrun;
    cbn [store set_caches] in Hrun; rewrite Hst in Hrun;
    destruct (SetEvent st (SetRoundReceived ex i)) as [s1 [e1|]] eqn:Hse; [done|];
    unfold bind at 1 in Hrun; unfold storeWrite at 1 in Hrun;
    cbn [store set_store set_caches] in Hrun;
    destruct (SetRound s1 i (SetConsensusEvent tr x)) as [s2 [e2|]] eqn:Hsr; [done|];
    injection Hrun as <- <-;
    split;
    [intros k; split; [by intros [= <-]|];
     intros Hk; f_equal; pose proof (Hbelow i k Hprev Hk) as Hik;
     destruct (decide (i = k)) as [|Hne]; [done|]; exfalso;
     destruct Hk as (_ & Hmid & _);
     destruct (Hmid i ltac:(lia)) as (tr' & Htr' & _ & Hno);
     assert (tr' = tr) as -> by congruence;
     destruct Hfirst as (_ & _ & tr'' & Htr'' & _ & Hyes);
     assert (tr'' = tr) as -> by congruence; by eapply AllSee_NotAllSee
    |intros k [= <-]; exists ex, tr; split; [done|]; split; [done|];
     cbn [store set_store]; rewrite Hse; cbn [fst]; by rewrite Hsr]).
  (* out of fuel *)
  1,2: done.
  (* the scan goes on *)
  all: (assert (Hno : NotAllSee st ps tr x);
    [first [ left; destruct (FamousWitnesses tr); [done|]; cbn in E1; lia
           | right; by apply Hsome ]|]).
  all: assert (Hw : wrap64 (i + 1) = i + 1)
         by (apply wrap64_id; unfold in_int64 in *; unfold MinInt64, MaxInt64 in *; lia).
  all: rewrite Hw in Hrun.
  all: apply (IH (i + 1) (set_caches c1 p) _ _ Hst Hps Hc1 ltac:(lia)) in Hrun; [done| |done|].
  all: try (unfold in_int64 in *; unfold MinInt64, MaxInt64 in *; lia).
  all: intros j Hj; destruct (decide (j = i)) as [->|]; [by exists tr|apply Hprev; lia].
Qed.

(** [seenBy] writes the caches only. *)
Lemma seenBy_caches_only fws : forall p : Poset S,
  exists c1, snd (seenBy budget x fws p) = set_caches c1 p.
Proof.
  induction fws as [|w fws IH]; intros p.
  - exists (caches p). by destruct p.
  - cbn [seenBy]. unfold bind at 1. unfold seeM, callG.
    destruct (see (store p) (participants p) budget w x (caches p)) as [[b| | |] c1];
      cbn [snd]; try by exists c1.
    unfold bind at 1. destruct (IH (set_caches c1 p)) as [c2 Hc2].
    destruct (seenBy budget x fws (set_caches c1 p)) as [[tl| | |] p2];
      cbn [snd] in *; subst p2; exists c2; by destruct p.
Qed.

Variable rk : string -> nat.
Hypothesis Hrk : ranked st rk.
Hypothesis Hbudget : forall h, (rk h <= budget)%nat.

Lemma seenBy_returns fws : forall p : Poset S,
  store p = st -> fst (seenBy budget x fws p) <> NoFuel.
Proof using Hrk Hbudget.
  induction fws as [|w fws IH]; intros p Hst; [done|].
  cbn [seenBy]. unfold bind at 1. unfold seeM, callG. rewrite Hst.
  pose proof (returns_see st (participants p) budget rk Hrk Hbudget w x (caches p)) as Hsee.
  destruct (see st (participants p) budget w x (caches p)) as [[b| | |] c1];
    cbn [fst] in *; try done.
  unfold bind at 1. specialize (IH (set_caches c1 p) Hst).
  by destruct (seenBy budget x fws (set_caches c1 p)) as [[tl| | |] p2].
Qed.

Lemma returns_storeWrite (w : S -> S * option error) : returns (storeWrite w).
Proof. intros p. unfold storeWrite. by destruct (w (store p)). Qed.

(** The scan uses one unit of depth for each round it passes over. *)
Lemma receiveScan_returns n : forall i (p : Poset S),
  store p = st -> in_int64 i -> LastRound st < MaxInt64 ->
  LastRound st - i < Z.of_nat n ->
  fst (receiveScan budget n x r i p) <> NoFuel.
Proof using Hrk Hbudget.
  induction n as [|n IH]; intros i p Hst Hi Hlast Hn.
  all: cbn [receiveScan]; unfold bind at 1; unfold gets, id; cbn [fst snd]; rewrite Hst.
  all: destruct (Z.leb_spec i (LastRound st)) as [Hle|Hgt]; [|done].
  all: destruct (GetRound st i) as [tr|err];
    [|destruct (lastConsensusRound p) as [lcr|]; [destruct (r <? lcr)|]; done].
  all: destruct (WitnessesDecided tr); cbn [negb]; [|done].
  all: unfold bind at 1; pose proof (seenBy_returns (FamousWitnesses tr) p Hst) as Hs;
    destruct (seenBy_caches_only (FamousWitnesses tr) p) as [c1 Hc1];
    destruct (seenBy budget x (FamousWitnesses tr) p) as [[s| | |] p1]; try done;
    cbn [snd] in Hc1; subst p1.
  all: destruct (_ && _);
    [match goal with
     | |- fst (?m ?s) <> NoFuel =>
         assert (Hm : returns m);
         [apply returns_bind_liftRes; intros ex _;
          apply returns_bind; [apply returns_storeWrite|]; intros [e1|]; [done|];
          apply returns_bind; [apply returns_storeWrite|]; by intros [e2|]
         |apply Hm]
     end|].
  - lia.
  - apply IH; [done|apply wrap64_range| done|].
    rewrite wrap64_id; [lia|]. unfold in_int64, MinInt64, MaxInt64 in *. lia.
Qed.
End RoundReceivedFacts.

Section RoundReceivedLoop.
Context `{Lib} {S : Type} `{Store S}.
Variable budget : nat.

(** The list the loop starts from is only ever appended to. *)
Lemma decideReceivedLoop_acc xs : forall acc (p : Poset S),
  decideReceivedLoop budget xs acc p =
    match decideReceivedLoop budget xs [] p with
    | (Ok kept, p') => (Ok (acc ++ kept)%list, p')
    | (Err e, p') => (Err e, p')
    | (Panic, p') => (Panic, p')
    | (NoFuel, p') => (NoFuel, p')
    end.
Proof.
  induction xs as [|x xs IH]; intros acc p.
  - cbn. by rewrite app_nil_r.
  - cbn [decideReceivedLoop]. unfold bind at 1 3.
    destruct (roundM budget x p) as [[r| | |] p1]; try done.
    unfold bind at 1 2.
    destruct (receiveScan budget budget x r (wrap64 (r + 1)) p1) as [[res| | |] p2];
      try done.
    rewrite (IH (match res with NotReceived => (acc ++ [x])%list | _ => acc end)).
    rewrite (IH (match res with NotReceived => ([] ++ [x])%list | _ => [] end)).
    destruct (decideReceivedLoop budget xs [] p2) as [[kept| | |] p3]; try done.
    destruct res; cbn [app]; by rewrite <- ?app_assoc, ?app_nil_r.
Qed.

(** The loop over a queue, once its first part has been gone through. *)
Lemma decideReceivedLoop_app pre : forall post acc (p : Poset S) kept p1,
  decideReceivedLoop budget pre acc p = (Ok kept, p1) ->
  decideReceivedLoop budget (pre ++ post) acc p = decideReceivedLoop budget post kept p1.
Proof.
  induction pre as [|x pre IH]; intros post acc p kept p1 Hpre.
  - cbn in Hpre. by injection Hpre as <- <-.
  - cbn [decideReceivedLoop app] in *. unfold bind at 1 in Hpre. unfold bind at 1.
    destruct (roundM budget x p) as [[r| | |] p2]; try done.
    unfold bind at 1 in Hpre. unfold bind at 1.
    destruct (receiveScan budget budget x r (wrap64 (r + 1)) p2) as [[res| | |] p3];
      try done.
    by apply IH.
Qed.
End RoundReceivedLoop.

(** C4.  [DecideRoundReceived] goes through the queue of undetermined
    events.  It gets to [x], having kept the events [kept] of those before
    it; it computes the round [r] of [x] and scans the rounds from [r + 1]
    up to the last round of the store.  For coherent caches, and away from
    the top of the [int64] range:
    - when the stored graph has no cycle, the scan returns as soon as its
      depth covers the graph and the rounds to scan;
    - the scan assigns [i] to [x] exactly when [i] is the first round after
      [r] all of whose famous witnesses see [x], and there is one, every
      round from [r + 1] to [i] being stored with all its witnesses
      decided;
    - it then writes to the store the event [x] with round received [i],
      and round [i] with [x] appended to its consensus events;
    - [DecideRoundReceived] returns without error exactly when the rest of
      the queue is gone through without error, and the queue it leaves is
      made of the events kept before [x], then [x] if and only if the scan
      ended without receiving it, then the events kept after [x]. *)
Theorem DecideRoundReceived_first_round `{Lib} {S : Type} `{Store S}
    (budget : nat) (p : Poset S) (pre post kept : list string) (x : string)
    (r : Z) (p1 px : Poset S) :
  undeterminedEvents p = (pre ++ x :: post)%list ->
  decideReceivedLoop budget pre [] p = (Ok kept, p1) ->
  roundM budget x p1 = (Ok r, px) ->
  coherent (store px) (participants px) (caches px) ->
  MinInt64 <= r < MaxInt64 ->
  LastRound (store px) < MaxInt64 ->
  (forall rk, ranked (store px) rk -> (forall h, (rk h <= budget)%nat) ->
     LastRound (store px) - r <= Z.of_nat budget ->
     fst (receiveScan budget budget x r (wrap64 (r + 1)) px) <> NoFuel) /\
  (forall res p2, receiveScan budget budget x r (wrap64 (r + 1)) px = (Ok res, p2) ->
     (forall i, res = Assigned i <-> FirstReceiving (store px) (participants px) x r i) /\
     (forall i, res = Assigned i ->
        exists ex tr,
          GetEvent (store px) x = ROk ex /\ GetRound (store px) i = ROk tr /\
          ev_roundReceived (SetRoundReceived ex i) = Some i /\
          ConsensusEvents (SetConsensusEvent tr x) = (ConsensusEvents tr ++ [x])%list /\
          store p2 = fst (SetRound (fst (SetEvent (store px) (SetRoundReceived ex i))) i
                                   (SetConsensusEvent tr x))) /\
     (forall p', DecideRoundReceived budget p = (Ok tt, p') <->
        exists keptAfter q,
          decideReceivedLoop budget post [] p2 = (Ok keptAfter, q) /\
          p' = set_undeterminedEvents
                 (kept ++ (match res with NotReceived => [x] | _ => [] end) ++ keptAfter)%list
                 q)).
Proof.
  intros Hqueue Hpre Hround Hc Hr Hlast.
  assert (Hw : wrap64 (r + 1) = r + 1).
  { apply wrap64_id. unfold in_int64. unfold MinInt64, MaxInt64 in *. lia. }
  rewrite Hw. split.
  - intros rk Hrk Hb Hn.
    apply (receiveScan_returns budget (store px) x r rk Hrk Hb); try done.
    + unfold in_int64. unfold MinInt64, MaxInt64 in *. lia.
    + lia.
  - intros res p2 Hrun.
    destruct (receiveScan_spec budget (store px) (participants px) x r budget
                (r + 1) px p2 res eq_refl eq_refl Hc) as [Hiff Hstore]; try done.
    + lia.
    + unfold in_int64. unfold MinInt64, MaxInt64 in *. lia.
    + intros j Hj. lia.
    + split; [done|]. split.
      { intros i Hi. destruct (Hstore i Hi) as (ex & tr & Hex & Htr & Hst).
        exists ex, tr. by repeat split. }
      intros p'.
      assert (Hloop : decideReceivedLoop budget (undeterminedEvents p) [] p =
                match decideReceivedLoop budget post [] p2 with
                | (Ok keptAfter, q) =>
                    (Ok (kept ++ (match res with NotReceived => [x] | _ => [] end)
                              ++ keptAfter)%list, q)
                | (Err e, q) => (Err e, q)
                | (Panic, q) => (Panic, q)
                | (NoFuel, q) => (NoFuel, q)
                end).
      { rewrite Hqueue, (decideReceivedLoop_app budget pre _ _ _ _ _ Hpre).
        cbn [decideReceivedLoop]. unfold bind at 1. rewrite Hround.
        unfold bind at 1. rewrite Hw, Hrun.
        rewrite decideReceivedLoop_acc.
        destruct (decideReceivedLoop budget post [] p2) as [[keptAfter| | |] q]; try done.
        destruct res; by rewrite <- ?app_assoc, ?app_nil_r. }
      unfold DecideRoundReceived, bind, gets, id, setUndeterminedEvents, modify.
      cbn [fst snd]. rewrite Hloop.
      destruct (decideReceivedLoop budget post [] p2) as [[keptAfter| | |] q]; split;
        try done; try (by intros (? & ? & ? & _)).
      * intros [= <-]. by exists keptAfter, q.
      * intros (k & q' & [= <- <-] & ->). done.
Qed.

(** In scenario 1, once round 1 is decided with [f1] as its famous
    witness, the undetermined event [e0], of round 0, is received in
    round 1: the pass leaves an empty queue, the store holds [e0] with
    round received 1, and [e0] is the consensus event of round 1. *)
Lemma DecideRoundReceived_first_round_witness :
  FirstReceiving receivedStore demoPeers "0xE0" 0 1 /\
  (exists p', DecideRoundReceived 10 receivedPoset = (Ok tt, p') /\
              undeterminedEvents p' = [] /\
              match GetEvent (store p') "0xE0" with
              | ROk ex => ev_roundReceived ex = Some 1
              | RErr _ => False
              end /\
              match GetRound (store p') 1 with
              | ROk tr => ConsensusEvents tr = ["0xE0"]
              | RErr _ => False
              end).
Proof.
  assert (Hround : roundM 10 "0xE0" receivedPoset
                   = (Ok 0, snd (roundM 10 "0xE0" receivedPoset)))
    by (vm_compute; reflexivity).
  assert (Hst : store (snd (roundM 10 "0xE0" receivedPoset)) = receivedStore)
    by (vm_compute; reflexivity).
  assert (Hps : participants (snd (roundM 10 "0xE0" receivedPoset)) = demoPeers)
    by (vm_compute; reflexivity).
  assert (Hscan : receiveScan 10 10 "0xE0" 0 (wrap64 (0 + 1))
                    (snd (roundM 10 "0xE0" receivedPoset))
                  = (Ok (Assigned 1),
                     snd (receiveScan 10 10 "0xE0" 0 (wrap64 (0 + 1))
                            (snd (roundM 10 "0xE0" receivedPoset)))))
    by (vm_compute; reflexivity).
  destruct (DecideRoundReceived_first_round 10 receivedPoset [] [] [] "0xE0" 0
              receivedPoset (snd (roundM 10 "0xE0" receivedPoset)))
    as [_ Hval].
  - reflexivity.
  - reflexivity.
  - exact Hround.
  - vm_compute caches. apply coherent_empty.
  - unfold MinInt64, MaxInt64. lia.
  - vm_compute. reflexivity.
  - destruct (Hval _ _ Hscan) as (Hiff & _ & Hpass).
    rewrite Hst, Hps in Hiff.
    split; [apply Hiff; reflexivity|].
    eexists. split.
    + apply Hpass. eexists _, _. split; reflexivity.
    + vm_compute. repeat split.
Defined.

(** * Further properties of the engine *)

(** ** InsertEvent: the checks and the effects *)

Section InsertEventMore.
Context `{Lib} {S : Type} `{Store S}.
Implicit Types (p : Poset S).

Lemma bind_run {St A B} (m : ST St A) (k : A -> ST St B) s :
  bind m k s = match m s with
               | (Ok a, s') => k a s'
               | (Err e, s') => (Err e, s')
               | (Panic, s') => (Panic, s')
               | (NoFuel, s') => (NoFuel, s')
               end.
Proof. done. Qed.

Lemma wrapErr_run {A} prefix (m : M S A) p :
  wrapErr prefix m p = match m p with
                       | (Ok a, p') => (Ok a, p')
                       | (Err e, p') => (Err (Wrapped prefix e), p')
                       | (Panic, p') => (Panic, p')
                       | (NoFuel, p') => (NoFuel, p')
                       end.
Proof. unfold wrapErr, bind, catch. by destruct (m p) as [[a|e| |] p']. Qed.

Lemma checkSelfParent_run p event :
  checkSelfParent event p =
    (match LastEventFrom (store p) (Creator event) with
     | (_, Some err) => Err err
     | ((last, _), None) =>
         if decide (SelfParent event = last) then Ok tt
         else Err (Errorf "self-parent not last known event by creator")
     end, p).
Proof.
  unfold checkSelfParent, bind, gets, id. cbn [fst snd].
  destruct (LastEventFrom (store p) (Creator event)) as [[last isRoot] [err|]]; [done|].
  by destruct (decide _).
Qed.

Lemma checkOtherParent_run p event :
  checkOtherParent event p =
    (if decide (OtherParent event = "") then Ok tt
     else match GetEvent (store p) (OtherParent event) with
          | ROk _ => Ok tt
          | RErr _ =>
              match GetRoot (store p) (Creator event) with
              | RErr err => Err err
              | ROk root =>
                  if otherInRoot root event then Ok tt
                  else Err (Errorf "other-parent not known")
              end
          end, p).
Proof.
  unfold checkOtherParent, bind, gets, id. cbn [fst snd].
  destruct (decide _); [done|].
  destruct (GetEvent (store p) (OtherParent event)); [done|].
  destruct (GetRoot (store p) (Creator event)) as [root|]; [|done].
  cbn [liftRes ret]. by destruct (otherInRoot root event).
Qed.

(** X1.  The fork check.  An event that verifies but whose self-parent is not
    the creator's last known event (or whose creator's last event cannot
    be read) is refused with a [CheckSelfParent] error, and the engine is
    left as it was. *)
Theorem InsertEvent_rejects_fork p (event : Event) (setWire : bool) verr :
  Verify event = Some (true, verr) ->
  match LastEventFrom (store p) (Creator event) with
  | (_, Some _) => True
  | ((last, _), None) => SelfParent event <> last
  end ->
  InsertEvent event setWire p =
    (Err (Wrapped "CheckSelfParent: "
            match snd (LastEventFrom (store p) (Creator event)) with
            | Some err => err
            | None => Errorf "self-parent not last known event by creator"
            end), p).
Proof.
  intros Hv Hlast. unfold InsertEvent. rewrite Hv.
  rewrite bind_run, wrapErr_run, checkSelfParent_run.
  destruct (LastEventFrom (store p) (Creator event)) as [[last isRoot] [err|]]; [done|].
  by destruct (decide (SelfParent event = last)).
Qed.

(** X2.  The other-parent check.  An event that verifies and extends its
    creator's last event, but names an other-parent that is neither stored
    nor recorded for it in its creator's Root, is refused with a
    [CheckOtherParent] error, and the engine is left as it was. *)
Theorem InsertEvent_rejects_unknown_other_parent p (event : Event) (setWire : bool)
    verr isRoot err root :
  Verify event = Some (true, verr) ->
  LastEventFrom (store p) (Creator event) = ((SelfParent event, isRoot), None) ->
  OtherParent event <> "" ->
  GetEvent (store p) (OtherParent event) = RErr err ->
  GetRoot (store p) (Creator event) = ROk root ->
  otherInRoot root event = false ->
  InsertEvent event setWire p =
    (Err (Wrapped "CheckOtherParent: " (Errorf "other-parent not known")), p).
Proof.
  intros Hv Hlast Hop Hget Hroot Hin. unfold InsertEvent. rewrite Hv.
  rewrite bind_run, wrapErr_run, checkSelfParent_run, Hlast.
  destruct (decide (SelfParent event = SelfParent event)); [|done].
  rewrite bind_run, wrapErr_run, checkOtherParent_run.
  destruct (decide (OtherParent event = "")); [done|].
  by rewrite Hget, Hroot, Hin.
Qed.

Lemma sound_trivial {St A} (m : ST St A) : sound (fun _ => True) m (fun _ => True).
Proof. intros s _. done. Qed.

(** [setWireInfo] only fills the wire fields of the event, and reads the
    engine without changing it. *)
Lemma setWireInfo_value p event event' p' :
  setWireInfo event p = (Ok event', p') ->
  p' = p /\
  exists selfParentIndex otherParentCreatorID otherParentIndex creatorID,
    event' = SetWireInfo event selfParentIndex otherParentCreatorID otherParentIndex
                         creatorID.
Proof.
  intros Hrun. split.
  { pose proof (keeps_setWireInfo id event p) as Hk. by rewrite Hrun in Hk. }
  assert (Hs : sound (fun _ : Poset S => True) (setWireInfo event)
                 (fun ev' => exists a b c d, ev' = SetWireInfo event a b c d)).
  { unfold setWireInfo.
    eapply sound_bind; [apply sound_trivial|]. intros p0 _.
    eapply sound_bind; [apply sound_trivial|]. intros spi _.
    eapply sound_bind; [apply sound_trivial|]. intros other _.
    eapply sound_bind; [apply sound_trivial|]. intros cid _.
    apply sound_ret. eauto. }
  destruct (Hs p I) as [_ Hv]. apply Hv. by rewrite Hrun.
Qed.

(** What a run of [InsertEvent] amounts to: the event is refused before
    anything changes; or the topological index is taken and the wire
    information cannot be computed; or the store refuses the event; or the
    event is stored and queued. *)
Lemma InsertEvent_outcome p (event : Event) (setWire : bool) :
  let p1 := set_topologicalIndex (wrap64 (topologicalIndex p + 1)) p in
  let ev1 := SetTopologicalIndex event (topologicalIndex p) in
  (fst (InsertEvent event setWire p) <> Ok tt /\
   snd (InsertEvent event setWire p) = p) \/
  (fst (InsertEvent event setWire p) <> Ok tt /\
   snd (InsertEvent event setWire p) = p1 /\ setWire = true) \/
  (exists stored,
     (exists a b c d, stored = if setWire then SetWireInfo ev1 a b c d else ev1) /\
     match SetEvent (store p) stored with
     | (s', Some err) =>
         InsertEvent event setWire p = (Err (Wrapped "SetEvent: " err), set_store s' p1)
     | (s', None) =>
         InsertEvent event setWire p =
           (Ok tt,
            set_sigPool (sigPool p ++ BlockSignatures event)
              (set_pendingLoadedEvents
                 (if IsLoaded event then wrap64 (pendingLoadedEvents p + 1)
                  else pendingLoadedEvents p)
                 (set_undeterminedEvents (undeterminedEvents p ++ [Hex stored])
                    (set_store s' p1)))) /\
         (exists verr, Verify event = Some (true, verr)) /\
         (exists isRoot,
            LastEventFrom (store p) (Creator event) = ((SelfParent event, isRoot), None))
     end).
Proof.
  intros p1 ev1.
  remember (InsertEvent event setWire p) as run eqn:Hrun.
  unfold InsertEvent in Hrun.
  destruct (Verify event) as [[[] verr]|] eqn:Hv;
    [|left; subst run; by destruct verr|left; by subst run].
  rewrite bind_run, wrapErr_run, checkSelfParent_run in Hrun.
  destruct (LastEventFrom (store p) (Creator event)) as [[last isRoot] [err|]] eqn:Hlast;
    [left; by subst run|].
  destruct (decide (SelfParent event = last)) as [<-|]; [|left; by subst run].
  rewrite bind_run, wrapErr_run, checkOtherParent_run in Hrun.
  set (chk := if decide (OtherParent event = "") then _ else _) in Hrun.
  destruct chk as [[]|e| |]; [|left; by subst run..].
  rewrite bind_run in Hrun. unfold gets at 1 in Hrun. rewrite bind_run in Hrun.
  unfold increaseTopologicalIndex at 1 in Hrun. unfold modify at 1 in Hrun.
  fold p1 in Hrun. fold ev1 in Hrun. rewrite bind_run in Hrun.
  assert (Hstore : forall stored,
    (exists a b c d, stored = if setWire then SetWireInfo ev1 a b c d else ev1) ->
    (e <- storeWrite (fun s => SetEvent s stored) ;;
     match e with
     | Some err => fail (Wrapped "SetEvent: " err)
     | None =>
         _ <- addUndeterminedEvents (Hex stored) ;;
         _ <- (if IsLoaded stored then increasePendingLoadedEvents else ret tt) ;;
         AddToSigPool (BlockSignatures stored)
     end) p1 =
    match SetEvent (store p) stored with
    | (s', Some err) => (Err (Wrapped "SetEvent: " err), set_store s' p1)
    | (s', None) =>
        (Ok tt,
         set_sigPool (sigPool p ++ BlockSignatures event)
           (set_pendingLoadedEvents
              (if IsLoaded event then wrap64 (pendingLoadedEvents p + 1)
               else pendingLoadedEvents p)
              (set_undeterminedEvents (undeterminedEvents p ++ [Hex stored])
                 (set_store s' p1))))
    end).
  { intros stored (a & b & c & d & Hst).
    assert (Hl : IsLoaded stored = IsLoaded event) by (subst stored; by destruct setWire).
    assert (Hb : BlockSignatures stored = BlockSignatures event)
      by (subst stored; by destruct setWire).
    assert (Hsw : storeWrite (fun s => SetEvent s stored) p1
                  = (Ok (snd (SetEvent (store p) stored)),
                     set_store (fst (SetEvent (store p) stored)) p1)).
    { unfold storeWrite. change (store p1) with (store p).
      by destruct (SetEvent (store p) stored). }
    rewrite bind_run, Hsw.
    destruct (SetEvent (store p) stored) as [s' [err|]]; [done|]. cbn [fst snd].
    rewrite bind_run. unfold addUndeterminedEvents at 1. unfold modify at 1.
    rewrite bind_run, Hl, Hb. by destruct (IsLoaded event). }
  destruct setWire.
  - rewrite wrapErr_run in Hrun.
    destruct (setWireInfo ev1 p1) as [[ev2|e| |] p2] eqn:Hw.
    + apply setWireInfo_value in Hw as [-> (a & b & c & d & ->)].
      right. right. exists (SetWireInfo ev1 a b c d). split; [eauto|].
      rewrite (Hstore (SetWireInfo ev1 a b c d) ltac:(eauto)) in Hrun.
      destruct (SetEvent (store p) (SetWireInfo ev1 a b c d)) as [s' [err|]]; [done|].
      split; [done|]. split; eauto.
    + pose proof (keeps_setWireInfo id ev1 p1) as Hk. rewrite Hw in Hk. cbn in Hk.
      subst p2. right. left. by subst run.
    + pose proof (keeps_setWireInfo id ev1 p1) as Hk. rewrite Hw in Hk. cbn in Hk.
      subst p2. right. left. by subst run.
    + pose proof (keeps_setWireInfo id ev1 p1) as Hk. rewrite Hw in Hk. cbn in Hk.
      subst p2. right. left. by subst run.
  - right. right. exists ev1. split; [by exists 0, 0, 0, 0|].
    unfold ret at 1 in Hrun. cbv beta iota in Hrun.
    rewrite (Hstore ev1 ltac:(by exists 0, 0, 0, 0)) in Hrun.
    destruct (SetEvent (store p) ev1) as [s' [err|]]; [done|].
    split; [done|]. split; eauto.
Qed.


(** X3.  A successful insertion.  The event verified and extends its creator's
    last known event; it was stored with the topological index the engine
    had, and with its wire fields filled when asked.  The engine then
    differs from what it was in exactly this: the store holds the event,
    the topological index is one more, the event's hash is at the end of
    the undetermined queue, the count of pending loaded events is one more
    if the event is loaded, and the event's block signatures are at the
    end of the signature pool. *)
Theorem InsertEvent_success p (event : Event) (setWire : bool) p' :
  InsertEvent event setWire p = (Ok tt, p') ->
  let ev1 := SetTopologicalIndex event (topologicalIndex p) in
  exists stored s',
    (exists a b c d, stored = if setWire then SetWireInfo ev1 a b c d else ev1) /\
    SetEvent (store p) stored = (s', None) /\
    p' = set_sigPool (sigPool p ++ BlockSignatures event)
           (set_pendingLoadedEvents
              (if IsLoaded event then wrap64 (pendingLoadedEvents p + 1)
               else pendingLoadedEvents p)
              (set_undeterminedEvents (undeterminedEvents p ++ [Hex stored])
                 (set_store s'
                    (set_topologicalIndex (wrap64 (topologicalIndex p + 1)) p)))) /\
    (exists verr, Verify event = Some (true, verr)) /\
    (exists isRoot,
       LastEventFrom (store p) (Creator event) = ((SelfParent event, isRoot), None)).
Proof.
  intros Hrun ev1.
  destruct (InsertEvent_outcome p event setWire) as [[Hn _]|[[Hn _]|(stored & Hst & Hcase)]].
  - by rewrite Hrun in Hn.
  - by rewrite Hrun in Hn.
  - exists stored.
    destruct (SetEvent (store p) stored) as [s' [err|]]; [congruence|].
    destruct Hcase as (Hr & Hv & Hl). exists s'.
    split; [done|]. split; [done|]. split; [congruence|]. done.
Qed.

(** X4.  A failed insertion, whatever the failure (an error or a panic), leaves
    the undetermined queue, the count of pending loaded events, the
    signature pool, the pending rounds and the caches as they were.  The
    topological index is either untouched or already taken; the store is
    untouched unless it is the store that refused the event. *)
Theorem InsertEvent_failure p (event : Event) (setWire : bool) :
  let p' := snd (InsertEvent event setWire p) in
  fst (InsertEvent event setWire p) <> Ok tt ->
  undeterminedEvents p' = undeterminedEvents p /\
  pendingLoadedEvents p' = pendingLoadedEvents p /\
  sigPool p' = sigPool p /\
  pendingRounds p' = pendingRounds p /\
  caches p' = caches p /\
  (topologicalIndex p' = topologicalIndex p \/
   topologicalIndex p' = wrap64 (topologicalIndex p + 1)) /\
  (store p' = store p \/
   exists stored err, SetEvent (store p) stored = (store p', Some err)).
Proof.
  intros p' Hfail. subst p'.
  destruct (InsertEvent_outcome p event setWire)
    as [[_ ->]|[(_ & -> & _)|(stored & Hst & Hcase)]].
  - repeat split; auto.
  - repeat split; auto.
  - destruct (SetEvent (store p) stored) as [s' [err|]] eqn:Hse.
    + rewrite Hcase. cbn [snd]. repeat split; auto. right. by exists stored, err.
    + destruct Hcase as (Hr & _). by rewrite Hr in Hfail.
Qed.

End InsertEventMore.

Lemma InsertEvent_rejects_fork_witness :
  InsertEvent forkedA0 true demoPoset =
    (Err (Wrapped "CheckSelfParent: "
            (Errorf "self-parent not last known event by creator")), demoPoset).
Proof.
  rewrite (InsertEvent_rejects_fork demoPoset forkedA0 true None).
  - reflexivity.
  - reflexivity.
  - vm_compute. discriminate.
Defined.

Lemma InsertEvent_rejects_unknown_other_parent_witness :
  InsertEvent orphanA0 true demoPoset =
    (Err (Wrapped "CheckOtherParent: " (Errorf "other-parent not known")), demoPoset).
Proof.
  apply (InsertEvent_rejects_unknown_other_parent demoPoset orphanA0 true None true
           KeyNotFound (NewBaseRoot 0 "Root0")).
  - reflexivity.
  - reflexivity.
  - discriminate.
  - reflexivity.
  - reflexivity.
  - reflexivity.
Defined.

(** The first event of A is accepted by a fresh poset. *)
Lemma InsertEvent_success_witness :
  exists stored s',
    (exists a b c d,
       stored = SetWireInfo (SetTopologicalIndex eventA0 (topologicalIndex demoPoset))
                            a b c d) /\
    SetEvent (store demoPoset) stored = (s', None) /\
    snd (InsertEvent eventA0 true demoPoset)
    = set_sigPool (sigPool demoPoset ++ BlockSignatures eventA0)
        (set_pendingLoadedEvents
           (if IsLoaded eventA0 then wrap64 (pendingLoadedEvents demoPoset + 1)
            else pendingLoadedEvents demoPoset)
           (set_undeterminedEvents (undeterminedEvents demoPoset ++ [Hex stored])
              (set_store s'
                 (set_topologicalIndex (wrap64 (topologicalIndex demoPoset + 1))
                                       demoPoset)))).
Proof.
  destruct (InsertEvent_success demoPoset eventA0 true
              (snd (InsertEvent eventA0 true demoPoset)))
    as (stored & s' & Hst & Hse & Hp & _).
  - vm_compute. reflexivity.
  - exists stored, s'. split; [exact Hst|]. split; [exact Hse | exact Hp].
Defined.

(** The forked event is refused: the queue of the fresh poset stays empty. *)
Lemma InsertEvent_failure_witness :
  undeterminedEvents (snd (InsertEvent forkedA0 true demoPoset)) = [] /\
  sigPool (snd (InsertEvent forkedA0 true demoPoset)) = [].
Proof.
  destruct (InsertEvent_failure demoPoset forkedA0 true) as (Hu & _ & Hs & _).
  - vm_compute. discriminate.
  - split; [exact Hu | exact Hs].
Defined.

(** ** Seeing, timestamps and the timestamp cache *)

Section SeeFacts.
Context {S : Type} `{Store S}.
Variable st : S.
Variable participants : Peers.

(** X5.  Every event sees itself.  With coherent caches, [see x x] answers
    true for every non-empty hash [x], whatever the store holds (the hash
    need not even be stored) and whatever depth is granted. *)
Theorem see_reflexive (budget : nat) (c : Caches) (x : string) :
  coherent st participants c ->
  x <> "" ->
  fst (see st participants budget x x c) = Ok true.
Proof.
  intros Hc Hx.
  assert (Hl : live x x).
  { unfold live. rewrite length_zero_empty. tauto. }
  unfold see, ancestor. destruct budget as [|n]; cbn [ancestorN].
  all: rewrite bind_run; unfold cacheGet.
  all: destruct (lru_get (ancestorCache c) (x, x)) as [[b|] l] eqn:Hget.
  all: try (pose proof (lru_get_peek (ancestorCache c) (x, x)) as Hp;
            rewrite Hget in Hp; cbn [fst] in Hp; symmetry in Hp;
            apply (proj2 Hc) in Hp;
            cbn [ret fst]; f_equal;
            exact (Anc_det st participants x x b true Hp (Anc_refl st participants x Hl))).
  all: destruct (decide _) as [He|_]; [exfalso; apply Hl, He|].
  all: unfold ancestor2; destruct (decide (x = x)); [|done].
  all: reflexivity.
Qed.

(** X6.  Seeing respects Lamport timestamps.  When a stored event [x] sees
    [y], the difference of their timestamps, as the engine computes it
    (timestamp of [y] minus timestamp of [x], on int64), is not positive:
    what an event sees is never younger than the event. *)
Theorem see_respects_timestamps (budget : nat) (c : Caches) (x y : string) (ex : Event) :
  coherent st participants c ->
  GetEvent st x = ROk ex ->
  fst (see st participants budget x y c) = Ok true ->
  forall b1 b2 c1 c2 xlt ylt,
    coherent st participants c1 -> coherent st participants c2 ->
    fst (lamportTimestamp st b1 x c1) = Ok xlt ->
    fst (lamportTimestamp st b2 y c2) = Ok ylt ->
    wrap64 (ylt - xlt) <= 0.
Proof.
  intros Hc Hex Hsee b1 b2 c1 c2 xlt ylt Hc1 Hc2 Hx Hy.
  apply (see_sound st participants budget x y c Hc) in Hsee.
  apply (lamportTimestampN_sound st participants b1 x c1 Hc1) in Hx.
  apply (lamportTimestampN_sound st participants b2 y c2 Hc2) in Hy.
  assert (Hno : forall ex', notOlder st x y ex' -> wrap64 (ylt - xlt) <= 0).
  { intros ex' (_ & _ & xlt' & ylt' & Hx' & Hy' & Hle).
    by rewrite (LT_det st x xlt xlt' Hx Hx'), (LT_det st y ylt ylt' Hy Hy'). }
  remember true as b eqn:Hb.
  destruct Hsee; try discriminate; eauto.
  - rewrite (LT_det st x xlt ylt Hx Hy), Z.sub_diag. by vm_compute.
  - congruence.
Qed.

Lemma lru_size_get {K V} `{EqDecision K} (l : lru K V) k :
  lru_size (snd (lru_get l k)) = lru_size l.
Proof. unfold lru_get. by destruct (assoc k (lru_items l)). Qed.

Lemma lru_peek_add_same {K V} `{EqDecision K} (l : lru K V) k v :
  (0 < lru_size l)%nat -> lru_peek (lru_add l k v) k = Some v.
Proof.
  unfold lru_peek, lru_add. cbn [lru_items lru_size].
  destruct (lru_size l) as [|n]; [lia|]. intros _. cbn [take assoc].
  by destruct (decide (k = k)).
Qed.

Lemma keeps_capacity_get k :
  keeps timestampCapacity (cacheGet timestampCache set_timestampCache k).
Proof.
  intros c. unfold cacheGet, timestampCapacity.
  pose proof (lru_size_get (timestampCache c) k) as Hs.
  by destruct (lru_get (timestampCache c) k).
Qed.

Lemma keeps_capacity_add k v :
  keeps timestampCapacity (cacheAdd timestampCache set_timestampCache k v).
Proof. done. Qed.

Lemma keeps_capacity_lamportTimestampN n : forall x,
  keeps timestampCapacity (lamportTimestampN st n x).
Proof.
  induction n as [|n IH]; intros x; cbn [lamportTimestampN];
    unfold lamportTimestamp2; cbv zeta; keeps_auto;
    first [apply keeps_capacity_get | apply keeps_capacity_add | apply IH].
Qed.

(** A cached timestamp is the answer, whatever store is asked. *)
Lemma lamportTimestampN_cached (st' : S) n x c t :
  lru_peek (timestampCache c) x = Some t ->
  fst (lamportTimestampN st' n x c) = Ok t.
Proof.
  intros Hp. destruct (lru_get_Some _ _ _ Hp) as [l Hl].
  destruct n; cbn [lamportTimestampN]; rewrite bind_run; unfold cacheGet; by rewrite Hl.
Qed.

(** After it has answered, [lamportTimestamp] holds the answer in its
    cache. *)
Lemma lamportTimestampN_caches n x c t c' :
  (0 < timestampCapacity c)%nat ->
  lamportTimestampN st n x c = (Ok t, c') ->
  lru_peek (timestampCache c') x = Some t.
Proof.
  intros Hsize Hrun.
  assert (Hgen : forall rec : string -> G Z,
             (forall y, keeps timestampCapacity (rec y)) ->
             (c0 <- cacheGet timestampCache set_timestampCache x ;;
              match c0 with
              | Some t0 => ret t0
              | None =>
                  r <- lamportTimestamp2 st rec x ;;
                  _ <- cacheAdd timestampCache set_timestampCache x r ;;
                  ret r
              end) c = (Ok t, c') ->
             lru_peek (timestampCache c') x = Some t).
  { intros rec Hrec. rewrite bind_run. unfold cacheGet.
    pose proof (lru_get_peek (timestampCache c) x) as Hgp.
    pose proof (lru_peek_get (timestampCache c) x x) as Hpg.
    pose proof (lru_size_get (timestampCache c) x) as Hsz.
    destruct (lru_get (timestampCache c) x) as [[t0|] l]; cbn [fst snd] in *.
    - intros [= -> <-]. cbn. by rewrite Hpg.
    - rewrite bind_run.
      assert (Hk : keeps timestampCapacity (lamportTimestamp2 st rec x)).
      { unfold lamportTimestamp2; cbv zeta; keeps_auto; apply Hrec. }
      specialize (Hk (set_timestampCache l c)).
      destruct (lamportTimestamp2 st rec x (set_timestampCache l c)) as [[r| | |] c1];
        try discriminate.
      cbn [snd] in Hk. rewrite bind_run. unfold cacheAdd, ret.
      intros [= -> <-]. cbn [timestampCache set_timestampCache].
      apply lru_peek_add_same.
      unfold timestampCapacity in *. cbn in Hk. lia. }
  destruct n; cbn [lamportTimestampN] in Hrun; eapply Hgen; try exact Hrun.
  - done.
  - apply keeps_capacity_lamportTimestampN.
Qed.

(** X7.  Timestamps are memoised.  Once [lamportTimestamp x] has answered
    [t], with a timestamp cache of positive capacity, asking again in the
    resulting state answers [t] from the cache: at any depth, even none,
    and whatever the store has become in between. *)
Theorem lamportTimestamp_memoised (st' : S) (budget n : nat) (c c' : Caches)
    (x : string) (t : Z) :
  (0 < lru_size (timestampCache c))%nat ->
  lamportTimestamp st budget x c = (Ok t, c') ->
  fst (lamportTimestamp st' n x c') = Ok t.
Proof.
  intros Hsize Hrun. apply lamportTimestampN_cached.
  by apply (lamportTimestampN_caches budget x c t c').
Qed.
End SeeFacts.

Lemma see_reflexive_witness :
  fst (see demoStore demoPeers 0 "0xE0" "0xE0" demoCaches) = Ok true.
Proof.
  apply see_reflexive.
  - apply coherent_empty.
  - discriminate.
Defined.

(** In scenario 1 the witness [f1], of timestamp 4, sees [e0], of
    timestamp 0. *)
Lemma see_respects_timestamps_witness :
  fst (see scenarioStore demoPeers 10 "0xF1" "0xE0" demoCaches) = Ok true /\
  wrap64 (0 - 4) <= 0.
Proof.
  split; [by vm_compute|].
  destruct (GetEvent scenarioStore "0xF1") as [ex|] eqn:Hex; [|by vm_compute in Hex].
  apply (see_respects_timestamps scenarioStore demoPeers 10 demoCaches "0xF1" "0xE0" ex
           (coherent_empty _ _ _ _ _ _ _) Hex eq_refl 10%nat 10%nat demoCaches demoCaches).
  - apply coherent_empty.
  - apply coherent_empty.
  - by vm_compute.
  - by vm_compute.
Defined.

Lemma lamportTimestamp_memoised_witness :
  fst (lamportTimestamp demoStore 0 "0xE0"
         (snd (lamportTimestamp storeWithA0 5 "0xE0" demoCaches))) = Ok 0.
Proof.
  apply (lamportTimestamp_memoised storeWithA0 demoStore 5 0 demoCaches).
  - vm_compute. lia.
  - by vm_compute.
Defined.

(** ** What the consensus passes leave alone *)

Section PassesKeep.
Context `{Lib} {S : Type} `{Store S}.
Implicit Types (p : Poset S).
Context {A0 : Type}.
(** An observation of the engine that depends neither on the caches nor on
    the store. *)
Variable f : Poset S -> A0.
Hypothesis f_caches : forall c p, f (set_caches c p) = f p.
Hypothesis f_store : forall s p, f (set_store s p) = f p.
Variable budget : nat.

Lemma keeps_seeM x y : keeps f (seeM budget x y).
Proof using f_caches. apply keeps_callG, f_caches. Qed.

Lemma keeps_stronglySeeM x y : keeps f (stronglySeeM budget x y).
Proof using f_caches. apply keeps_callG, f_caches. Qed.

Lemma keeps_stronglySeen y ws : keeps f (stronglySeen budget y ws).
Proof using f_caches.
  induction ws as [|w ws IH]; simpl; keeps_auto. apply keeps_stronglySeeM.
Qed.

Lemma keeps_voteWitnesses roundIndex j x ys votes roundInfo :
  keeps f (voteWitnesses budget roundIndex j x ys votes roundInfo).
Proof using f_caches.
  revert votes roundInfo. induction ys as [|y ys IH]; intros votes roundInfo; simpl;
    cbv zeta; keeps_auto;
    first [apply keeps_seeM | apply keeps_stronglySeen | apply IH].
Qed.

Lemma keeps_voteLoop n roundIndex : forall j x votes roundInfo,
  keeps f (voteLoop budget n roundIndex j x votes roundInfo).
Proof using f_caches.
  induction n as [|n IH]; intros j x votes roundInfo; simpl; keeps_auto;
    first [apply keeps_voteWitnesses | apply IH].
Qed.

Lemma keeps_voteOnWitnesses roundIndex xs : forall votes roundInfo,
  keeps f (voteOnWitnesses budget roundIndex xs votes roundInfo).
Proof using f_caches.
  induction xs as [|x xs IH]; intros votes roundInfo; simpl; keeps_auto;
    first [apply keeps_voteLoop | apply IH].
Qed.

Lemma keeps_decideFameRounds rs : forall pos votes decidedRounds,
  keeps f (decideFameRounds budget rs pos votes decidedRounds).
Proof using f_caches f_store.
  induction rs as [|r rs IH]; intros pos votes decidedRounds; simpl; cbv zeta; keeps_auto;
    first [apply keeps_voteOnWitnesses | apply keeps_storeWrite, f_store | apply IH].
Qed.

Lemma keeps_seenBy x fws : keeps f (seenBy budget x fws).
Proof using f_caches.
  induction fws as [|w fws IH]; simpl; keeps_auto. apply keeps_seeM.
Qed.

Lemma keeps_receiveScan n x r : forall i, keeps f (receiveScan budget n x r i).
Proof using f_caches f_store.
  induction n as [|n IH]; intros i; simpl; cbv zeta; keeps_auto;
    first [apply keeps_seenBy | apply keeps_storeWrite, f_store | apply IH].
Qed.

Lemma keeps_decideReceivedLoop xs : forall acc,
  keeps f (decideReceivedLoop budget xs acc).
Proof using f_caches f_store.
  induction xs as [|x xs IH]; intros acc; simpl; keeps_auto;
    first [apply keeps_roundM, f_caches | apply keeps_receiveScan | apply IH].
Qed.
End PassesKeep.

(** ** DecideFame and DecideRoundReceived: the queues *)

Section QueueFacts.
Context `{Lib} {S : Type} `{Store S}.
Implicit Types (p : Poset S).
Variable budget : nat.

Lemma DecideFame_run p :
  DecideFame budget p =
    match decideFameRounds budget (pendingRounds p) 0 ∅ ∅ p with
    | (Ok decidedRounds, p1) => updatePendingRounds decidedRounds p1
    | (Err e, p1) => (Err e, p1)
    | (Panic, p1) => (Panic, p1)
    | (NoFuel, p1) => (NoFuel, p1)
    end.
Proof. reflexivity. Qed.

Lemma keeps_DecideFame {A0} (f : Poset S -> A0) :
  (forall c p, f (set_caches c p) = f p) ->
  (forall s p, f (set_store s p) = f p) ->
  (forall v p, f (set_pendingRounds v p) = f p) ->
  keeps f (DecideFame budget).
Proof.
  intros Hc Hs Hp. unfold DecideFame, updatePendingRounds. keeps_auto.
  - by apply keeps_decideFameRounds.
  - apply keeps_modify. intros p. apply Hp.
Qed.

(** X8.  [DecideFame] and the queue of pending rounds.  However the pass
    ends, the queue holds the same rounds in the same order; a round that
    was decided is left as it is, so the pass can only turn undecided
    rounds into decided ones; and when the pass fails the queue is
    unchanged.  The undetermined events, the signature pool, the last
    consensus round, the anchor block and the topological index are not
    touched. *)
Theorem DecideFame_pending_rounds p :
  let p' := snd (DecideFame budget p) in
  pr_Index <$> pendingRounds p' = pr_Index <$> pendingRounds p /\
  (forall (i : nat) r,
     pendingRounds p !! i = Some r -> pr_Decided r = true ->
     pendingRounds p' !! i = Some r) /\
  (fst (DecideFame budget p) <> Ok tt -> pendingRounds p' = pendingRounds p) /\
  undeterminedEvents p' = undeterminedEvents p /\
  sigPool p' = sigPool p /\
  lastConsensusRound p' = lastConsensusRound p /\
  anchorBlock p' = anchorBlock p /\
  topologicalIndex p' = topologicalIndex p.
Proof.
  cbv zeta.
  assert (Hq : (pr_Index <$> pendingRounds (snd (DecideFame budget p))
                = pr_Index <$> pendingRounds p) /\
               (forall (i : nat) r,
                  pendingRounds p !! i = Some r -> pr_Decided r = true ->
                  pendingRounds (snd (DecideFame budget p)) !! i = Some r) /\
               (fst (DecideFame budget p) <> Ok tt ->
                pendingRounds (snd (DecideFame budget p)) = pendingRounds p)).
  { rewrite DecideFame_run.
    pose proof (keeps_decideFameRounds pendingRounds (fun _ _ => eq_refl)
                  (fun _ _ => eq_refl) budget (pendingRounds p) 0 ∅ ∅ p) as Hk.
    destruct (decideFameRounds budget (pendingRounds p) 0 ∅ ∅ p) as [[dr| | |] p1];
      cbn [snd fst] in *; rewrite ?Hk; try done.
    unfold updatePendingRounds, modify. cbn [snd fst pendingRounds set_pendingRounds].
    rewrite Hk.
    split; [|split; [|done]].
    - rewrite <- list_fmap_compose. apply list_fmap_ext.
      intros i r _. cbn. by destruct (dr !! pr_Index r).
    - intros i r Hi Hd. rewrite list_lookup_fmap, Hi. cbn.
      destruct (dr !! pr_Index r); [|done].
      destruct r as [idx d]. cbn in Hd. by rewrite Hd. }
  destruct Hq as (Hq1 & Hq2 & Hq3).
  repeat split; try done.
  all: by apply keeps_DecideFame.
Qed.

Lemma DecideRoundReceived_run p :
  DecideRoundReceived budget p =
    match decideReceivedLoop budget (undeterminedEvents p) [] p with
    | (Ok new, p1) => (Ok tt, set_undeterminedEvents new p1)
    | (Err e, p1) => (Err e, p1)
    | (Panic, p1) => (Panic, p1)
    | (NoFuel, p1) => (NoFuel, p1)
    end.
Proof. reflexivity. Qed.

Lemma keeps_DecideRoundReceived {A0} (f : Poset S -> A0) :
  (forall c p, f (set_caches c p) = f p) ->
  (forall s p, f (set_store s p) = f p) ->
  (forall v p, f (set_undeterminedEvents v p) = f p) ->
  keeps f (DecideRoundReceived budget).
Proof.
  intros Hc Hs Hp. unfold DecideRoundReceived, setUndeterminedEvents. keeps_auto.
  - by apply keeps_decideReceivedLoop.
  - apply keeps_modify. intros p. apply Hp.
Qed.

(** The loop returns what it was given followed by some of the events it
    went through, in their order. *)
Lemma decideReceivedLoop_sublist xs : forall acc p new,
  fst (decideReceivedLoop budget xs acc p) = Ok new ->
  exists kept, new = (acc ++ kept)%list /\ kept `sublist_of` xs.
Proof.
  induction xs as [|x xs IH]; intros acc p new; cbn [decideReceivedLoop].
  - intros [= <-]. exists []. by rewrite app_nil_r.
  - rewrite bind_run. destruct (roundM budget x p) as [[r| | |] p1]; try done.
    rewrite bind_run.
    destruct (receiveScan budget budget x r (wrap64 (r + 1)) p1) as [[res| | |] p2];
      try done.
    intros (kept & -> & Hsub)%IH.
    destruct res.
    + exists (x :: kept). rewrite <- app_assoc. split; [done|]. by apply sublist_skip.
    + exists kept. split; [done|]. by apply sublist_cons.
    + exists kept. split; [done|]. by apply sublist_cons.
Qed.

(** X9.  [DecideRoundReceived] and the queue of undetermined events.  When
    the pass succeeds, the new queue is made of events of the old queue,
    in the order they had: the pass adds no event and reorders none.  When
    it fails, the queue is unchanged.  The pending rounds, the signature
    pool, the last consensus round, the anchor block and the topological
    index are not touched. *)
Theorem DecideRoundReceived_undetermined p :
  let p' := snd (DecideRoundReceived budget p) in
  undeterminedEvents p' `sublist_of` undeterminedEvents p /\
  (fst (DecideRoundReceived budget p) <> Ok tt ->
   undeterminedEvents p' = undeterminedEvents p) /\
  pendingRounds p' = pendingRounds p /\
  sigPool p' = sigPool p /\
  lastConsensusRound p' = lastConsensusRound p /\
  anchorBlock p' = anchorBlock p /\
  topologicalIndex p' = topologicalIndex p.
Proof.
  cbv zeta.
  assert (Hq : undeterminedEvents (snd (DecideRoundReceived budget p))
                 `sublist_of` undeterminedEvents p /\
               (fst (DecideRoundReceived budget p) <> Ok tt ->
                undeterminedEvents (snd (DecideRoundReceived budget p))
                = undeterminedEvents p)).
  { rewrite DecideRoundReceived_run.
    pose proof (keeps_decideReceivedLoop undeterminedEvents (fun _ _ => eq_refl)
                  (fun _ _ => eq_refl) budget (undeterminedEvents p) [] p) as Hk.
    pose proof (decideReceivedLoop_sublist (undeterminedEvents p) [] p) as Hsub.
    destruct (decideReceivedLoop budget (undeterminedEvents p) [] p) as [[new| | |] p1];
      cbn [snd fst] in *; rewrite ?Hk; try done.
    destruct (Hsub new eq_refl) as (kept & -> & Hkept). done. }
  destruct Hq as (Hq1 & Hq2).
  repeat split; try done.
  all: by apply keeps_DecideRoundReceived.
Qed.
End QueueFacts.

(** ** ProcessDecidedRounds: the queue of pending rounds *)

Section PendingQueue.
Context `{Lib} {S : Type} `{Store S}.
Implicit Types (p : Poset S).
Variable budget : nat.

Lemma keeps_commitFrameEvents {A0} (f : Poset S -> A0) events :
  (forall s p, f (set_store s p) = f p) ->
  (forall v p, f (set_consensusTransactions v p) = f p) ->
  (forall v p, f (set_pendingLoadedEvents v p) = f p) ->
  keeps f (commitFrameEvents events).
Proof.
  intros Hs Hc Hl.
  induction events as [|ev events IH]; simpl;
    unfold AddConsensusTransactions, decreasePendingLoadedEvents; keeps_auto;
    first [apply keeps_storeWrite, Hs | apply keeps_modify; intros p; first [apply Hc | apply Hl]].
Qed.

Lemma keeps_processDecidedRound {A0} (f : Poset S -> A0) r :
  (forall c p, f (set_caches c p) = f p) ->
  (forall s p, f (set_store s p) = f p) ->
  (forall v p, f (set_consensusTransactions v p) = f p) ->
  (forall v p, f (set_pendingLoadedEvents v p) = f p) ->
  (forall v p, f (set_commitCh v p) = f p) ->
  (forall v p, f (set_lastConsensusRound v p) = f p) ->
  (forall v p, f (set_firstConsensusRound v p) = f p) ->
  keeps f (processDecidedRound budget r).
Proof.
  intros Hc Hs Ht Hl Hch Hlcr Hfcr.
  assert (Hset : forall i, keeps f (setLastConsensusRound (S := S) i)).
  { intros i. apply keeps_modify. intros p. cbv zeta.
    destruct (firstConsensusRound _); by rewrite ?Hfcr, Hlcr. }
  unfold processDecidedRound, sendBlock. keeps_auto;
    first [ apply keeps_wrapErr, keeps_GetFrame; assumption
          | by apply keeps_commitFrameEvents
          | apply keeps_storeWrite, Hs
          | apply Hset
          | apply keeps_modify; intros p; destruct (commitCh p); by rewrite ?Hch ].
Qed.

Lemma processDecidedRound_undecided r p :
  pr_Decided r = false -> processDecidedRound budget r p = (Ok StopLoop, p).
Proof. intros Hd. unfold processDecidedRound. by rewrite Hd. Qed.

Lemma processDecidedRound_decided r p step :
  fst (processDecidedRound budget r p) = Ok step -> step <> StopLoop ->
  pr_Decided r = true.
Proof.
  intros Hrun Hstep. destruct (pr_Decided r) eqn:Hd; [done|].
  rewrite processDecidedRound_undecided in Hrun by done. by injection Hrun as <-.
Qed.

(** The loop leaves the queue alone and counts only decided rounds, all of
    them before the first undecided one. *)
Lemma processRounds_counts rs : forall k p,
  pendingRounds (snd (processRounds budget rs k p)) = pendingRounds p /\
  exists j : nat,
    snd (fst (processRounds budget rs k p)) = (k + j)%nat /\
    Forall (fun r => pr_Decided r = true) (take j rs).
Proof.
  induction rs as [|r rs IH]; intros k p; cbn [processRounds].
  - split; [done|]. exists 0%nat. split; [cbn; lia | by rewrite take_0].
  - pose proof (keeps_processDecidedRound pendingRounds r
                  (fun _ _ => eq_refl) (fun _ _ => eq_refl) (fun _ _ => eq_refl)
                  (fun _ _ => eq_refl) (fun _ _ => eq_refl) (fun _ _ => eq_refl)
                  (fun _ _ => eq_refl) p) as Hk.
    pose proof (processDecidedRound_decided r p) as Hd.
    destruct (processDecidedRound budget r p) as [[[]| | |] p1]; cbn [fst snd] in *.
    all: try (split; [done|]; exists 0%nat; split; [cbn; lia | by rewrite take_0]).
    + destruct (IH k p1) as (Hq & j & Hj & Hall). split; [congruence|].
      exists j. split; [done|].
      destruct j as [|j]; [by rewrite take_0|].
      cbn [take]. constructor; [by apply (Hd SkipRound)|].
      replace j with (Nat.min j (Datatypes.S j)) by lia.
      rewrite <- take_take. by apply Forall_take.
    + destruct (IH (Datatypes.S k) p1) as (Hq & j & Hj & Hall). split; [congruence|].
      exists (Datatypes.S j). split; [lia|].
      cbn [take]. constructor; [by apply (Hd RoundProcessed)|done].
Qed.

(** X10.  [ProcessDecidedRounds] and the queue of pending rounds.  However
    the pass ends, it only removes rounds from the front of the queue, and
    every round it removes was decided; what stays is left as it was.  In
    particular, when the first pending round is not decided (or the queue
    is empty) the pass does nothing at all.  The undetermined events, the
    signature pool, the anchor block and the topological index are not
    touched. *)
Theorem ProcessDecidedRounds_pending_rounds p :
  let p' := snd (ProcessDecidedRounds budget p) in
  (exists k : nat,
     pendingRounds p' = drop k (pendingRounds p) /\
     Forall (fun r => pr_Decided r = true) (take k (pendingRounds p))) /\
  (head (pendingRounds p) = None \/
   (exists r, head (pendingRounds p) = Some r /\ pr_Decided r = false) ->
   ProcessDecidedRounds budget p = (Ok tt, p)) /\
  undeterminedEvents p' = undeterminedEvents p /\
  sigPool p' = sigPool p /\
  anchorBlock p' = anchorBlock p /\
  topologicalIndex p' = topologicalIndex p.
Proof.
  cbv zeta. unfold ProcessDecidedRounds.
  assert (Hf : forall {A0} (f : Poset S -> A0) rs k p0,
             (forall c p, f (set_caches c p) = f p) ->
             (forall s p, f (set_store s p) = f p) ->
             (forall v p, f (set_consensusTransactions v p) = f p) ->
             (forall v p, f (set_pendingLoadedEvents v p) = f p) ->
             (forall v p, f (set_commitCh v p) = f p) ->
             (forall v p, f (set_lastConsensusRound v p) = f p) ->
             (forall v p, f (set_firstConsensusRound v p) = f p) ->
             f (snd (processRounds budget rs k p0)) = f p0).
  { intros A0 f rs. induction rs as [|r rs IH]; intros k p0 H1 H2 H3 H4 H5 H6 H7;
      cbn [processRounds]; [done|].
    pose proof (keeps_processDecidedRound f r H1 H2 H3 H4 H5 H6 H7 p0) as Hk.
    destruct (processDecidedRound budget r p0) as [[[]| | |] p1]; cbn [fst snd] in *;
      try done.
    all: by rewrite IH. }
  destruct (processRounds_counts (pendingRounds p) 0 p) as (Hq & j & Hj & Hall).
  split; [|split].
  - exists j.
    destruct (processRounds budget (pendingRounds p) 0 p) as [[o k] p1].
    cbn [fst snd] in *. subst k. by rewrite Hq.
  - intros Hhead.
    assert (Hrun : processRounds budget (pendingRounds p) 0 p = (Ok tt, 0%nat, p)).
    { destruct (pendingRounds p) as [|r rs]; [done|].
      destruct Hhead as [?|(r' & [= <-] & Hd)]; [done|].
      cbn [processRounds]. by rewrite processDecidedRound_undecided. }
    rewrite Hrun. rewrite drop_0. by destruct p.
  - pose proof (Hf _ undeterminedEvents (pendingRounds p) 0%nat p) as H1.
    pose proof (Hf _ sigPool (pendingRounds p) 0%nat p) as H2.
    pose proof (Hf _ anchorBlock (pendingRounds p) 0%nat p) as H3.
    pose proof (Hf _ topologicalIndex (pendingRounds p) 0%nat p) as H4.
    destruct (processRounds budget (pendingRounds p) 0 p) as [[o k] p1].
    cbn [fst snd] in *. cbn.
    rewrite H1, H2, H3, H4; done.
Qed.
End PendingQueue.

(** ** ProcessSigPool: the anchor block and the pool *)

Section SigPoolMore.
Context `{Lib} {S : Type} `{Store S}.
Implicit Types (p : Poset S).

Lemma lcrLe_refl a : lcrLe a a.
Proof. destruct a; simpl; [lia | done]. Qed.

Lemma keeps_processSignature {A0} (f : Poset S -> A0) bs :
  (forall s p, f (set_store s p) = f p) ->
  (forall v p, f (set_anchorBlock v p) = f p) ->
  keeps f (processSignature bs).
Proof.
  intros Hs Ha. unfold processSignature, SetAnchorBlock. cbv zeta. keeps_auto;
    first [apply keeps_storeWrite, Hs | apply keeps_modify; intros ?; apply Ha].
Qed.

Lemma keeps_processSigLoop {A0} (f : Poset S -> A0) pool :
  (forall s p, f (set_store s p) = f p) ->
  (forall v p, f (set_anchorBlock v p) = f p) ->
  forall i marks, keeps f (processSigLoop pool i marks).
Proof.
  intros Hs Ha. induction pool as [|bs pool IH]; intros i marks; simpl; keeps_auto;
    first [by apply keeps_processSignature | apply IH].
Qed.

Lemma keeps_ProcessSigPool {A0} (f : Poset S -> A0) :
  (forall s p, f (set_store s p) = f p) ->
  (forall v p, f (set_anchorBlock v p) = f p) ->
  (forall v p, f (set_sigPool v p) = f p) ->
  keeps f ProcessSigPool.
Proof.
  intros Hs Ha Hp. unfold ProcessSigPool, removeProcessedSignatures. keeps_auto;
    first [by apply keeps_processSigLoop | apply keeps_modify; intros p; apply Hp].
Qed.

(** One signature moves the anchor block only upwards. *)
Lemma processSignature_anchor bs p :
  lcrLe (anchorBlock p) (anchorBlock (snd (processSignature bs p))).
Proof.
  unfold processSignature, bind, gets, ret, storeWrite, SetAnchorBlock, modify, id.
  destruct (peers_ByPubKey (participants p) !! sprintf0xX (bs_Validator bs));
    [|apply lcrLe_refl].
  destruct (match anchorBlock p with Some a => a <? bs_Index bs | None => true end);
    [|apply lcrLe_refl].
  destruct (GetBlock (store p) (bs_Index bs)) as [block|]; [|apply lcrLe_refl].
  destruct (blockVerify block bs) as [[]|]; [|apply lcrLe_refl..].
  destruct (SetBlock (store p) (SetSignature block bs)) as [s' e].
  cbn [fst snd trustCount anchorBlock set_store].
  destruct (trustCount p <? _); cbn [andb]; [|apply lcrLe_refl].
  destruct (anchorBlock p) as [a|] eqn:Ha; cbn; [|by rewrite ?Ha].
  destruct (a <? blk_Index block) eqn:E; cbn; rewrite ?Ha; cbn; [|lia].
  apply Z.ltb_lt in E. lia.
Qed.

Lemma processSigLoop_anchor pool : forall i marks p,
  lcrLe (anchorBlock p) (anchorBlock (snd (processSigLoop pool i marks p))).
Proof.
  induction pool as [|bs pool IH]; intros i marks p; cbn [processSigLoop].
  - apply lcrLe_refl.
  - rewrite bind_run. pose proof (processSignature_anchor bs p) as Hstep.
    destruct (processSignature bs p) as [[step| | |] p1]; cbn [snd] in *; try done.
    destruct step; first [exact Hstep | eapply lcrLe_trans; [exact Hstep | apply IH]].
Qed.

(** X11.  [ProcessSigPool] moves the anchor block only upwards: over a
    run, however it ends, an anchor block that was set stays set and its
    index does not decrease. *)
Theorem ProcessSigPool_anchor_monotone p :
  lcrLe (anchorBlock p) (anchorBlock (snd (ProcessSigPool p))).
Proof.
  unfold ProcessSigPool. rewrite bind_run. unfold gets at 1. cbn [id].
  rewrite bind_run.
  pose proof (processSigLoop_anchor (sigPool p) 0 ∅ p) as Hloop.
  destruct (processSigLoop (sigPool p) 0 ∅ p) as [[r| | |] p1]; cbn [snd] in *; try done.
  rewrite bind_run. unfold removeProcessedSignatures, modify.
  destruct (snd r); exact Hloop.
Qed.

(** X12.  [ProcessSigPool] only takes signatures out of the pool: however
    the run ends, the pool it leaves is made of signatures of the pool it
    found, in the order they had.  The undetermined events, the pending
    rounds, the last consensus round, the topological index and the caches
    are not touched. *)
Theorem ProcessSigPool_shrinks_pool p :
  let p' := snd (ProcessSigPool p) in
  sigPool p' `sublist_of` sigPool p /\
  undeterminedEvents p' = undeterminedEvents p /\
  pendingRounds p' = pendingRounds p /\
  lastConsensusRound p' = lastConsensusRound p /\
  topologicalIndex p' = topologicalIndex p /\
  caches p' = caches p.
Proof.
  cbv zeta. split.
  - destruct (ProcessSigPool_pool p) as (marks & -> & _). apply sublist_filter.
  - repeat split; by apply keeps_ProcessSigPool.
Qed.
End SigPoolMore.

(** ** Reset: the state it builds *)

Lemma wrap64_add_l a b : wrap64 (wrap64 a + b) = wrap64 (a + b).
Proof.
  unfold wrap64. f_equal.
  replace (a + b + 2 ^ 63) with ((a + 2 ^ 63) + b) by lia.
  replace ((a + 2 ^ 63) mod 2 ^ 64 - 2 ^ 63 + b + 2 ^ 63)
    with ((a + 2 ^ 63) mod 2 ^ 64 + b) by lia.
  by rewrite Zplus_mod_idemp_l.
Qed.

Section ResetMore.
Context `{Lib} {S : Type} `{Store S}.
Implicit Types (p : Poset S).

Lemma Hex_SetTopologicalIndex (e : Event) i : Hex (SetTopologicalIndex e i) = Hex e.
Proof. done. Qed.

(** The frame events inserted one after the other, all accepted. *)
Lemma insertFrameEvents_ok events : forall p p',
  insertFrameEvents events p = (Ok tt, p') ->
  in_int64 (topologicalIndex p) -> in_int64 (pendingLoadedEvents p) ->
  undeterminedEvents p' = (undeterminedEvents p ++ (Hex <$> events))%list /\
  sigPool p' = (sigPool p ++ concat (BlockSignatures <$> events))%list /\
  topologicalIndex p' = wrap64 (topologicalIndex p + Z.of_nat (length events)) /\
  pendingLoadedEvents p'
  = wrap64 (pendingLoadedEvents p + Z.of_nat (length (filter IsLoaded events))) /\
  Forall (fun e => exists verr, Verify e = Some (true, verr)) events /\
  lastConsensusRound p' = lastConsensusRound p /\
  firstConsensusRound p' = firstConsensusRound p /\
  anchorBlock p' = anchorBlock p /\
  pendingRounds p' = pendingRounds p.
Proof.
  induction events as [|ev events IH]; intros p p'; cbn [insertFrameEvents].
  - intros [= <-] Ht Hl. rewrite !app_nil_r, !Z.add_0_r, !wrap64_id by done. done.
  - rewrite bind_run. intros Hrun Ht Hl.
    destruct (InsertEvent_outcome p ev false)
      as [[Hn Hs]|[(_ & _ & [=])|(stored & (_ & _ & _ & _ & ->) & Hcase)]].
    { destruct (InsertEvent ev false p) as [[[]| | |] p1]; done. }
    destruct (SetEvent (store p) (SetTopologicalIndex ev (topologicalIndex p)))
      as [s' [err|]]; [by rewrite Hcase in Hrun|].
    destruct Hcase as (Hr & Hv & _). rewrite Hr in Hrun.
    apply IH in Hrun as (Hu & Hsp & Hti & Hpl & Hall & Hlcr & Hfcr & Ha & Hpr);
      [| apply wrap64_range | unfold set_sigPool, set_pendingLoadedEvents; cbn [pendingLoadedEvents];
         destruct (IsLoaded ev); [apply wrap64_range | exact Hl]].
    cbn in Hu, Hsp, Hti, Hpl, Hlcr, Hfcr, Ha, Hpr.
    rewrite Hu, Hsp, Hti, Hpl, Hlcr, Hfcr, Ha, Hpr.
    rewrite <- !app_assoc, wrap64_add_l. cbn [fmap list_fmap concat length app].
    rewrite filter_cons.
    repeat split; try done.
    + f_equal. lia.
    + destruct (IsLoaded ev) eqn:Hld.
      * rewrite decide_True by done. rewrite wrap64_add_l. cbn [length]. f_equal. lia.
      * rewrite decide_False by (cbn; tauto). reflexivity.
    + by constructor.
Qed.

Lemma Reset_run block frame p p' :
  Reset block frame p = (Ok tt, p') ->
  exists pc,
    lastConsensusRound pc = Some (blk_RoundReceived block) /\
    firstConsensusRound pc = Some (blk_RoundReceived block) /\
    anchorBlock pc = None /\ pendingRounds pc = [] /\ undeterminedEvents pc = [] /\
    topologicalIndex pc = 0 /\ pendingLoadedEvents pc = 0 /\ sigPool pc = sigPool p /\
    insertFrameEvents (frame_Events frame) pc = (Ok tt, p').
Proof.
  unfold Reset.
  unfold clearLastConsensusRound, clearFirstConsensusRound, clearAnchorBlock,
    setUndeterminedEvents, clearPendingRounds, clearPendingLoadedEvents,
    clearTopologicalIndex.
  do 7 (rewrite bind_run; unfold modify at 1; cbn beta iota).
  rewrite bind_run. unfold gets at 1. cbn [id]. cbv zeta.
  set (q := set_topologicalIndex 0 _).
  assert (Hq : sigPool q = sigPool p /\ anchorBlock q = None /\ pendingRounds q = [] /\
               undeterminedEvents q = [] /\ topologicalIndex q = 0 /\
               pendingLoadedEvents q = 0 /\ firstConsensusRound q = None) by done.
  clearbody q. destruct Hq as (Hsp & Ha & Hpr & Hu & Hti & Hpl & Hfcr).
  destruct (newCache (K := Key) (V := bool) (CacheSize (store q))) as [kc|].
  2:{ rewrite bind_run. unfold liftOpt at 1, panic at 1. cbn beta iota.
      intros Hbad; discriminate Hbad. }
  do 3 (rewrite bind_run; unfold liftOpt at 1, ret at 1; cbn beta iota).
  rewrite bind_run.
  destruct (newCache (K := string) (V := Z) (CacheSize (store q))) as [rc|];
    unfold liftOpt at 1; [unfold ret at 1 | unfold panic at 1];
    cbn beta iota; [|intros Hbad; discriminate Hbad].
  rewrite bind_run; unfold modify at 1; cbn beta iota.
  rewrite bind_run.
  destruct (rootMapOf _ _ _ _) as [rootMap|];
    unfold liftOpt at 1; [unfold ret at 1 | unfold panic at 1];
    cbn beta iota; [|intros Hbad; discriminate Hbad].
  rewrite bind_run. unfold storeWrite at 1.
  destruct (StoreReset _ rootMap) as [s1 [err|]]; cbn beta iota;
    [unfold fail at 1; intros Hbad; discriminate Hbad|].
  rewrite bind_run. unfold storeWrite at 1.
  destruct (SetBlock _ block) as [s2 [err|]]; cbn beta iota;
    [unfold fail at 1; intros Hbad; discriminate Hbad|].
  rewrite bind_run. unfold setLastConsensusRound at 1, modify at 1. cbn beta iota zeta.
  cbn [firstConsensusRound set_lastConsensusRound set_store set_caches]. rewrite Hfcr.
  intros Hrun.
  match type of Hrun with insertFrameEvents _ ?pc = _ => exists pc end.
  repeat split; [..|exact Hrun]; cbn; done.
Qed.

(** X13.  What a successful [Reset] builds.  The last and the first
    consensus round are the block's round received; there is no anchor
    block and no pending round; the undetermined queue holds the frame's
    events, in order, and nothing else; the topological index is their
    number and the count of pending loaded events is the number of loaded
    ones among them (on int64); every frame event passed the signature
    check.  The signature pool is not cleared: it is the pool [Reset]
    found, followed by the block signatures of the frame's events. *)
Theorem Reset_success block frame p p' :
  Reset block frame p = (Ok tt, p') ->
  lastConsensusRound p' = Some (blk_RoundReceived block) /\
  firstConsensusRound p' = Some (blk_RoundReceived block) /\
  anchorBlock p' = None /\
  pendingRounds p' = [] /\
  undeterminedEvents p' = Hex <$> frame_Events frame /\
  topologicalIndex p' = wrap64 (Z.of_nat (length (frame_Events frame))) /\
  pendingLoadedEvents p'
  = wrap64 (Z.of_nat (length (filter IsLoaded (frame_Events frame)))) /\
  sigPool p' = (sigPool p ++ concat (BlockSignatures <$> frame_Events frame))%list /\
  Forall (fun e => exists verr, Verify e = Some (true, verr)) (frame_Events frame).
Proof.
  intros Hrun.
  destruct (Reset_run block frame p p' Hrun)
    as (pc & Hlcr & Hfcr & Ha & Hpr & Hu & Hti & Hpl & Hsp & Hins).
  apply insertFrameEvents_ok in Hins
    as (Hu' & Hsp' & Hti' & Hpl' & Hall & Hlcr' & Hfcr' & Ha' & Hpr').
  - rewrite Hu', Hsp', Hti', Hpl', Hlcr', Hfcr', Ha', Hpr'.
    rewrite Hlcr, Hfcr, Ha, Hpr, Hu, Hti, Hpl, Hsp. done.
  - rewrite Hti. by vm_compute.
  - rewrite Hpl. by vm_compute.
Qed.

Lemma keeps_InsertEvent {A0} (f : Poset S -> A0) event setWire :
  (forall s p, f (set_store s p) = f p) ->
  (forall v p, f (set_topologicalIndex v p) = f p) ->
  (forall v p, f (set_undeterminedEvents v p) = f p) ->
  (forall v p, f (set_pendingLoadedEvents v p) = f p) ->
  (forall v p, f (set_sigPool v p) = f p) ->
  keeps f (InsertEvent event setWire).
Proof.
  intros Hs Ht Hu Hl Hp.
  unfold InsertEvent, addUndeterminedEvents, increasePendingLoadedEvents,
    AddToSigPool, increaseTopologicalIndex.
  keeps_auto;
    first [ apply keeps_wrapErr;
            first [apply keeps_checkSelfParent | apply keeps_checkOtherParent
                  | apply keeps_setWireInfo]
          | apply keeps_storeWrite, Hs
          | apply keeps_modify; intros ?; first [apply Ht | apply Hu | apply Hl | apply Hp] ].
Qed.

Lemma keeps_insertFrameEvents {A0} (f : Poset S -> A0) events :
  (forall s p, f (set_store s p) = f p) ->
  (forall v p, f (set_topologicalIndex v p) = f p) ->
  (forall v p, f (set_undeterminedEvents v p) = f p) ->
  (forall v p, f (set_pendingLoadedEvents v p) = f p) ->
  (forall v p, f (set_sigPool v p) = f p) ->
  keeps f (insertFrameEvents events).
Proof.
  intros Hs Ht Hu Hl Hp. induction events as [|ev events IH]; simpl; keeps_auto.
  by apply keeps_InsertEvent.
Qed.

(** However [Reset] ends, it leaves no anchor block. *)
Lemma Reset_clears_anchor block frame p :
  anchorBlock (snd (Reset block frame p)) = None.
Proof.
  unfold Reset.
  unfold clearLastConsensusRound, clearFirstConsensusRound, clearAnchorBlock.
  do 3 (rewrite bind_run; unfold modify at 1; cbn beta iota).
  match goal with
  | |- anchorBlock (snd (?m ?q)) = _ =>
      assert (Hk : keeps anchorBlock m); [|by rewrite Hk]
  end.
  unfold setUndeterminedEvents, clearPendingRounds, clearPendingLoadedEvents,
    clearTopologicalIndex, setLastConsensusRound.
  keeps_auto;
    first [ apply keeps_modify; intros; simpl; by repeat case_match
          | apply keeps_storeWrite; done
          | by apply keeps_insertFrameEvents ].
Qed.

(** X14.  After a [Reset], however it ended, there is no anchor block:
    [GetAnchorBlockWithFrame] fails with "no Anchor Block" and changes
    nothing, until [ProcessSigPool] has set a new anchor. *)
Theorem GetAnchorBlockWithFrame_after_Reset (budget : nat) block frame p :
  let p' := snd (Reset block frame p) in
  GetAnchorBlockWithFrame budget p' = (Err (Errorf "no Anchor Block"), p').
Proof.
  cbv zeta. unfold GetAnchorBlockWithFrame. rewrite bind_run. unfold gets at 1.
  cbn [id]. by rewrite Reset_clears_anchor.
Qed.
End ResetMore.

(** The engine of the Reset scenario, reset to a frame of two events. *)
Lemma Reset_success_witness :
  let p' := snd (Reset resetBlock loadedFrame beforeReset) in
  lastConsensusRound p' = Some (blk_RoundReceived resetBlock) /\
  firstConsensusRound p' = Some (blk_RoundReceived resetBlock) /\
  anchorBlock p' = None /\
  pendingRounds p' = [] /\
  undeterminedEvents p' = Hex <$> frame_Events loadedFrame /\
  topologicalIndex p' = wrap64 (Z.of_nat (length (frame_Events loadedFrame))) /\
  pendingLoadedEvents p'
  = wrap64 (Z.of_nat (length (filter IsLoaded (frame_Events loadedFrame)))) /\
  sigPool p'
  = (sigPool beforeReset ++ concat (BlockSignatures <$> frame_Events loadedFrame))%list /\
  Forall (fun e => exists verr, Verify e = Some (true, verr)) (frame_Events loadedFrame).
Proof.
  cbv zeta. apply Reset_success. vm_compute. reflexivity.
Defined.

(** ** Hexadecimal hashes and the coin *)

Lemma hexDecode_byte (b : Byte.byte) :
  let n := Byte.to_N b in
  fromHexChar (hexDigitUpper (n / 16)) = Some (n / 16)%N /\
  fromHexChar (hexDigitUpper (n mod 16)) = Some (n mod 16)%N /\
  byteOfN (n / 16 * 16 + n mod 16) = b.
Proof. destruct b; vm_compute; done. Qed.

(** Decoding the hexadecimal print of a byte string gives the bytes back. *)
Lemma hexDecodeString_hexUpper (bs : list Byte.byte) :
  hexDecodeString (hexUpper bs) = (bs, true).
Proof.
  induction bs as [|b bs IH]; [done|].
  cbn [hexUpper hexDecodeString].
  destruct (hexDecode_byte b) as (-> & -> & ->). by rewrite IH.
Qed.

(** X15.  The coin of a hash.  On the hexadecimal form the engine gives to
    event hashes ("0x" followed by the bytes in upper-case hexadecimal),
    [middleBit] never panics and is decided by the hash itself: it is
    false exactly when the hash is not empty and its middle byte, the one
    at position [len/2], is zero. *)
Theorem middleBit_of_hash (hash : list Byte.byte) :
  middleBit (sprintf0xX hash) =
    Some (match hash !! (length hash / 2)%nat with
          | Some b => negb (Byte.eqb b Byte.x00)
          | None => true
          end).
Proof.
  unfold middleBit, sprintf0xX.
  change ("0x" +:+ hexUpper hash) with (String "0" (String "x" (hexUpper hash))).
  cbn [dropPrefix2].
  rewrite hexDecodeString_hexUpper. cbn [fst].
  by destruct (hash !! (length hash / 2)%nat).
Qed.

(** ** The order by Lamport timestamp *)

Section LamportOrder.
Context `{Lib}.

(** X16.  [ByLamportTimestamp.Less] is a strict order wherever it answers:
    no event is less than itself; of two events at most one is less than
    the other; and it is transitive.  It answers for any two events of
    different timestamps; at equal timestamps it compares the first
    component of the decoded signatures, and panics if one is missing. *)
Theorem lamportLess_strict_order (a b c : Event) :
  lamportLess a a <> Some true /\
  (lamportLess a b = Some true -> lamportLess b a = Some false) /\
  (lamportLess a b = Some true -> lamportLess b c = Some true ->
   lamportLess a c = Some true) /\
  (default (-1) (ev_lamportTimestamp a) <> default (-1) (ev_lamportTimestamp b) ->
   lamportLess a b
   = Some (default (-1) (ev_lamportTimestamp a) <? default (-1) (ev_lamportTimestamp b))).
Proof.
  unfold lamportLess. cbv zeta.
  set (ta := default (-1) (ev_lamportTimestamp a)).
  set (tb := default (-1) (ev_lamportTimestamp b)).
  set (tc := default (-1) (ev_lamportTimestamp c)).
  set (wa := fst (fst (DecodeSignature (ev_Signature a)))).
  set (wb := fst (fst (DecodeSignature (ev_Signature b)))).
  set (wc := fst (fst (DecodeSignature (ev_Signature c)))).
  repeat split.
  - rewrite Z.eqb_refl. cbn. destruct wa as [w|]; [|done].
    rewrite Z.ltb_irrefl. done.
  - destruct (ta =? tb) eqn:Eab; cbn.
    + rewrite Z.eqb_sym, Eab. cbn. destruct wa as [x|], wb as [y|]; try done.
      intros [= Hlt]. f_equal. apply Z.ltb_lt in Hlt. apply Z.ltb_ge. lia.
    + rewrite Z.eqb_sym, Eab. cbn.
      intros [= Hlt]. f_equal. apply Z.ltb_lt in Hlt. apply Z.ltb_ge. lia.
  - destruct (ta =? tb) eqn:Eab, (tb =? tc) eqn:Ebc, (ta =? tc) eqn:Eac; cbn;
      rewrite ?Z.eqb_eq, ?Z.eqb_neq in *;
      destruct wa as [x|], wb as [y|], wc as [z|]; try done; try lia;
      intros [= H1] [= H2]; f_equal; rewrite ?Z.ltb_lt in *; lia.
  - intros Hne. apply Z.eqb_neq in Hne. by rewrite Hne.
Qed.

Lemma lamportLess_asym (a b : Event) :
  lamportLess a b = Some true -> lamportLess b a = Some false.
Proof.
  unfold lamportLess. cbv zeta.
  set (ta := default (-1) (ev_lamportTimestamp a)).
  set (tb := default (-1) (ev_lamportTimestamp b)).
  rewrite (Z.eqb_sym tb ta).
  destruct (ta =? tb) eqn:Eab; cbn.
  - destruct (fst (fst (DecodeSignature (ev_Signature a)))) as [x|],
             (fst (fst (DecodeSignature (ev_Signature b)))) as [y|]; try done.
    intros [= Hlt]. f_equal. apply Z.ltb_lt in Hlt. apply Z.ltb_ge. lia.
  - intros [= Hlt]. f_equal. apply Z.ltb_lt in Hlt. apply Z.ltb_ge. lia.
Qed.

(** The insertion step keeps the reversed prefix sorted and loses no
    event. *)
Lemma insertSorted_HdRel x e rp r :
  insertSorted e rp = Some r ->
  HdRel (flip mayFollow) x rp -> flip mayFollow x e -> HdRel (flip mayFollow) x r.
Proof.
  destruct rp as [|h t]; cbn [insertSorted].
  - intros [= <-] _ He. by constructor.
  - destruct (lamportLess e h) as [[]|]; [|intros [= <-] _ He; by constructor|done].
    destruct (insertSorted e t) as [r'|]; [|done]. cbn.
    intros [= <-] Hh _. inversion Hh; subst. by constructor.
Qed.

Lemma insertSorted_spec e rp : forall r,
  insertSorted e rp = Some r ->
  Sorted (flip mayFollow) rp ->
  Sorted (flip mayFollow) r /\ r ≡ₚ e :: rp.
Proof.
  induction rp as [|h t IH]; intros r; cbn [insertSorted].
  - intros [= <-] _. split; [by repeat constructor | done].
  - destruct (lamportLess e h) as [[]|] eqn:Hless; [| |done].
    + destruct (insertSorted e t) as [r'|] eqn:Hins; [|done]. cbn.
      intros [= <-] Hs. inversion Hs as [|? ? Hst Hhd]; subst.
      destruct (IH r' eq_refl Hst) as (Hs' & Hp). split.
      * constructor; [done|].
        eapply insertSorted_HdRel; [exact Hins | exact Hhd |].
        unfold flip, mayFollow. by apply lamportLess_asym.
      * rewrite Hp. apply Permutation_swap.
    + intros [= <-] Hs. split; [|done].
      constructor; [done|]. constructor. exact Hless.
Qed.

Lemma sortRev_spec events : forall rp r,
  sortRev events rp = Some r ->
  Sorted (flip mayFollow) rp ->
  Sorted (flip mayFollow) r /\ r ≡ₚ reverse events ++ rp.
Proof.
  induction events as [|e events IH]; intros rp r; cbn [sortRev].
  - intros [= <-] Hs. split; [done|]. by rewrite reverse_nil.
  - destruct (insertSorted e rp) as [rp'|] eqn:Hins; [|done].
    intros Hr Hs. destruct (insertSorted_spec e rp rp' Hins Hs) as (Hs' & Hp').
    destruct (IH rp' r Hr Hs') as (Hs'' & Hp''). split; [done|].
    rewrite Hp'', Hp', reverse_cons, <- app_assoc. done.
Qed.

(** Sorting by Lamport timestamp gives the same events, each one followed
    by an event that is not less than it. *)
Lemma sortByLamportTimestamp_spec events sorted :
  sortByLamportTimestamp events = Some sorted ->
  Sorted mayFollow sorted /\ sorted ≡ₚ events.
Proof.
  unfold sortByLamportTimestamp.
  destruct (sortRev events []) as [r|] eqn:Hr; [|done]. cbn. intros [= <-].
  destruct (sortRev_spec events [] r Hr) as (Hs & Hp); [constructor|].
  split.
  - apply Sorted_reverse in Hs. exact Hs.
  - rewrite reverse_Permutation, Hp, app_nil_r. apply reverse_Permutation.
Qed.
End LamportOrder.

(** ** GetFrame: the frame it computes *)

Section GetFrameFacts.
Context `{Lib} {S : Type} `{Store S}.
Implicit Types (p : Poset S).
Variable budget : nat.

Lemma getEvents_spec hashes : forall p events p',
  getEvents hashes p = (Ok events, p') ->
  p' = p /\ Forall2 (fun eh e => GetEvent (store p) eh = ROk e) hashes events.
Proof.
  induction hashes as [|eh hashes IH]; intros p events p'; cbn [getEvents].
  - intros [= <- <-]. split; [done | constructor].
  - rewrite bind_run. unfold gets at 1. cbn [id]. rewrite bind_run.
    destruct (GetEvent (store p) eh) as [e|err] eqn:He; cbn [liftRes]; [|done].
    unfold ret at 1. rewrite bind_run.
    destruct (getEvents hashes p) as [[tl| | |] p1] eqn:Htl; try done.
    intros [= <- <-]. destruct (IH p tl p1 Htl) as (-> & Hall).
    split; [done|]. by constructor.
Qed.

(** X17.  The frame [GetFrame] computes.  When the store holds no frame
    for the round received and [GetFrame] succeeds, the frame it returns
    is for that round; its events are the consensus events of the round,
    as the store holds them, each exactly once and sorted by Lamport
    timestamp (no event is followed by one that is less than it); and it
    has one root per participant. *)
Theorem GetFrame_computed (roundReceived : Z) p (frame : Frame) p' :
  (forall stored, StoreGetFrame (store p) roundReceived <> ROk stored) ->
  GetFrame budget roundReceived p = (Ok frame, p') ->
  exists round events,
    GetRound (store p) roundReceived = ROk round /\
    Forall2 (fun eh e => GetEvent (store p) eh = ROk e) (ConsensusEvents round) events /\
    frame_Events frame ≡ₚ events /\
    Sorted mayFollow (frame_Events frame) /\
    frame_Round frame = roundReceived /\
    length (frame_Roots frame) = length (ToPeerSlice (participants p)).
Proof.
  intros Hnone. unfold GetFrame. rewrite bind_run. unfold gets at 1. cbn [id]. cbv zeta.
  destruct (StoreGetFrame (store p) roundReceived) as [stored|err] eqn:Hsf;
    [by destruct (Hnone stored)|].
  destruct (isKeyNotFound err); [|unfold fail; intros Hbad; discriminate Hbad].
  rewrite bind_run.
  destruct (GetRound (store p) roundReceived) as [round|err'] eqn:Hround; cbn [liftRes];
    [|unfold fail; intros Hbad; discriminate Hbad].
  unfold ret at 1. rewrite bind_run.
  destruct (getEvents (ConsensusEvents round) p) as [[events| | |] p1] eqn:Hevents;
    try (intros Hbad; discriminate Hbad).
  destruct (getEvents_spec _ _ _ _ Hevents) as (-> & Hall).
  rewrite bind_run.
  destruct (sortByLamportTimestamp events) as [sorted|] eqn:Hsort; cbn [liftOpt];
    [|unfold panic; intros Hbad; discriminate Hbad].
  destruct (sortByLamportTimestamp_spec events sorted Hsort) as (Hsorted & Hperm).
  unfold ret at 1. rewrite bind_run.
  destruct (rootsOfEvents budget sorted ∅ p) as [[roots1| | |] p2];
    try (intros Hbad; discriminate Hbad).
  rewrite bind_run.
  destruct (rootsOfPeers budget _ roots1 p2) as [[roots2| | |] p3];
    try (intros Hbad; discriminate Hbad).
  rewrite bind_run.
  destruct (othersOutsideFrame budget sorted ∅ roots2 p3) as [[roots3| | |] p4];
    try (intros Hbad; discriminate Hbad).
  rewrite bind_run. unfold storeWrite at 1.
  destruct (SetFrame (store p4) _) as [s' [err2|]]; cbn beta iota;
    [unfold fail; intros Hbad; discriminate Hbad|].
  unfold ret. intros [= <- <-].
  exists round, events. cbn [frame_Events frame_Round frame_Roots].
  repeat split; try done. by rewrite length_fmap.
Qed.
End GetFrameFacts.

Lemma GetFrame_computed_witness :
  exists frame,
    fst (GetFrame 10 1 framePoset) = Ok frame /\
    Sorted mayFollow (frame_Events frame) /\
    frame_Round frame = 1 /\
    length (frame_Roots frame) = 3%nat.
Proof.
  destruct (GetFrame 10 1 framePoset) as [[frame| | |] p'] eqn:Hrun;
    try (by vm_compute in Hrun).
  exists frame. split; [reflexivity|].
  destruct (GetFrame_computed 10 1 framePoset frame p') as (r & evs & _ & _ & _ & Hs & Hr & Hl).
  - intros stored. by vm_compute.
  - exact Hrun.
  - split; [exact Hs|]. split; [exact Hr | exact Hl].
Defined.

(** ** NewPoset: the quorums *)

(** X18.  The engine [NewPoset] builds.  It fails (fatally) exactly when
    the store's cache size is not positive.  Otherwise, for [n]
    participants, the super-majority is the least integer above [2n/3]
    and the trust count is the least integer not below [n/3]; with at
    least one participant the super-majority is at most [n]; and any two
    sets of [superMajority] participants have at least [trustCount]
    participants in common.  The queues, the signature pool and the
    caches are empty, no consensus round and no anchor block are set. *)
Theorem NewPoset_quorums {S : Type} `{Store S} (ps : Peers) (s : S)
    (ch : option (list Block)) :
  let n := Peers_Len ps in
  (NewPoset ps s ch = None <-> CacheSize s <= 0) /\
  forall p, NewPoset ps s ch = Some p ->
    (2 * n < 3 * superMajority p /\ 3 * (superMajority p - 1) <= 2 * n) /\
    (n <= 3 * trustCount p /\ 3 * (trustCount p - 1) < n) /\
    (0 < n -> superMajority p <= n) /\
    trustCount p <= 2 * superMajority p - n /\
    participants p = ps /\ store p = s /\
    undeterminedEvents p = [] /\ pendingRounds p = [] /\ sigPool p = [] /\
    lastConsensusRound p = None /\ firstConsensusRound p = None /\
    anchorBlock p = None /\ topologicalIndex p = 0 /\
    lru_items (ancestorCache (caches p)) = [] /\
    lru_items (selfAncestorCache (caches p)) = [] /\
    lru_items (stronglySeeCache (caches p)) = [] /\
    lru_items (roundCache (caches p)) = [] /\
    lru_items (timestampCache (caches p)) = [].
Proof.
  intros n. unfold NewPoset, newCache. cbv zeta.
  assert (Hn : 0 <= n) by (unfold n, Peers_Len; lia).
  destruct (CacheSize s <=? 0) eqn:Hsz.
  - split; [|done]. split; [intros _; by apply Z.leb_le | done].
  - split; [split; [done | intros Hle; apply Z.leb_gt in Hsz; lia]|].
    intros p [= <-]. cbn. fold n.
    pose proof (Z.div_mod (2 * n) 3 ltac:(lia)) as H2.
    pose proof (Z.mod_pos_bound (2 * n) 3 ltac:(lia)) as H2b.
    pose proof (Z.div_mod (n + 2) 3 ltac:(lia)) as H3.
    pose proof (Z.mod_pos_bound (n + 2) 3 ltac:(lia)) as H3b.
    repeat split; try done; lia.
Qed.

(** ** Strongly seeing is seeing *)

Section StronglySeeMore.
Context {S : Type} `{Store S}.
Variable st : S.
Variable participants : Peers.

Lemma Sent_nonempty_sees x y s :
  Sent st participants x y ∅ s -> s <> ∅ -> Anc st participants x y true.
Proof. intros Hs Hne. inversion Hs; subst; done. Qed.

(** X19.  Strongly seeing is seeing.  With coherent caches and a positive
    super-majority, when [stronglySee x y] answers true then [x] sees
    [y]: every answer of [see x y] is true. *)
Theorem stronglySee_implies_see (threshold : Z) (budget : nat) (c : Caches) (x y : string) :
  0 < threshold ->
  coherent st participants c ->
  ssCoherent st participants threshold c ->
  fst (stronglySee st participants threshold budget x y c) = Ok true ->
  forall b1 c1 b,
    coherent st participants c1 ->
    fst (see st participants b1 x y c1) = Ok b -> b = true.
Proof.
  intros Hthr Hc Hss Hrun b1 c1 b Hc1 Hsee.
  destruct (stronglySee_sound st participants budget threshold x y Hthr c (conj Hc Hss))
    as [_ Hval].
  destruct (Hval true Hrun) as (s & Hsent & Hsize).
  assert (Hne : s <> ∅).
  { intros ->. rewrite map_size_empty in Hsize. symmetry in Hsize.
    apply Z.leb_le in Hsize. lia. }
  pose proof (Sent_nonempty_sees x y s Hsent Hne) as Hanc.
  apply (see_sound st participants b1 x y c1 Hc1) in Hsee.
  by apply (Anc_det st participants x y).
Qed.
End StronglySeeMore.

(** In scenario 1, [f1] strongly sees [e0], hence sees it. *)
Lemma stronglySee_implies_see_witness :
  fst (stronglySee scenarioStore demoPeers 3 10 "0xF1" "0xE0" demoCaches) = Ok true /\
  forall b, fst (see scenarioStore demoPeers 10 "0xF1" "0xE0" demoCaches) = Ok b -> b = true.
Proof.
  assert (Hrun : fst (stronglySee scenarioStore demoPeers 3 10 "0xF1" "0xE0" demoCaches)
                 = Ok true) by (vm_compute; reflexivity).
  split; [exact Hrun|]. intros b.
  apply (stronglySee_implies_see scenarioStore demoPeers 3 10 demoCaches "0xF1" "0xE0").
  - lia.
  - apply coherent_empty.
  - apply ssCoherent_empty.
  - exact Hrun.
  - apply coherent_empty.
Defined.

(** ** DecideFame: fame is final *)

Section FameFinal.
Context `{Lib} {S : Type} `{Store S}.
Implicit Types (p : Poset S).
Variable budget : nat.

Lemma keepsDecided_refl ri : keepsDecided ri ri.
Proof. done. Qed.

Lemma keepsDecided_trans ri1 ri2 ri3 :
  keepsDecided ri1 ri2 -> keepsDecided ri2 ri3 -> keepsDecided ri1 ri3.
Proof.
  intros (H1 & H1c & H1q) (H2 & H2c & H2q). split; [|split; congruence].
  intros y Hy. rewrite H2; [by apply H1|].
  unfold IsDecided in *. by rewrite (H1 y Hy).
Qed.

Lemma keepsDecided_SetFame ri x v :
  IsDecided ri x = false -> keepsDecided ri (SetFame ri x v).
Proof.
  intros Hx. split; [|done]. intros y Hy. unfold SetFame. cbn.
  apply lookup_insert_ne. intros ->. congruence.
Qed.

(** A vote changes the round only by deciding the fame of [x], and then
    the vote loop is left. *)
Lemma castVote_round n sm diff y x yays nays votes ri votes' ri' leave :
  castVote n sm diff y x yays nays votes ri = Some (votes', ri', leave) ->
  (leave = false /\ ri' = ri) \/ (leave = true /\ exists v, ri' = SetFame ri x v).
Proof.
  unfold castVote. cbv zeta.
  destruct (mathModPositive _ _), (sm <=? _); try (intros [= <- <- <-]; eauto).
  destruct (middleBit y); intros [= <- <- <-]; eauto.
Qed.

Lemma voteWitnesses_round roundIndex j x ys : forall votes ri p votes' ri' leave p',
  voteWitnesses budget roundIndex j x ys votes ri p = (Ok (votes', ri', leave), p') ->
  (leave = false /\ ri' = ri) \/ (leave = true /\ exists v, ri' = SetFame ri x v).
Proof.
  induction ys as [|y ys IH]; intros votes ri p votes' ri' leave p'; cbn [voteWitnesses].
  - intros [= <- <- <- <-]. by left.
  - cbv zeta. destruct (wrap64 (j - roundIndex) =? 1).
    + rewrite bind_run. destruct (seeM budget y x p) as [[b| | |] p1]; try done. apply IH.
    + rewrite bind_run. unfold gets at 1. cbn [id]. rewrite bind_run.
      destruct (stronglySeen budget y _ p) as [[ss| | |] p1]; try done.
      destruct (countVotes votes x ss 0 0) as [yays nays]. rewrite bind_run.
      destruct (castVote _ _ _ y x yays nays votes ri) as [[[v1 r1] l1]|] eqn:Hcast;
        cbn [liftOpt]; [|done].
      unfold ret at 1. cbn beta iota.
      destruct (castVote_round _ _ _ _ _ _ _ _ _ _ _ _ Hcast) as [[-> ->]|[-> Hv]].
      * apply IH.
      * intros [= <- <- <- <-]. by right.
Qed.

Lemma voteLoop_round n roundIndex x : forall j votes ri p votes' ri' p',
  voteLoop budget n roundIndex j x votes ri p = (Ok (votes', ri'), p') ->
  ri' = ri \/ exists v, ri' = SetFame ri x v.
Proof.
  induction n as [|n IH]; intros j votes ri p votes' ri' p'; cbn [voteLoop].
  all: rewrite bind_run; unfold gets at 1; cbn [id].
  all: destruct (j <=? LastRound (store p)); [|intros [= <- <- <-]; by left].
  all: rewrite bind_run.
  all: destruct (voteWitnesses budget roundIndex j x _ votes ri p)
         as [[[[v1 r1] l1]| | |] p1] eqn:Hw; try done.
  all: destruct (voteWitnesses_round _ _ _ _ _ _ _ _ _ _ _ Hw) as [[-> ->]|[-> Hv]].
  all: try (intros [= <- <- <-]; by right).
  apply IH.
Qed.

(** X20.  Fame is final.  The loop of [DecideFame] over the witnesses of a
    round reads a round and returns the round to store: every witness
    that was decided keeps, in the round returned, exactly the entry
    (witness flag and fame) it had; the consensus events and the queue
    flag of the round are unchanged. *)
Theorem DecideFame_fame_is_final (roundIndex : Z) (xs : list string) votes
    (roundInfo : RoundInfo) p votes' (roundInfo' : RoundInfo) p' :
  voteOnWitnesses budget roundIndex xs votes roundInfo p = (Ok (votes', roundInfo'), p') ->
  (forall y, IsDecided roundInfo y = true ->
             ri_Events roundInfo' !! y = ri_Events roundInfo !! y /\
             IsDecided roundInfo' y = true) /\
  ri_ConsensusEvents roundInfo' = ri_ConsensusEvents roundInfo /\
  ri_queued roundInfo' = ri_queued roundInfo.
Proof.
  intros Hrun.
  assert (Hk : keepsDecided roundInfo roundInfo').
  { revert votes roundInfo p Hrun.
    induction xs as [|x xs IH]; intros votes ri p; cbn [voteOnWitnesses].
    - intros [= <- <- <-]. apply keepsDecided_refl.
    - destruct (IsDecided ri x) eqn:Hx; [apply IH|].
      rewrite bind_run.
      destruct (voteLoop budget budget roundIndex _ x votes ri p) as [[[v1 r1]| | |] p1] eqn:Hl;
        try done.
      cbn [fst snd]. intros Hrest%IH.
      destruct (voteLoop_round _ _ _ _ _ _ _ _ _ _ Hl) as [->|[v ->]]; [done|].
      eapply keepsDecided_trans; [by apply keepsDecided_SetFame | done]. }
  destruct Hk as (Hd & Hc & Hq). split; [|done].
  intros y Hy. split; [by apply Hd|].
  unfold IsDecided in *. by rewrite (Hd y Hy).
Qed.
End FameFinal.

(** Voting on a round whose first witness is decided and whose second is
    not, when no later round exists: the decided witness is untouched. *)
Lemma DecideFame_fame_is_final_witness :
  let run := voteOnWitnesses 5 0 ["0xE0"; "0xE1"] ∅ halfDecidedRound demoPoset in
  exists votes' roundInfo',
    fst run = Ok (votes', roundInfo') /\
    ri_Events roundInfo' !! "0xE0" = Some (mkRoundEvent true Famous).
Proof.
  cbv zeta.
  destruct (voteOnWitnesses 5 0 ["0xE0"; "0xE1"] ∅ halfDecidedRound demoPoset)
    as [[[votes' roundInfo']| | |] p'] eqn:Hrun; try (by vm_compute in Hrun).
  exists votes', roundInfo'. split; [reflexivity|].
  destruct (DecideFame_fame_is_final 5 0 ["0xE0"; "0xE1"] ∅ halfDecidedRound demoPoset
              votes' roundInfo' p' Hrun) as (Hd & _).
  destruct (Hd "0xE0" eq_refl) as [-> _]. reflexivity.
Defined.

(** ** ProcessDecidedRounds: what a round commits *)

Lemma mod64_add_l a b : ((a mod 2 ^ 64) + b) mod 2 ^ 64 = (a + b) mod 2 ^ 64.
Proof. by rewrite Zplus_mod_idemp_l. Qed.

Lemma wrap64_sub_l a b : wrap64 (wrap64 a - b) = wrap64 (a - b).
Proof. unfold Z.sub. apply wrap64_add_l. Qed.

Section Commit.
Context `{Lib} {S : Type} `{Store S}.
Implicit Types (p : Poset S).
Variable budget : nat.

(** The events of a frame committed one after the other, the store
    accepting each of them. *)
Lemma commitFrameEvents_ok events : forall p p',
  commitFrameEvents events p = (Ok tt, p') ->
  0 <= consensusTransactions p < 2 ^ 64 -> in_int64 (pendingLoadedEvents p) ->
  consensusTransactions p'
  = (consensusTransactions p
     + Z.of_nat (length (concat (Transactions <$> events)))) mod 2 ^ 64 /\
  pendingLoadedEvents p'
  = wrap64 (pendingLoadedEvents p - Z.of_nat (length (filter IsLoaded events))) /\
  commitCh p' = commitCh p /\
  lastConsensusRound p' = lastConsensusRound p /\
  firstConsensusRound p' = firstConsensusRound p.
Proof.
  induction events as [|ev events IH]; intros p p'; cbn [commitFrameEvents].
  - intros [= <-] Hct Hpl. cbn [fmap list_fmap concat length filter].
    rewrite Z.add_0_r, Z.sub_0_r, Z.mod_small, wrap64_id by done. done.
  - rewrite bind_run. unfold storeWrite at 1.
    destruct (AddConsensusEvent (store p) ev) as [s' [err|]]; cbn beta iota;
      [unfold fail; intros Hbad; discriminate Hbad|].
    rewrite bind_run. unfold AddConsensusTransactions at 1, modify at 1. cbn beta iota.
    rewrite bind_run. intros Hrun Hct Hpl.
    rewrite filter_cons. cbn [fmap list_fmap concat]. rewrite length_app, Nat2Z.inj_add.
    destruct (IsLoaded ev) eqn:Hld.
    + rewrite decide_True by done.
      unfold decreasePendingLoadedEvents at 1, modify at 1 in Hrun. cbn beta iota in Hrun.
      apply IH in Hrun as (Hct' & Hpl' & Hch' & Hlcr' & Hfcr').
      * rewrite Hct', Hpl', Hch', Hlcr', Hfcr'. cbn.
        rewrite mod64_add_l, wrap64_sub_l. repeat split; f_equal; lia.
      * cbn. apply Z.mod_pos_bound. lia.
      * cbn. apply wrap64_range.
    + rewrite decide_False by (cbn; tauto).
      unfold ret at 1 in Hrun. cbn beta iota in Hrun.
      apply IH in Hrun as (Hct' & Hpl' & Hch' & Hlcr' & Hfcr').
      * rewrite Hct', Hpl', Hch', Hlcr', Hfcr'. cbn.
        rewrite mod64_add_l. repeat split; f_equal; lia.
      * cbn. apply Z.mod_pos_bound. lia.
      * exact Hpl.
Qed.

(** X21.  What processing a decided round commits.  When the body of the
    loop of [ProcessDecidedRounds] runs to its end on a round, the frame
    of that round was obtained; the count of consensus transactions has
    grown by the number of transactions of the frame's events (on
    uint64); the count of pending loaded events has dropped by the number
    of loaded events of the frame (on int64); the last consensus round is
    the round, unless it was already greater; and at most one block was
    sent on the commit channel, a block of that frame with at least one
    transaction. *)
Theorem ProcessDecidedRounds_round_commits (r : pendingRound) p p' :
  0 <= consensusTransactions p < 2 ^ 64 ->
  in_int64 (pendingLoadedEvents p) ->
  processDecidedRound budget r p = (Ok RoundProcessed, p') ->
  exists frame p1,
    GetFrame budget (pr_Index r) p = (Ok frame, p1) /\
    consensusTransactions p'
    = (consensusTransactions p
       + Z.of_nat (length (concat (Transactions <$> frame_Events frame)))) mod 2 ^ 64 /\
    pendingLoadedEvents p'
    = wrap64 (pendingLoadedEvents p
              - Z.of_nat (length (filter IsLoaded (frame_Events frame)))) /\
    lastConsensusRound p'
    = Some (match lastConsensusRound p with
            | Some l => Z.max l (pr_Index r)
            | None => pr_Index r
            end) /\
    (commitCh p' = commitCh p \/
     exists sent block idx,
       commitCh p = Some sent /\ commitCh p' = Some (sent ++ [block])%list /\
       NewBlockFromFrame idx frame = ROk block /\ blk_Transactions block <> []).
Proof.
  intros Hct Hpl. unfold processDecidedRound.
  destruct (negb (pr_Decided r)); [intros Hbad; discriminate Hbad|].
  rewrite bind_run. unfold gets at 1. cbn [id].
  destruct (bool_decide _); [intros Hbad; discriminate Hbad|].
  rewrite bind_run, wrapErr_run.
  pose proof (keeps_GetFrame consensusTransactions (fun _ _ => eq_refl)
                (fun _ _ => eq_refl) budget (pr_Index r) p) as Hk1.
  pose proof (keeps_GetFrame pendingLoadedEvents (fun _ _ => eq_refl)
                (fun _ _ => eq_refl) budget (pr_Index r) p) as Hk2.
  pose proof (keeps_GetFrame commitCh (fun _ _ => eq_refl)
                (fun _ _ => eq_refl) budget (pr_Index r) p) as Hk3.
  pose proof (keeps_GetFrame lastConsensusRound (fun _ _ => eq_refl)
                (fun _ _ => eq_refl) budget (pr_Index r) p) as Hk4.
  destruct (GetFrame budget (pr_Index r) p) as [[frame| | |] p1];
    try (intros Hbad; discriminate Hbad).
  cbn [snd] in Hk1, Hk2, Hk3, Hk4.
  rewrite bind_run. unfold gets at 1. cbn [id]. rewrite bind_run.
  destruct (GetRound (store p1) (pr_Index r)) as [round|err]; cbn [liftRes];
    [|unfold fail; intros Hbad; discriminate Hbad].
  unfold ret at 1. rewrite bind_run.
  match goal with
  | |- context [(if 0 <? Z.of_nat (length (frame_Events frame)) then ?a else ?b) p1] =>
      set (mid := if 0 <? Z.of_nat (length (frame_Events frame)) then a else b)
  end.
  assert (Hmid : forall u q, mid p1 = (Ok u, q) ->
    consensusTransactions q
    = (consensusTransactions p
       + Z.of_nat (length (concat (Transactions <$> frame_Events frame)))) mod 2 ^ 64 /\
    pendingLoadedEvents q
    = wrap64 (pendingLoadedEvents p
              - Z.of_nat (length (filter IsLoaded (frame_Events frame)))) /\
    lastConsensusRound q = lastConsensusRound p /\
    (commitCh q = commitCh p \/
     exists sent block idx,
       commitCh p = Some sent /\ commitCh q = Some (sent ++ [block])%list /\
       NewBlockFromFrame idx frame = ROk block /\ blk_Transactions block <> [])).
  { intros u q. subst mid.
    destruct (0 <? Z.of_nat (length (frame_Events frame))) eqn:Hlen.
    - rewrite bind_run.
      destruct (commitFrameEvents (frame_Events frame) p1) as [[[]| | |] p2] eqn:Hcf;
        try (intros Hbad; discriminate Hbad).
      destruct (commitFrameEvents_ok _ _ _ Hcf) as (Hc1 & Hc2 & Hc3 & Hc4 & _);
        [by rewrite Hk1 | by rewrite Hk2 |].
      rewrite Hk1 in Hc1. rewrite Hk2 in Hc2. rewrite Hk3 in Hc3. rewrite Hk4 in Hc4.
      rewrite bind_run. unfold gets at 1. cbn [id]. rewrite bind_run.
      destruct (NewBlockFromFrame _ frame) as [block|err] eqn:Hblk; cbn [liftRes];
        [|unfold fail; intros Hbad; discriminate Hbad].
      unfold ret at 1. cbn beta iota.
      destruct (0 <? Z.of_nat (length (blk_Transactions block))) eqn:Htx.
      + rewrite bind_run. unfold storeWrite at 1.
        destruct (SetBlock (store p2) block) as [s2 [err|]]; cbn beta iota;
          [unfold fail; intros Hbad; discriminate Hbad|].
        unfold sendBlock, modify. cbn [commitCh set_store].
        intros [= <- <-].
        destruct (commitCh p2) as [sent|] eqn:Hch; cbn; rewrite ?Hch; (split; [done|]);
          (split; [done|]); (split; [done|]).
        * right. exists sent, block. eexists. repeat split; [done | exact Hblk |].
          intros Hnil. rewrite Hnil in Htx. done.
        * left. congruence.
      + unfold ret. intros [= <- <-]. repeat split; try done. by left.
    - unfold ret. intros [= <- <-].
      assert (Hnil : frame_Events frame = []).
      { destruct (frame_Events frame); [done|]. cbn in Hlen. done. }
      rewrite Hnil. cbn [fmap list_fmap concat length filter].
      rewrite Z.add_0_r, Z.sub_0_r, Z.mod_small, wrap64_id by (rewrite ?Hk1, ?Hk2; done).
      repeat split; try done. by left. }
  destruct (mid p1) as [[u| | |] q]; try (intros Hbad; discriminate Hbad).
  destruct (Hmid u q eq_refl) as (Hq1 & Hq2 & Hq3 & Hq4). clear Hmid.
  rewrite bind_run. unfold gets at 1. cbn [id]. rewrite bind_run.
  rewrite Hq3.
  intros Hrun. exists frame, p1. split; [done|].
  assert (Hset : forall q',
            (q' = set_lastConsensusRound (Some (pr_Index r)) q \/
             q' = set_firstConsensusRound (Some (pr_Index r))
                    (set_lastConsensusRound (Some (pr_Index r)) q)) ->
            consensusTransactions q' = consensusTransactions q /\
            pendingLoadedEvents q' = pendingLoadedEvents q /\
            lastConsensusRound q' = Some (pr_Index r) /\
            commitCh q' = commitCh q).
  { by intros q' [->| ->]. }
  assert (Hmod : snd (setLastConsensusRound (pr_Index r) q)
                 = set_lastConsensusRound (Some (pr_Index r)) q \/
                 snd (setLastConsensusRound (pr_Index r) q)
                 = set_firstConsensusRound (Some (pr_Index r))
                     (set_lastConsensusRound (Some (pr_Index r)) q)).
  { unfold setLastConsensusRound, modify. cbn [snd]. cbv zeta.
    destruct (firstConsensusRound _); [by left | by right]. }
  assert (Hok : fst (setLastConsensusRound (pr_Index r) q) = Ok tt) by done.
  destruct (setLastConsensusRound (pr_Index r) q) as [o q'] eqn:Hslcr.
  cbn [fst snd] in Hmod, Hok. subst o.
  destruct (Hset q' Hmod) as (Hs1 & Hs2 & Hs3 & Hs4).
  destruct (lastConsensusRound p) as [l|] eqn:Hl.
  - destruct (l <? pr_Index r) eqn:Hlt.
    + rewrite Hslcr in Hrun. unfold ret in Hrun. injection Hrun as <-.
      rewrite Hs1, Hs2, Hs3, Hs4. repeat split; try done.
      f_equal. apply Z.ltb_lt in Hlt. lia.
    + unfold ret in Hrun. cbn beta iota in Hrun. injection Hrun as <-.
      rewrite Hq3. repeat split; try done.
      f_equal. apply Z.ltb_ge in Hlt. lia.
  - rewrite Hslcr in Hrun. unfold ret in Hrun. injection Hrun as <-.
    rewrite Hs1, Hs2, Hs3, Hs4. repeat split; done.
Qed.
End Commit.

(** Round 1 of the frame scenario, decided, is processed. *)
Lemma ProcessDecidedRounds_round_commits_witness :
  let p := framePoset in
  let r := mkPendingRound 1 true in
  let p' := snd (processDecidedRound 10 r p) in
  exists frame p1,
    GetFrame 10 (pr_Index r) p = (Ok frame, p1) /\
    consensusTransactions p'
    = (consensusTransactions p
       + Z.of_nat (length (concat (Transactions <$> frame_Events frame)))) mod 2 ^ 64 /\
    pendingLoadedEvents p'
    = wrap64 (pendingLoadedEvents p
              - Z.of_nat (length (filter IsLoaded (frame_Events frame)))) /\
    lastConsensusRound p'
    = Some (match lastConsensusRound p with
            | Some l => Z.max l (pr_Index r)
            | None => pr_Index r
            end) /\
    (commitCh p' = commitCh p \/
     exists sent block idx,
       commitCh p = Some sent /\ commitCh p' = Some (sent ++ [block])%list /\
       NewBlockFromFrame idx frame = ROk block /\ blk_Transactions block <> []).
Proof.
  cbv zeta. apply ProcessDecidedRounds_round_commits.
  - vm_compute. split; [discriminate | reflexivity].
  - vm_compute. split; discriminate.
  - vm_compute. reflexivity.
Defined.

(** ** Merging flag tables *)

Section FlagTableFacts.
Context `{Lib}.

Lemma mergeFlag_fold (l : list (string * Z)) : forall (src : gmap string Z) (id : string),
  NoDup (fst <$> l) ->
  foldl mergeFlag src l !! id =
    if decide (default 0 (src !! id) = 0 /\ (id, 1) ∈ l) then Some 1 else src !! id.
Proof.
  induction l as [|[k f] l IH]; intros src id Hnd; cbn [foldl].
  - rewrite decide_False; [done|]. intros [_ Hin]. by apply elem_of_nil in Hin.
  - cbn [fmap list_fmap fst] in Hnd. apply NoDup_cons in Hnd as [Hk Hnd].
    rewrite IH by done. unfold mergeFlag.
    destruct (decide (id = k)) as [->|Hne].
    + assert (Hnot : (k, 1) ∉ l).
      { intros Hin. apply Hk. by apply (list_elem_of_fmap_2 fst) in Hin. }
      destruct ((default 0 (src !! k) =? 0) && (f =? 1)) eqn:Hc.
      * apply andb_true_iff in Hc as [H0%Z.eqb_eq ->%Z.eqb_eq].
        rewrite lookup_insert_eq. cbn [default].
        rewrite decide_False by (intros [? _]; done).
        rewrite decide_True; [done|]. split; [done | apply elem_of_cons; by left].
      * rewrite decide_False by (intros [_ ?]; done).
        apply andb_false_iff in Hc.
        rewrite decide_False; [done|]. intros [H0 Hin].
        apply elem_of_cons in Hin as [[= <-]|Hin]; [|done].
        destruct Hc as [Hc|Hc]; [apply Z.eqb_neq in Hc; done | done].
    + assert (Hsame : (if (default 0 (src !! k) =? 0) && (f =? 1)
                       then <[k := 1]> src else src) !! id = src !! id).
      { destruct (_ && _); [by rewrite lookup_insert_ne | done]. }
      rewrite Hsame.
      destruct (decide (default 0 (src !! id) = 0 /\ (id, 1) ∈ l)) as [[H0 Hin]|Hn].
      * rewrite decide_True; [done|]. split; [done | apply elem_of_cons; by right].
      * rewrite decide_False; [done|]. intros [H0 Hin]. apply Hn. split; [done|].
        apply elem_of_cons in Hin as [[= -> _]|Hin]; done.
Qed.

(** X22.  What [MergeFlagTable] computes.  When the flag table of the
    event decodes to [src], the merged table holds, for every key: 1 if
    the key is missing or zero in [src] and is 1 in [dst]; otherwise what
    [src] holds (a key missing from [src] stays missing).  So the result
    does not depend on the order in which the map [dst] is visited, flags
    of [src] that are set are never changed, and no key of [dst] whose
    flag is not 1 is added. *)
Theorem MergeFlagTable_lookup (e : Event) (src dst : gmap string Z) :
  unmarshalFlagTable (ev_FlagTable e) = (src, None) ->
  exists result,
    MergeFlagTable e dst = (result, None) /\
    forall id,
      result !! id =
        if decide (default 0 (src !! id) = 0 /\ dst !! id = Some 1) then Some 1
        else src !! id.
Proof.
  intros Hsrc. unfold MergeFlagTable. rewrite Hsrc. eexists. split; [done|].
  intros id. rewrite mergeFlag_fold by apply NoDup_fst_map_to_list.
  destruct (decide (default 0 (src !! id) = 0 /\ dst !! id = Some 1)) as [[H0 Hd]|Hn].
  - rewrite decide_True; [done|]. split; [done|]. by apply elem_of_map_to_list.
  - rewrite decide_False; [done|]. intros [H0 Hin]. apply Hn. split; [done|].
    by apply elem_of_map_to_list.
Qed.
End FlagTableFacts.

(** Merging into an event whose flag table is empty: the flags set in
    [dst] are taken, the others are not. *)
Lemma MergeFlagTable_lookup_witness :
  exists result,
    MergeFlagTable eventA0 {[ "0xE1" := 1; "0xE2" := 0 ]} = (result, None) /\
    result !! "0xE1" = Some 1 /\ result !! "0xE2" = None.
Proof.
  destruct (MergeFlagTable_lookup eventA0 ∅ {[ "0xE1" := 1; "0xE2" := 0 ]})
    as (result & Hrun & Hlook); [reflexivity|].
  exists result. split; [exact Hrun|].
  rewrite !Hlook. split; reflexivity.
Defined.

(** ** Rounds: the round of an event and the rounds of its parents *)

Section RoundFacts.
Context `{Lib} {S : Type} `{Store S}.
Variable st : S.
Variable participants : Peers.
Variable superMajority : Z.
Variable budget : nat.

(** The witness-proof and flag-table checks that end [round2] add one to
    the round of the parents, or nothing. *)
Lemma round2_finish (ex : Event) (parentRound : Z) c r c' :
  (let ws := RoundWitnesses st parentRound in
   viaProof <-
     (if superMajority <=? Z.of_nat (length (ev_WitnessProof ex)) then
        count <- countIsSee st participants budget ex (ev_WitnessProof ex) ws 0 ;;
        ret (superMajority <=? count)
      else ret false) ;;
   if (viaProof : bool) then ret (wrap64 (parentRound + 1))
   else
     let ft := fst (GetFlagTable ex) in
     viaTable <-
       (if superMajority <=? Z.of_nat (size ft) then
          count <- countIsSee st participants budget ex (fst <$> map_to_list ft) ws 0 ;;
          ret (superMajority <=? count)
        else ret false) ;;
     if (viaTable : bool) then ret (wrap64 (parentRound + 1))
     else ret parentRound) c = (Ok r, c') ->
  r = parentRound \/ r = wrap64 (parentRound + 1).
Proof.
  cbv zeta. rewrite bind_run.
  match goal with |- context [match ?m c with _ => _ end] =>
    destruct (m c) as [[[]| | |] c1] end; try (intros Hbad; discriminate Hbad).
  - unfold ret. intros [= <- _]. by right.
  - rewrite bind_run.
    match goal with |- context [match ?m c1 with _ => _ end] =>
      destruct (m c1) as [[[]| | |] c2] end; try (intros Hbad; discriminate Hbad).
    + unfold ret. intros [= <- _]. by right.
    + unfold ret. intros [= <- _]. by left.
Qed.

(** X23.  The round of an event and the rounds of its parents.  A
    computation of [round2] that succeeds returns: for the self-parent of
    a Root, the round the Root records; for an event attached to its
    creator's Root, with no other-parent or with the one the Root records,
    the Root's next round; and otherwise the greatest of the rounds of
    the parents, or that round plus one (on int64), the round of an
    other-parent recorded in the Root being the Root's next round. *)
Theorem round2_parent_rounds (round : string -> G Z) (x : string) (c : Caches)
    (r : Z) (c' : Caches) :
  round2 st participants superMajority budget round x c = (Ok r, c') ->
  match fst (RootsBySelfParent st) !! x with
  | Some root => r = re_Round (root_SelfParent root)
  | None =>
      exists ex root,
        GetEvent st x = ROk ex /\ GetRoot st (Creator ex) = ROk root /\
        ((SelfParent ex = re_Hash (root_SelfParent root) /\
          (OtherParent ex = "" \/ otherInRoot root ex = true) /\
          r = root_NextRound root) \/
         exists spRound opRound,
           returnsValue (round (SelfParent ex)) spRound /\
           (if decide (OtherParent ex = "") then opRound = spRound
            else if otherInRoot root ex then opRound = root_NextRound root
            else returnsValue (round (OtherParent ex)) opRound) /\
           (r = Z.max spRound opRound \/ r = wrap64 (Z.max spRound opRound + 1)))
  end.
Proof.
  unfold round2. cbv zeta.
  destruct (fst (RootsBySelfParent st) !! x) as [root0|]; [by intros [= <- _]|].
  rewrite bind_run.
  destruct (GetEvent st x) as [ex|err] eqn:Hex; cbn [liftRes];
    [|unfold fail; intros Hbad; discriminate Hbad].
  unfold ret at 1. rewrite bind_run.
  destruct (GetRoot st (Creator ex)) as [root|err] eqn:Hroot; cbn [liftRes];
    [|unfold fail; intros Hbad; discriminate Hbad].
  unfold ret at 1. cbn beta iota.
  intros Hrun. exists ex, root. split; [done|]. split; [done|]. revert Hrun.
  destruct (bool_decide (SelfParent ex = re_Hash (root_SelfParent root))
            && (bool_decide (OtherParent ex = "") || otherInRoot root ex)) eqn:Hatt.
  { intros [= <- _]. left.
    apply andb_true_iff in Hatt as [Hsp%bool_decide_eq_true Hop].
    apply orb_true_iff in Hop as [Hop%bool_decide_eq_true|Hop];
      (split; [done|]); (split; [|done]); [by left | by right]. }
  rewrite bind_run.
  destruct (round (SelfParent ex) c) as [[spRound| | |] c1] eqn:Hsp;
    try (intros Hbad; discriminate Hbad).
  assert (Hrsp : returnsValue (round (SelfParent ex)) spRound) by (by exists c, c1).
  destruct (decide (OtherParent ex = "")) as [Hnone|Hsome].
  { intros Hfin%round2_finish. right. exists spRound, spRound.
    rewrite Z.max_id. done. }
  rewrite bind_run.
  assert (Hop : forall opRound c2,
            (if otherInRoot root ex then ret (root_NextRound root)
             else round (OtherParent ex)) c1 = (Ok opRound, c2) ->
            if otherInRoot root ex then opRound = root_NextRound root
            else returnsValue (round (OtherParent ex)) opRound).
  { intros opRound c2. destruct (otherInRoot root ex).
    - by intros [= <- _].
    - intros Hr. by exists c1, c2. }
  match goal with
  | |- context [match ?m c1 with _ => _ end] =>
      destruct (m c1) as [[opRound| | |] c2] eqn:Hm
  end; try (intros Hbad; discriminate Hbad).
  specialize (Hop opRound c2 eq_refl).
  intros Hrun. right. exists spRound, opRound.
  split; [done|]. split; [done|]. revert Hrun.
  destruct (spRound <? opRound) eqn:Hlt.
  - apply Z.ltb_lt in Hlt. rewrite Z.max_r by lia.
    rewrite bind_run.
    destruct (countSeenFlagged _ _ _ _ _ _ _ c2) as [[seen| | |] c3];
      try (intros Hbad; discriminate Hbad).
    destruct (superMajority <=? snd seen); [intros [= <- _]; by right|].
    destruct (fst seen); [intros [= <- _]; by left|].
    apply round2_finish.
  - apply Z.ltb_ge in Hlt. rewrite Z.max_l by lia. apply round2_finish.
Qed.
End RoundFacts.

(** In scenario 1 the event [e10], of B, on [e1] and [e0], is of round 0,
    the round of both its parents. *)
Lemma round2_parent_rounds_witness :
  let round := round scenarioStore demoPeers 3 10 in
  fst (round2 scenarioStore demoPeers 3 10 round "0xE10" demoCaches) = Ok 0 /\
  match fst (RootsBySelfParent scenarioStore) !! "0xE10" with
  | Some root => 0 = re_Round (root_SelfParent root)
  | None =>
      exists ex root,
        GetEvent scenarioStore "0xE10" = ROk ex /\
        GetRoot scenarioStore (Creator ex) = ROk root /\
        ((SelfParent ex = re_Hash (root_SelfParent root) /\
          (OtherParent ex = "" \/ otherInRoot root ex = true) /\
          0 = root_NextRound root) \/
         exists spRound opRound,
           returnsValue (round (SelfParent ex)) spRound /\
           (if decide (OtherParent ex = "") then opRound = spRound
            else if otherInRoot root ex then opRound = root_NextRound root
            else returnsValue (round (OtherParent ex)) opRound) /\
           (0 = Z.max spRound opRound \/ 0 = wrap64 (Z.max spRound opRound + 1)))
  end.
Proof.
  cbv zeta.
  assert (Hrun : round2 scenarioStore demoPeers 3 10 (round scenarioStore demoPeers 3 10)
                   "0xE10" demoCaches
                 = (Ok 0, snd (round2 scenarioStore demoPeers 3 10
                                 (round scenarioStore demoPeers 3 10) "0xE10" demoCaches)))
    by (vm_compute; reflexivity).
  split; [by rewrite Hrun|].
  exact (round2_parent_rounds scenarioStore demoPeers 3 10 _ _ _ _ _ Hrun).
Defined.

(** ** DivideRounds: the queue of pending rounds *)

Section DivideRoundsFacts.
Context `{Lib} {S : Type} `{Store S}.
Implicit Types (p : Poset S).
Variable budget : nat.
Variable AddEvent : RoundInfo -> string -> bool -> RoundInfo.
Variable missingRound : RoundInfo.
Variable marshalFlagTable : gmap string Z -> list Byte.byte.

Lemma queueGrows_refl p : queueGrows p p.
Proof. split; [done|]. exists []. by rewrite app_nil_r. Qed.

Lemma queueGrows_trans p1 p2 p3 : queueGrows p1 p2 -> queueGrows p2 p3 -> queueGrows p1 p3.
Proof.
  intros (Hl1 & n1 & Hq1 & Hf1) (Hl2 & n2 & Hq2 & Hf2). split; [congruence|].
  exists (n1 ++ n2)%list. split; [by rewrite Hq2, Hq1, app_assoc|].
  apply Forall_app. split; [done|]. by rewrite <- Hl1.
Qed.

Lemma queueGrows_keeps {A} (m : M S A) :
  keeps pendingRounds m -> keeps lastConsensusRound m -> moves queueGrows m.
Proof.
  intros Hq Hl p. split; [apply Hl|]. exists []. rewrite app_nil_r. split; [apply Hq | done].
Qed.

Lemma keeps_witness {A0} (f : Poset S -> A0) x :
  (forall c p, f (set_caches c p) = f p) -> keeps f (witness budget x).
Proof.
  intros Hc. unfold witness. keeps_auto; by apply keeps_roundM.
Qed.

Lemma divideRound_queue hash ev : moves queueGrows (divideRound budget AddEvent missingRound
                                                     marshalFlagTable hash ev).
Proof.
  intros p. unfold divideRound. rewrite bind_run.
  pose proof (keeps_roundM pendingRounds (fun _ _ => eq_refl) budget hash p) as Hq1.
  pose proof (keeps_roundM lastConsensusRound (fun _ _ => eq_refl) budget hash p) as Hl1.
  destruct (roundM budget hash p) as [[roundNumber| | |] p1]; cbn [snd] in *;
    try (split; [done|]; exists []; by rewrite app_nil_r, Hq1).
  cbv zeta. rewrite bind_run. unfold gets at 1. cbn [id]. rewrite bind_run.
  assert (Hstop : queueGrows p p1).
  { split; [done|]. exists []. by rewrite app_nil_r, Hq1. }
  match goal with
  | |- context [match ?m p1 with _ => _ end] =>
      assert (Hfetch : snd (m p1) = p1);
      [ destruct (GetRound (store p1) roundNumber) as [ri|err];
        [done | by destruct (isKeyNotFound err)]
      | destruct (m p1) as [[ri| | |] q]; cbn [snd] in Hfetch; subst q;
        try exact Hstop ]
  end.
  rewrite bind_run.
  set (cond := negb (ri_queued ri)
               && match lastConsensusRound p1 with
                  | Some lcr => lcr <=? roundNumber
                  | None => true
                  end).
  assert (Hadd : exists ri' p2,
            (if cond
             then _ <- addPendingRounds [mkPendingRound roundNumber false] ;;
                  ret (mkRoundInfo (ri_Events ri) (ri_ConsensusEvents ri) true)
             else ret ri) p1 = (Ok ri', p2) /\ queueGrows p p2).
  { destruct cond eqn:Hcond.
    - eexists _, _. split; [reflexivity|]. split; [done|].
      exists [mkPendingRound roundNumber false]. cbn. rewrite Hq1. split; [done|].
      constructor; [|done]. split; [done|].
      apply andb_true_iff in Hcond as [_ Hlcr]. rewrite <- Hl1.
      destruct (lastConsensusRound p1); [by apply Z.leb_le | done].
    - eexists _, _. split; [reflexivity | exact Hstop]. }
  destruct Hadd as (ri' & p2 & -> & Hgrow).
  eapply queueGrows_trans; [exact Hgrow|].
  match goal with
  | |- queueGrows p2 (snd (?m p2)) =>
      assert (Hq : keeps pendingRounds m); [|assert (Hl : keeps lastConsensusRound m)]
  end.
  1,2: cbv zeta; keeps_auto;
       first [by apply keeps_witness | apply keeps_storeWrite; done].
  by apply queueGrows_keeps.
Qed.

Lemma divideEvent_queue hash :
  moves queueGrows (divideEvent budget AddEvent missingRound marshalFlagTable hash).
Proof.
  unfold divideEvent.
  assert (Hk : forall A (m : M S A),
            keeps pendingRounds m -> keeps lastConsensusRound m -> moves queueGrows m)
    by (intros; by apply queueGrows_keeps).
  repeat first
    [ apply divideRound_queue
    | apply (moves_ret queueGrows queueGrows_refl)
    | apply (moves_bind queueGrows queueGrows_trans); [|intros ?]
    | match goal with
      | |- moves _ (match ?x with _ => _ end) => destruct x
      | |- moves _ (if ?x then _ else _) => destruct x
      end
    | apply Hk; keeps_auto;
      first [ by apply keeps_lamportTimestampM | apply keeps_setWireInfo
            | apply keeps_storeWrite; done ] ].
Qed.

Lemma divideLoop_queue hashes :
  moves queueGrows (divideLoop budget AddEvent missingRound marshalFlagTable hashes).
Proof.
  induction hashes as [|hash hashes IH]; cbn [divideLoop].
  - apply (moves_ret queueGrows queueGrows_refl).
  - apply (moves_bind queueGrows queueGrows_trans); [apply divideEvent_queue | by intros].
Qed.

Lemma keeps_DivideRounds {A0} (f : Poset S -> A0) :
  (forall c p, f (set_caches c p) = f p) ->
  (forall s p, f (set_store s p) = f p) ->
  (forall v p, f (set_pendingRounds v p) = f p) ->
  keeps f (DivideRounds budget AddEvent missingRound marshalFlagTable).
Proof.
  intros Hc Hs Hp.
  assert (Hround : forall hash ev,
            keeps f (divideRound budget AddEvent missingRound marshalFlagTable hash ev)).
  { intros hash ev. unfold divideRound, addPendingRounds. cbv zeta. keeps_auto;
      first [ by apply keeps_roundM | by apply keeps_witness
            | apply keeps_storeWrite, Hs | apply keeps_modify; intros ?; apply Hp ]. }
  assert (Hevent : forall hash,
            keeps f (divideEvent budget AddEvent missingRound marshalFlagTable hash)).
  { intros hash. unfold divideEvent. keeps_auto;
      first [ apply Hround | by apply keeps_lamportTimestampM | apply keeps_setWireInfo
            | apply keeps_storeWrite, Hs ]. }
  unfold DivideRounds. apply keeps_bind; [apply keeps_gets|]. intros p0.
  induction (undeterminedEvents p0) as [|hash hashes IH]; cbn [divideLoop]; keeps_auto.
Qed.

(** X24.  [DivideRounds] and the queue of pending rounds.  However the
    pass ends, the queue has only grown at its end, and every round added
    is undecided and not below the last consensus round: a round under
    the last consensus round, as a Reset leaves them, is never queued
    again.  The last consensus round, the undetermined events, the
    signature pool, the anchor block and the topological index are not
    touched. *)
Theorem DivideRounds_pending_rounds p :
  let p' := snd (DivideRounds budget AddEvent missingRound marshalFlagTable p) in
  (exists new,
     pendingRounds p' = (pendingRounds p ++ new)%list /\
     Forall (fun r => pr_Decided r = false /\
                      match lastConsensusRound p with
                      | Some l => l <= pr_Index r
                      | None => True
                      end) new) /\
  lastConsensusRound p' = lastConsensusRound p /\
  undeterminedEvents p' = undeterminedEvents p /\
  sigPool p' = sigPool p /\
  anchorBlock p' = anchorBlock p /\
  topologicalIndex p' = topologicalIndex p.
Proof.
  cbv zeta. split.
  - unfold DivideRounds. rewrite bind_run. unfold gets at 1. cbn [id].
    destruct (divideLoop_queue (undeterminedEvents p) p) as (_ & new & Hq & Hall).
    by exists new.
  - repeat split; by apply keeps_DivideRounds.
Qed.
End DivideRoundsFacts.

(** ** The pipeline as a whole *)

Section PipelineFacts.
Context `{Lib} {S : Type} `{Store S}.
Implicit Types (p : Poset S).
Variable budget : nat.
Variable AddEvent : RoundInfo -> string -> bool -> RoundInfo.
Variable missingRound : RoundInfo.
Variable marshalFlagTable : gmap string Z -> list Byte.byte.

Lemma consensusStep_refl p : consensusStep p p.
Proof. repeat split; try done; apply lcrLe_refl. Qed.

Lemma consensusStep_trans p1 p2 p3 :
  consensusStep p1 p2 -> consensusStep p2 p3 -> consensusStep p1 p3.
Proof.
  intros (Hu1 & Hs1 & Ht1 & Hl1 & Ha1) (Hu2 & Hs2 & Ht2 & Hl2 & Ha2).
  repeat split.
  - by etrans.
  - by etrans.
  - congruence.
  - by eapply lcrLe_trans.
  - by eapply lcrLe_trans.
Qed.

(** A pass that touches none of the five is a step. *)
Lemma consensusStep_keeps {A} (m : M S A) :
  keeps undeterminedEvents m -> keeps sigPool m -> keeps topologicalIndex m ->
  keeps lastConsensusRound m -> keeps anchorBlock m ->
  moves consensusStep m.
Proof.
  intros Hu Hs Ht Hl Ha p. unfold consensusStep.
  rewrite Hu, Hs, Ht, Hl, Ha. apply consensusStep_refl.
Qed.

Lemma DivideRounds_step :
  moves consensusStep (DivideRounds budget AddEvent missingRound marshalFlagTable).
Proof. apply consensusStep_keeps; by apply keeps_DivideRounds. Qed.

Lemma DecideFame_step : moves consensusStep (DecideFame (S := S) budget).
Proof. apply consensusStep_keeps; by apply keeps_DecideFame. Qed.

Lemma DecideRoundReceived_step : moves consensusStep (DecideRoundReceived (S := S) budget).
Proof.
  intros p. unfold consensusStep.
  rewrite (keeps_DecideRoundReceived budget sigPool),
          (keeps_DecideRoundReceived budget topologicalIndex),
          (keeps_DecideRoundReceived budget lastConsensusRound),
          (keeps_DecideRoundReceived budget anchorBlock) by done.
  split; [|repeat split; try done; apply lcrLe_refl].
  rewrite DecideRoundReceived_run.
  pose proof (keeps_decideReceivedLoop undeterminedEvents (fun _ _ => eq_refl)
                (fun _ _ => eq_refl) budget (undeterminedEvents p) [] p) as Hk.
  pose proof (decideReceivedLoop_sublist budget (undeterminedEvents p) [] p) as Hsub.
  destruct (decideReceivedLoop budget (undeterminedEvents p) [] p) as [[new| | |] p1];
    cbn [snd fst] in *; rewrite ?Hk; try done.
  destruct (Hsub new eq_refl) as (kept & -> & Hkept). done.
Qed.

Lemma keeps_ProcessDecidedRounds {A0} (f : Poset S -> A0) :
  (forall c p, f (set_caches c p) = f p) ->
  (forall s p, f (set_store s p) = f p) ->
  (forall v p, f (set_consensusTransactions v p) = f p) ->
  (forall v p, f (set_pendingLoadedEvents v p) = f p) ->
  (forall v p, f (set_commitCh v p) = f p) ->
  (forall v p, f (set_lastConsensusRound v p) = f p) ->
  (forall v p, f (set_firstConsensusRound v p) = f p) ->
  (forall v p, f (set_pendingRounds v p) = f p) ->
  keeps f (ProcessDecidedRounds budget).
Proof.
  intros H1 H2 H3 H4 H5 H6 H7 H8 p. unfold ProcessDecidedRounds.
  assert (Hf : forall rs k p0, f (snd (processRounds budget rs k p0)) = f p0).
  { induction rs as [|r rs IH]; intros k p0; cbn [processRounds]; [done|].
    pose proof (keeps_processDecidedRound budget f r H1 H2 H3 H4 H5 H6 H7 p0) as Hk.
    destruct (processDecidedRound budget r p0) as [[[]| | |] p1]; cbn [fst snd] in *;
      try done.
    all: by rewrite IH. }
  specialize (Hf (pendingRounds p) 0%nat p).
  destruct (processRounds budget (pendingRounds p) 0 p) as [[o k] p1].
  cbn [fst snd] in *. by rewrite H8.
Qed.

Lemma ProcessDecidedRounds_step : moves consensusStep (ProcessDecidedRounds (S := S) budget).
Proof.
  intros p. unfold consensusStep.
  rewrite (keeps_ProcessDecidedRounds undeterminedEvents),
          (keeps_ProcessDecidedRounds sigPool),
          (keeps_ProcessDecidedRounds topologicalIndex),
          (keeps_ProcessDecidedRounds anchorBlock) by done.
  repeat split; try done; try apply lcrLe_refl.
  unfold ProcessDecidedRounds.
  pose proof (processRounds_lcr budget (pendingRounds p) 0 p) as Hle.
  destruct (processRounds budget (pendingRounds p) 0 p) as [[o k] p']. exact Hle.
Qed.

Lemma ProcessSigPool_step : moves consensusStep (ProcessSigPool (S := S)).
Proof.
  intros p. unfold consensusStep.
  rewrite (keeps_ProcessSigPool undeterminedEvents),
          (keeps_ProcessSigPool topologicalIndex),
          (keeps_ProcessSigPool lastConsensusRound) by done.
  repeat split; try done; try apply lcrLe_refl.
  - destruct (ProcessSigPool_pool p) as (marks & -> & _). apply sublist_filter.
  - unfold ProcessSigPool. rewrite bind_run. unfold gets at 1. cbn [id].
    rewrite bind_run.
    pose proof (processSigLoop_anchor (sigPool p) 0 ∅ p) as Hloop.
    destruct (processSigLoop (sigPool p) 0 ∅ p) as [[r| | |] p1]; cbn [snd] in *; try done.
    rewrite bind_run. unfold removeProcessedSignatures, modify.
    destruct (snd r); exact Hloop.
Qed.

(** X25.  A run of the consensus pipeline, the five passes in order up to
    the first error, however it ends: the undetermined queue and the
    signature pool only lose elements, keeping their order; the
    topological index is not touched; the last consensus round and the
    anchor block, once set, stay set and never decrease. *)
Theorem RunConsensus_step p :
  let p' := snd (RunConsensus budget AddEvent missingRound marshalFlagTable p) in
  undeterminedEvents p' `sublist_of` undeterminedEvents p /\
  sigPool p' `sublist_of` sigPool p /\
  topologicalIndex p' = topologicalIndex p /\
  lcrLe (lastConsensusRound p) (lastConsensusRound p') /\
  lcrLe (anchorBlock p) (anchorBlock p').
Proof.
  revert p.
  change (moves consensusStep (RunConsensus budget AddEvent missingRound marshalFlagTable)).
  unfold RunConsensus.
  repeat (apply (moves_bind consensusStep consensusStep_trans); [|intros _]).
  - apply DivideRounds_step.
  - apply DecideFame_step.
  - apply DecideRoundReceived_step.
  - apply ProcessDecidedRounds_step.
  - apply ProcessSigPool_step.
Qed.
End PipelineFacts.
